(** * OGDL graph, path engine and expression evaluator: a shallow embedding

    The development follows the graph source (the [Graph] node type with
    [New], [Add], [Node], [GetAt], [Depth], [Equals], [get] and [set])
    and [eval.go] ([EvalExpression], [evalBinary], [calc], [compare],
    [logic], [assign]).  The doc comment of a definition gives the lines
    of the function it embeds.

    Conventions of the embedding.
    - A Go [interface{}] is the closed variant [value]; the dynamic types
      [int] and [int64] are kept apart because the type assertions of
      [calc] tell them apart.
    - A [*Graph] is an [option Graph]: [None] is the nil pointer.  Child
      slots are pointers, so [Out] is a list of optional nodes.
    - In-place mutation is modelled by returning the updated node; the
      embedding therefore covers graphs in which every node is owned by
      one parent slot (trees).  Shared or cyclic structure is outside it.
    - A Go run-time panic is the [Panic] outcome.
    - Helper routines that live outside the two source files (the scalar
      conversion library and the string accessors) are the fields of the
      class [Helpers]. *)

From Stdlib Require Import ZArith String Ascii List Lia Bool Floats.
From stdpp Require Import base list strings pretty gmap.

Open Scope Z_scope.

(** ** Go run-time: panics, 64-bit integers, float64 *)

Inductive panic : Type :=
| NilDeref          (* nil pointer dereference *)
| IndexOutOfRange   (* slice index out of range *)
| DivideByZero      (* integer divide by zero *)
| Uncomparable      (* comparing uncomparable dynamic types *)
| MakeSliceLen.     (* makeslice: len out of range *)

Inductive outcome (A : Type) : Type :=
| Ok (a : A)
| Panic (e : panic).

Arguments Ok {A} a.
Arguments Panic {A} e.

(** Sequencing: a panic aborts the rest. *)
Definition bindO {A B : Type} (m : outcome A) (k : A -> outcome B) : outcome B :=
  match m with
  | Ok a => k a
  | Panic e => Panic e
  end.

Notation "x <- m ;; k" := (bindO m (fun x => k))
  (at level 20, m at level 99, k at level 200, only parsing).
Notation "' p <- m ;; k" := (bindO m (fun x => let 'p := x in k))
  (at level 20, p pattern, m at level 99, k at level 200, only parsing).

Definition returns {A : Type} (m : outcome A) : Prop := exists a, m = Ok a.

Module GoRT.

Definition MinInt64 : Z := - 2 ^ 63.
Definition MaxInt64 : Z := 2 ^ 63 - 1.

Definition in_int64 (z : Z) : Prop := MinInt64 <= z <= MaxInt64.

(** Two's complement wrap-around of a mathematical integer to 64 bits. *)
Definition wrap64 (z : Z) : Z := (z + 2 ^ 63) mod 2 ^ 64 - 2 ^ 63.

Definition add64 (a b : Z) : Z := wrap64 (a + b).
Definition sub64 (a b : Z) : Z := wrap64 (a - b).
Definition mul64 (a b : Z) : Z := wrap64 (a * b).

(** [x / y] and [x % y] on integers truncate towards zero and panic on a
    zero divisor; [MinInt64 / -1] wraps to [MinInt64]. *)
Definition div64 (a b : Z) : outcome Z :=
  if b =? 0 then Panic DivideByZero else Ok (wrap64 (Z.quot a b)).
Definition rem64 (a b : Z) : outcome Z :=
  if b =? 0 then Panic DivideByZero else Ok (Z.rem a b).

(** [float64(i)] for a 64-bit integer: round to nearest even. *)
Definition float64_of_int (z : Z) : float :=
  SF2Prim (binary_normalize prec emax z 0 false).

(** [int64(f)] and [int(f)] discard the fraction.  A value outside the
    integer range has no portable result; the amd64 conversion yields
    the most negative integer, which is what is written here. *)
Definition int_of_float64 (f : float) : Z :=
  match Prim2SF f with
  | S754_zero _ => 0
  | S754_finite s m e =>
      let a := if 0 <=? e then Z.pos m * 2 ^ e else Z.pos m / 2 ^ (- e) in
      let z := if s then - a else a in
      if (MinInt64 <=? z) && (z <=? MaxInt64) then z else MinInt64
  | S754_infinity _ | S754_nan => MinInt64
  end.

(** Rune constants used as operator codes. *)
Definition rune (c : ascii) : Z := Z.of_N (N_of_ascii c).

(** [make([]*Graph, n)]: the run-time check of [makeslice].  The length
    is refused (panic: makeslice: len out of range) when it is negative
    or when [n] pointers take more than [maxAlloc] bytes, the largest
    allocation of the 64-bit run-time (48 heap address bits, pointers
    of 8 bytes): the largest length accepted is [MaxSlots], 2^45.  A
    length that passes the check is allocated; running out of memory is
    not a panic and is not modelled. *)
Definition PtrSize : Z := 8.
Definition maxAlloc : Z := 2 ^ 48.
Definition MaxSlots : Z := 2 ^ 45.

Definition makeslice_ok (n : Z) : bool :=
  negb ((n <? 0) || (maxAlloc <? n * PtrSize)).

End GoRT.

Import GoRT.

(** ** The data model *)

#[warnings="-register-all"]
Inductive value : Type :=
| VNil                              (* the nil interface *)
| VBool (b : bool)
| VInt (n : Z)                      (* Go [int] *)
| VInt64 (n : Z)
| VFloat64 (f : float)
| VString (s : string)
| VBytes (b : list Byte.byte)
| VSlice (vs : list value)          (* [[]interface{}] *)
| VPtr (p : option Graph)           (* [*Graph], possibly a typed nil *)
with Graph : Type :=
| mkGraph (this : value) (out : list (option Graph)).

Definition This (g : Graph) : value := match g with mkGraph t _ => t end.
Definition Out (g : Graph) : list (option Graph) :=
  match g with mkGraph _ o => o end.

(** A leaf holding a scalar: the literal [Graph{n, nil}]. *)
Definition leaf (v : value) : Graph := mkGraph v [].

(** [New(n ...interface{})] (graph, lines 23-28): with no argument the
    empty node; otherwise [&Graph{n, nil}], the node whose content is the
    variadic argument slice [n] itself. *)
Definition New (n : list value) : Graph :=
  if (length n =? 0)%nat then mkGraph VNil [] else mkGraph (VSlice n) [].

(** [IsNil] (lines 31-36): the node is transparent (its content is the
    nil interface). *)
Definition IsNil (g : Graph) : bool :=
  match This g with VNil => true | _ => false end.

(** [Len] (lines 39-44): the out degree, [-1] on a nil receiver. *)
Definition Len (g : option Graph) : Z :=
  match g with
  | None => -1
  | Some g => Z.of_nat (length (Out g))
  end.

(** [Add] (lines 96-111) appends to the receiver and returns the node it
    was given or made: a non-nil node argument is appended, or its
    children are when it is transparent; anything else, a typed nil
    pointer included, becomes the content of a new leaf.  The pair is the
    updated receiver and the returned node. *)
Definition Add (g : Graph) (n : value) : Graph * Graph :=
  match n with
  | VPtr (Some node) =>
      if IsNil node
      then (mkGraph (This g) (Out g ++ Out node), node)
      else (mkGraph (This g) (Out g ++ [Some node]), node)
  | _ =>
      let gg := mkGraph n [] in
      (mkGraph (This g) (Out g ++ [Some gg]), gg)
  end.

(** [AddNodes] (lines 114-122) appends the children of [g2] (none when
    [g2] is nil). *)
Definition AddNodes (g : Graph) (g2 : option Graph) : Graph :=
  match g2 with
  | None => g
  | Some g2 => mkGraph (This g) (Out g ++ Out g2)
  end.

(** [GetAt] (lines 170-176): the child slot at [i], nil when out of
    range. *)
Definition GetAt (g : Graph) (i : Z) : option Graph :=
  if (Z.of_nat (length (Out g)) <=? i) || (i <? 0) then None
  else mjoin (Out g !! Z.to_nat i).

(** Structural well-formedness used by the theorems: no nil child slot
    anywhere below the node. *)
Fixpoint nil_free (g : Graph) : bool :=
  match g with
  | mkGraph _ out =>
      forallb (fun s => match s with Some n => nil_free n | None => false end) out
  end.

(** The height of a tree, counted in edges. *)
Fixpoint height (g : Graph) : nat :=
  match g with
  | mkGraph _ out =>
      fold_right
        (fun s acc => Nat.max acc (match s with Some n => S (height n) | None => 0%nat end))
        0%nat out
  end.

(** [strconv.Atoi]: an optional sign and decimal digits, within [int]. *)
Definition digit_of (c : ascii) : option Z :=
  let n := Z.of_N (N_of_ascii c) in
  if (48 <=? n) && (n <=? 57) then Some (n - 48) else None.

Fixpoint digits_val (s : string) (acc : Z) : option Z :=
  match s with
  | EmptyString => Some acc
  | String c s' =>
      match digit_of c with
      | Some d => digits_val s' (10 * acc + d)
      | None => None
      end
  end.

Definition Atoi (s : string) : option Z :=
  let parse (neg : bool) (ds : string) :=
    match ds with
    | EmptyString => None
    | _ =>
        match digits_val ds 0 with
        | Some n =>
            let z := if neg then - n else n in
            if (MinInt64 <=? z) && (z <=? MaxInt64) then Some z else None
        | None => None
        end
    end in
  match s with
  | String "-"%char ds => parse true ds
  | String "+"%char ds => parse false ds
  | _ => parse false s
  end.

(** ** Helpers outside the two source files *)

(** The scalar conversion library ([_string], [_boolf], [_int64], ...), the
    string accessors of a node ([ThisString], [String], [Int64], [Scalar],
    [Number]), the lexical predicates of the expression parser, the
    function-call hook of [EvalPath] and the reserved tags are not in the
    source files; the model takes them as given.  Conversions return the
    value and the [ok] flag, as the Go code does. *)
Class Helpers : Type := {
  _string : value -> string;
  _boolf : value -> bool * bool;
  _int64 : value -> Z * bool;
  _int64f : value -> Z * bool;
  _float64 : value -> float * bool;
  _float64f : value -> float * bool;
  ThisString : option Graph -> string;
  String_ : option Graph -> string;
  Int64 : option Graph -> Z;
  Scalar : option Graph -> value;
  Number : Graph -> value;
  isNumber : string -> bool;
  IsOperatorChar : Z -> bool;
  IsLetter : Z -> bool;
  Function : Graph -> Graph -> nat -> Graph -> value;
  TypeIndex : string;
  TypeSelector : string;
  TYPE_PATH : string;
  TYPE_EXPRESSION : string;
  TYPE_INDEX : string;
  TYPE_SELECTOR : string;
  TYPE_GROUP : string
}.

(** ** The graph source *)

(** The [range] loop of [Depth]: the largest depth among the children,
    starting from [i]; [D] is [Depth] itself. *)
Fixpoint Depth_range (D : Graph -> outcome Z) (ns : list (option Graph)) (i : Z)
    {struct ns} : outcome Z :=
  match ns with
  | [] => Ok i
  | None :: _ => Panic NilDeref
  | Some n :: rest =>
      j <- D n ;;
      Depth_range D rest (if j >? i then j else i)
  end.

(** [Depth] (lines 56-73): a leaf is [0]; otherwise one more than the
    deepest child, or [-1] when the deepest child reports more than
    [100]. *)
Fixpoint Depth (g : Graph) {struct g} : outcome Z :=
  match g with
  | mkGraph _ out =>
      if Z.of_nat (length out) =? 0 then Ok 0
      else
        i <- Depth_range Depth out 0 ;;
        if i >? 100 then Ok (-1) else Ok (i + 1)
  end.

(** [==] on two interface values: values of different dynamic types are
    unequal; slices of one type cannot be compared and panic; pointers
    compare by address, which the tree embedding does not record and
    takes as the parameter [same_addr]. *)
Definition iface_eq (same_addr : Graph -> Graph -> bool) (a b : value) : outcome bool :=
  match a, b with
  | VNil, VNil => Ok true
  | VBool x, VBool y => Ok (Bool.eqb x y)
  | VInt x, VInt y => Ok (x =? y)
  | VInt64 x, VInt64 y => Ok (x =? y)
  | VFloat64 x, VFloat64 y => Ok (PrimFloat.eqb x y)
  | VString x, VString y => Ok (String.eqb x y)
  | VBytes _, VBytes _ => Panic Uncomparable
  | VSlice _, VSlice _ => Panic Uncomparable
  | VPtr None, VPtr None => Ok true
  | VPtr (Some x), VPtr (Some y) => Ok (same_addr x y)
  | _, _ => Ok false
  end.

(** The index loop of [Equals] over the two child arrays; [E] is
    [Equals] itself. *)
Fixpoint Equals_loop (E : Graph -> Graph -> outcome bool)
    (gs cs : list (option Graph)) {struct gs} : outcome bool :=
  match gs, cs with
  | [], _ => Ok true
  | _ :: _, [] => Panic IndexOutOfRange
  | Some gi :: gs', Some ci :: cs' =>
      b <- E gi ci ;;
      if b then Equals_loop E gs' cs' else Ok false
  | _ :: _, _ :: _ => Panic NilDeref
  end.

(** [Equals] (lines 76-91): same content, same number of children,
    children pairwise equal in order. *)
Fixpoint Equals (same_addr : Graph -> Graph -> bool) (g c : Graph) {struct g} : outcome bool :=
  match g with
  | mkGraph gthis gout =>
      e <- iface_eq same_addr (This c) gthis ;;
      if negb e then Ok false
      else if negb (Z.of_nat (length gout) =? Z.of_nat (length (Out c))) then Ok false
      else Equals_loop (Equals same_addr) gout (Out c)
  end.

Section GraphOps.

Context {H : Helpers}.

(** [Node] (lines 158-167): the first child whose content reads as [s],
    with its position (the position stands for the returned pointer). *)
Fixpoint findNode (out : list (option Graph)) (s : string) (k : nat)
    : outcome (option (nat * Graph)) :=
  match out with
  | [] => Ok None
  | None :: _ => Panic NilDeref
  | Some node :: rest =>
      if String.eqb s (_string (This node)) then Ok (Some (k, node))
      else findNode rest s (S k)
  end.

Definition Node (g : Graph) (s : string) : outcome (option Graph) :=
  r <- findNode (Out g) s 0 ;; Ok (option_map snd r).

(** [addEqualNodes] (lines 127-140): for every child of [g2] whose
    content reads as [key], append that child's children to the
    receiver; optionally recurse into every child.  [acc] is the
    receiver's [Out]. *)
Fixpoint addEqualNodes (g2 : Graph) (key : string) (recurse : bool)
    (acc : list (option Graph)) {struct g2} : outcome (list (option Graph)) :=
  match g2 with
  | mkGraph _ out =>
      (fix range (ns : list (option Graph)) (acc : list (option Graph)) {struct ns}
         : outcome (list (option Graph)) :=
         match ns with
         | [] => Ok acc
         | None :: _ => Panic NilDeref
         | Some n :: rest =>
             let acc1 := if String.eqb key (_string (This n))
                         then Out (AddNodes (mkGraph VNil acc) (Some n)) else acc in
             acc2 <- (if recurse then addEqualNodes n key true acc1 else Ok acc1) ;;
             range rest acc2
         end) out acc
  end.

(** *** [get] (lines 205-316) *)

Definition first_child (elem : option Graph) : outcome (option Graph) :=
  match elem with
  | None => Panic NilDeref
  | Some e =>
      match Out e with
      | [] => Panic IndexOutOfRange
      | c :: _ => Ok c
      end
  end.

(** The counting loop of [{N}]: [i] is decremented at every child that
    reads as [elemPrev]; at zero the child's children are collected. *)
Fixpoint select_ith (out : list (option Graph)) (elemPrev : string) (i : Z)
    : Z * option Graph :=
  match out with
  | [] => (i, None)
  | nn :: rest =>
      if String.eqb (ThisString nn) elemPrev then
        let i' := wrap64 (i - 1) in
        if i' =? 0 then (i', Some (AddNodes (New []) nn))
        else select_ith rest elemPrev i'
      else select_ith rest elemPrev i
  end.

(** The tail of [get]: a node with content reached by anything but a
    field lookup is wrapped in a fresh container. *)
Definition get_finish (node : Graph) (iknow : bool) : option Graph :=
  if negb (IsNil node) && negb iknow
  then Some (fst (Add (New []) (VPtr (Some node))))
  else Some node.

(** The loop of [get] from a given state. *)
Fixpoint get_loop (node : Graph) (nodePrev : option Graph) (elemPrev : string)
    (iknow : bool) (elems : list (option Graph)) {struct elems}
    : outcome (option Graph) :=
  match elems with
  | [] => Ok (get_finish node iknow)
  | elem :: rest =>
      let p := ThisString elem in
      if String.eqb p TypeIndex then
        if Len elem =? 0 then Ok None
        else
          c <- first_child elem ;;
          match Atoi (ThisString c) with
          | None => Ok None
          | Some i =>
              match GetAt node i with
              | None => Ok None
              | Some node' =>
                  get_loop node' (Some node) (ThisString (Some node')) false rest
              end
          end
      else if String.eqb p TypeSelector then
        match nodePrev with
        | None => Ok None
        | Some np =>
            if (Len (Some np) =? 0) || (Z.of_nat (String.length elemPrev) =? 0)
            then Ok None
            else if Len elem =? 0 then
              out <- addEqualNodes np elemPrev false (Out (New [])) ;;
              if Z.of_nat (length out) =? 0 then Ok None
              else get_loop (mkGraph VNil out) nodePrev elemPrev false rest
            else
              c <- first_child elem ;;
              match Atoi (ThisString c) with
              | None => Ok None
              | Some i =>
                  if i <? 0 then Ok None
                  else
                    let '(i', sel) := select_ith (Out np) elemPrev (wrap64 (i + 1)) in
                    if i' >? 0 then Ok None
                    else
                      get_loop (match sel with Some r => r | None => node end)
                               nodePrev elemPrev false rest
              end
        end
      else if String.eqb p "_len" then
        Ok (Some (fst (Add (New []) (VInt (Len (Some node))))))
      else
        r <- Node node p ;;
        match r with
        | None => Ok None
        | Some node' => get_loop node' (Some node) p true rest
        end
  end.

Definition get (g : option Graph) (path : option Graph) : outcome (option Graph) :=
  match g, path with
  | Some g, Some path => get_loop g None "" true (Out path)
  | _, _ => Ok None
  end.

(** *** [set] (lines 354-411) *)

(** The index branch of [set]: grow [Out] to [i+1] slots when it has at
    most [i] (the new slots are nil pointers; [make] panics when [i+1]
    has wrapped to a negative length or is more than the run-time
    allocates), then put [New(val)] at slot [i] and return it. *)
Definition set_index (node : Graph) (i : Z) (val : value) : outcome (Graph * Graph) :=
  out <- (if Z.of_nat (length (Out node)) <=? i then
            let n := wrap64 (i + 1) in
            if makeslice_ok n
            then Ok (Out node ++ replicate (Z.to_nat n - length (Out node)) None)
            else Panic MakeSliceLen
          else Ok (Out node)) ;;
  if (i <? 0) || (Z.of_nat (length out) <=? i) then Panic IndexOutOfRange
  else
    let placed := New [val] in
    Ok (mkGraph (This node) (<[Z.to_nat i := Some placed]> out), placed).

(** The last two statements of [set]: drop the children of the node
    reached and add the value. *)
Definition set_terminal (node : Graph) (val : value) : Graph * Graph :=
  Add (mkGraph (This node) []) val.

(** The second loop of [set] (construction): every remaining element
    is added under the node built so far.  [Add] returns its argument
    when that is a node, so a transparent node given as an element is
    spliced into the parent and the construction goes on in the node
    itself, detached from the parent. *)
Fixpoint set_build (node : Graph) (elems : list (option Graph)) (val : value)
    {struct elems} : outcome (Graph * Graph) :=
  match elems with
  | [] => Ok (set_terminal node val)
  | elem :: rest =>
      if String.eqb (ThisString elem) TypeIndex then set_index node (Int64 elem) val
      else
        match elem with
        | None => Panic NilDeref
        | Some e =>
            match This e with
            | VPtr (Some h) =>
                '(h', ret) <- set_build h rest val ;;
                if IsNil h
                then Ok (mkGraph (This node) (Out node ++ Out h), ret)
                else Ok (mkGraph (This node) (Out node ++ [Some h']), ret)
            | v =>
                '(gg', ret) <- set_build (mkGraph v []) rest val ;;
                Ok (mkGraph (This node) (Out node ++ [Some gg']), ret)
            end
        end
  end.

(** The first loop of [set] (traversal) followed by the rest of the
    function.  The result is the updated node and the node returned. *)
Fixpoint set_walk (node : Graph) (elems : list (option Graph)) (val : value)
    {struct elems} : outcome (Graph * Graph) :=
  match elems with
  | [] => Ok (set_terminal node val)
  | elem :: rest =>
      if String.eqb (ThisString elem) TypeIndex then set_index node (Int64 elem) val
      else
        r <- findNode (Out node) (ThisString elem) 0 ;;
        match r with
        | Some (k, child) =>
            '(child', ret) <- set_walk child rest val ;;
            Ok (mkGraph (This node) (<[k := Some child']> (Out node)), ret)
        | None => set_build node elems val
        end
  end.

Definition set (g : Graph) (path : option Graph) (val : value) : outcome (Graph * Graph) :=
  match path with
  | None => Panic NilDeref
  | Some path => set_walk g (Out path) val
  end.

End GraphOps.

(** ** eval.go *)

(** Operator codes: the rune literals of [evalBinary]. *)
Definition op_add : Z := Eval cbv in rune "+".
Definition op_sub : Z := Eval cbv in rune "-".
Definition op_mul : Z := Eval cbv in rune "*".
Definition op_div : Z := Eval cbv in rune "/".
Definition op_mod : Z := Eval cbv in rune "%".
Definition op_eq : Z := Eval cbv in rune "=".
Definition op_not : Z := Eval cbv in rune "!".
Definition op_gt : Z := Eval cbv in rune ">".
Definition op_lt : Z := Eval cbv in rune "<".
Definition op_and : Z := Eval cbv in rune "&".
Definition op_or : Z := Eval cbv in rune "|".

(** A [switch op] over the five arithmetic runes; [None] when no case
    matches and control leaves the switch. *)
Definition arith_switch {A : Type} (op : Z) (plus minus times quot rem : A) : option A :=
  if op =? op_add then Some plus
  else if op =? op_sub then Some minus
  else if op =? op_mul then Some times
  else if op =? op_div then Some quot
  else if op =? op_mod then Some rem
  else None.

(** [if cond { switch ... }]: the block returns or falls through. *)
Definition block {A : Type} (cond : bool) (sw : option A) (next : A) : A :=
  if cond then match sw with Some r => r | None => next end else next.

Definition VInt64_of (m : outcome Z) : outcome value :=
  match m with Ok z => Ok (VInt64 z) | Panic e => Panic e end.
Definition VInt_of (m : outcome Z) : outcome value :=
  match m with Ok z => Ok (VInt z) | Panic e => Panic e end.

Section EvalOps.

Context {H : Helpers}.

(** [calc] (eval.go, lines 364-443): the type assertions first, then the
    four blocks in the order of the source, then the non-numeric tail. *)
Definition calc (v1 v2 : value) (op : Z) : outcome value :=
  let '(i1, ok) := match v1 with VInt64 n => (n, true) | _ => (0, false) end in
  let '(i2, ok2) := match v2 with VInt64 n => (n, true) | _ => (0, false) end in
  let '(i3, ok3) :=
    if negb ok
    then match v1 with VFloat64 f => (f, true) | _ => (0%float, false) end
    else (0%float, false) in
  let '(i4, ok4) :=
    if negb ok2
    then match v2 with VFloat64 f => (f, true) | _ => (0%float, false) end
    else (0%float, false) in
  block (ok && ok2)
    (arith_switch op
       (Ok (VInt64 (add64 i1 i2))) (Ok (VInt64 (sub64 i1 i2)))
       (Ok (VInt64 (mul64 i1 i2)))
       (VInt64_of (div64 i1 i2)) (VInt64_of (rem64 i1 i2)))
  (block (ok3 && ok4)
    (arith_switch op
       (Ok (VFloat64 (i3 + i4)%float)) (Ok (VFloat64 (i3 - i4)%float))
       (Ok (VFloat64 (i3 * i4)%float)) (Ok (VFloat64 (i3 / i4)%float))
       (VInt_of (rem64 (int_of_float64 i3) (int_of_float64 i4))))
  (block (ok && ok4)
    (let i3 := float64_of_int i1 in
     arith_switch op
       (Ok (VFloat64 (i3 + i4)%float)) (Ok (VFloat64 (i3 - i4)%float))
       (Ok (VFloat64 (i3 * i4)%float)) (Ok (VFloat64 (i3 / i4)%float))
       (VInt64_of (rem64 i1 (int_of_float64 i4))))
  (block (ok3 && ok2)
    (let i4 := float64_of_int i2 in
     arith_switch op
       (Ok (VFloat64 (i3 + i4)%float)) (Ok (VFloat64 (i3 - i4)%float))
       (Ok (VFloat64 (i3 * i4)%float)) (Ok (VFloat64 (i3 / i4)%float))
       (VInt64_of (rem64 (int_of_float64 i3) i2)))
  (if negb (op =? op_add) then Ok VNil
   else Ok (VString (_string v1 ++ _string v2)))))).

(** [compare] (lines 253-313): the first operand decides the family.  (The source also
    prints its operands; output is not modelled.) *)
Definition compare (v1 v2 : value) (op : Z) : bool :=
  let '(i1, ok) := _int64 v1 in
  if ok then
    let '(i2, ok) := _int64f v2 in
    if negb ok then false
    else if op =? op_eq then i1 =? i2
    else if op =? op_add then i2 <=? i1
    else if op =? op_sub then i1 <=? i2
    else if op =? op_gt then i2 <? i1
    else if op =? op_lt then i1 <? i2
    else if op =? op_not then negb (i1 =? i2)
    else false
  else
    let '(f1, ok) := _float64 v1 in
    if ok then
      let '(f2, ok) := _float64f v2 in
      if negb ok then false
      else if op =? op_eq then PrimFloat.eqb f1 f2
      else if op =? op_add then PrimFloat.leb f2 f1
      else if op =? op_sub then PrimFloat.leb f1 f2
      else if op =? op_gt then PrimFloat.ltb f2 f1
      else if op =? op_lt then PrimFloat.ltb f1 f2
      else if op =? op_not then negb (PrimFloat.eqb f1 f2)
      else false
    else
      let s1 := _string v1 in
      let s2 := _string v2 in
      if op =? op_eq then String.eqb s1 s2
      else if op =? op_not then negb (String.eqb s1 s2)
      else false.

(** [logic] (lines 315-332): both operands must coerce to a boolean. *)
Definition logic (i1 i2 : value) (op : Z) : bool :=
  let '(b1, ok1) := _boolf i1 in
  let '(b2, ok2) := _boolf i2 in
  if negb ok1 || negb ok2 then false
  else if op =? op_and then b1 && b2
  else if op =? op_or then b1 || b2
  else false.

(** The value [g.set(p, v)] yields as an [interface{}], with the
    context graph after the write. *)
Definition set_value (g : Graph) (p : option Graph) (v : value) : outcome (value * Graph) :=
  '(g', ret) <- set g p v ;;
  Ok (VPtr (Some ret), g').

(** [assign] (lines 335-361): plain [=] writes; a compound operator reads
    the target first, and [left.This] is evaluated under the test
    [left == nil]. *)
Definition assign (g : Graph) (p : option Graph) (v : value) (op : Z)
    : outcome (value * Graph) :=
  if op =? op_eq then set_value g p v
  else
    left <- get (Some g) p ;;
    match left with
    | None =>
        (* the argument [left.This] is evaluated on the nil pointer *)
        Panic NilDeref
    | Some _ =>
        if op =? op_add then set_value g p v
        else if op =? op_sub then
          r <- calc (VInt 0) v op_sub ;;
          set_value g p r
        else if op =? op_mul then set_value g p (VInt 0)
        else if op =? op_div then set_value g p (VString "infinity")
        else if op =? op_mod then set_value g p (VString "undefined")
        else Ok (VNil, g)
    end.

(** Modelled from the spec: [NilGraph] and [NewGraph], the constructors
    used by [eval.go], are not in the source files; the spec has them
    construct a node that is empty or holds the given scalar. *)
Definition NilGraph : Graph := mkGraph VNil [].
Definition NewGraph (s : string) : Graph := mkGraph (VString s) [].

(** The first byte of a non-empty string, as [int(s[0])]. *)
Definition first_byte (s : string) : Z :=
  match s with
  | EmptyString => 0
  | String c _ => rune c
  end.

(** The end of [EvalPath]. *)
Definition EvalPath_finish (node : option Graph) (iknow : bool) : value :=
  match node with
  | Some n =>
      if iknow then
        match Out n with
        | [c] =>
            if Len c =? 0
            then match c with Some c' => This c' | None => VNil end
            else VPtr (Some (mkGraph VNil (Out n)))
        | _ => VPtr (Some (mkGraph VNil (Out n)))
        end
      else VPtr node
  | None => VPtr node
  end.

(** [EvalPath] (lines 45-130), with the evaluator of sub-expressions as
    a parameter.  The traversal node is a snapshot taken from the
    context before any sub-expression ran. *)
Definition EvalPath_with (ev : Graph -> Graph -> outcome (value * Graph))
    (g : Graph) (p : Graph) : outcome (value * Graph) :=
  match p with
  | mkGraph _ pout =>
      if Z.of_nat (length pout) =? 0 then Ok (VNil, g)
      else
        let start :=
          if negb (IsNil g) then fst (Add NilGraph (VPtr (Some g))) else g in
        (fix loop (elems : list (option Graph)) (i : nat) (g : Graph)
                  (node : option Graph) (iknow : bool) {struct elems}
           : outcome (value * Graph) :=
           match elems with
           | [] => Ok (EvalPath_finish node iknow, g)
           | n :: rest =>
               let s := String_ n in
               let field (s : string) (g : Graph) :=
                 match node with
                 | None => Panic NilDeref
                 | Some nd =>
                     nn <- Node nd s ;;
                     match nn with
                     | None => Ok (Function nd p i g, g)
                     | Some nn' => loop rest (S i) g (Some nn') true
                     end
                 end in
               if String.eqb s TYPE_INDEX then
                 if Len n =? 0 then Ok (VString "empty []", g)
                 else
                   match n with
                   | None => Panic NilDeref
                   | Some (mkGraph _ []) => Panic IndexOutOfRange
                   | Some (mkGraph _ (None :: _)) => Panic NilDeref
                   | Some (mkGraph _ (Some e :: _)) =>
                       '(itf, g1) <- ev g e ;;
                       let '(ix, ok) := _int64 itf in
                       if negb ok || (ix <? 0) || (Len node <=? ix)
                       then Ok (VString "[] does not evaluate to a valid integer", g1)
                       else
                         match node with
                         | None => Panic NilDeref
                         | Some nd => loop rest (S i) g1 (GetAt nd ix) false
                         end
                   end
               else if String.eqb s TYPE_SELECTOR then
                 Ok (VString "{} not supported yet", g)
               else if String.eqb s "_len" then Ok (VInt (Len node), g)
               else if String.eqb s TYPE_GROUP then
                 match n with
                 | None => Panic NilDeref
                 | Some (mkGraph _ []) => Panic IndexOutOfRange
                 | Some (mkGraph _ (None :: _)) => Panic NilDeref
                 | Some (mkGraph _ (Some e :: _)) =>
                     '(itf, g1) <- ev g e ;;
                     let str := _string itf in
                     if Z.of_nat (String.length str) =? 0 then Ok (VNil, g1)
                     else field str g1
                 end
               else field s g
           end) pout 0%nat g (Some start) false
  end.

(** [Eval] (lines 18-32), with the evaluator of expressions as a
    parameter. *)
Definition Eval_with (ev : Graph -> Graph -> outcome (value * Graph))
    (g : Graph) (e : option Graph) : outcome (value * Graph) :=
  let es := String_ e in
  if String.eqb es TYPE_PATH then
    match e with
    | None => Panic NilDeref
    | Some e' => EvalPath_with ev g e'
    end
  else if String.eqb es TYPE_EXPRESSION then
    match e with
    | None => Panic NilDeref
    | Some e' => ev g e'
    end
  else if negb (Len e =? 0) then Ok (VPtr e, g)
  else Ok (Scalar e, g).

(** [EvalBool] (lines 36-39). *)
Definition EvalBool_with (ev : Graph -> Graph -> outcome (value * Graph))
    (g : Graph) (e : option Graph) : outcome (bool * Graph) :=
  '(v, g1) <- Eval_with ev g e ;;
  Ok (fst (_boolf v), g1).

(** [evalBinary] (lines 196-249): the right operand [p.Out[1]] is
    evaluated first; the left operand [p.Out[0]] is evaluated inside the
    case that needs its value and is handed over as a node to [assign]. *)
Definition evalBinary_with (ev : Graph -> Graph -> outcome (value * Graph))
    (g : Graph) (p : Graph) : outcome (value * Graph) :=
  match p with
  | mkGraph _ out =>
      match out with
      | [] => Panic IndexOutOfRange
      | [_] => Panic IndexOutOfRange
      | n1 :: None :: _ => Panic NilDeref
      | n1 :: Some n2 :: _ =>
          '(i2, g1) <- ev g n2 ;;
          let left (k : value -> outcome value) :=
            match n1 with
            | None => Panic NilDeref
            | Some e1 =>
                '(v1, g2) <- ev g1 e1 ;;
                r <- k v1 ;;
                Ok (r, g2)
            end in
          let os := String_ (Some p) in
          if String.eqb os "+" then left (fun v1 => calc v1 i2 op_add)
          else if String.eqb os "-" then left (fun v1 => calc v1 i2 op_sub)
          else if String.eqb os "*" then left (fun v1 => calc v1 i2 op_mul)
          else if String.eqb os "/" then left (fun v1 => calc v1 i2 op_div)
          else if String.eqb os "%" then left (fun v1 => calc v1 i2 op_mod)
          else if String.eqb os "=" then assign g1 n1 i2 op_eq
          else if String.eqb os "+=" then assign g1 n1 i2 op_add
          else if String.eqb os "-=" then assign g1 n1 i2 op_sub
          else if String.eqb os "*=" then assign g1 n1 i2 op_mul
          else if String.eqb os "/=" then assign g1 n1 i2 op_div
          else if String.eqb os "%=" then assign g1 n1 i2 op_mod
          else if String.eqb os "==" then left (fun v1 => Ok (VBool (compare v1 i2 op_eq)))
          else if String.eqb os ">=" then left (fun v1 => Ok (VBool (compare v1 i2 op_add)))
          else if String.eqb os "<=" then left (fun v1 => Ok (VBool (compare v1 i2 op_sub)))
          else if String.eqb os "!=" then left (fun v1 => Ok (VBool (compare v1 i2 op_not)))
          else if String.eqb os ">" then left (fun v1 => Ok (VBool (compare v1 i2 op_gt)))
          else if String.eqb os "<" then left (fun v1 => Ok (VBool (compare v1 i2 op_lt)))
          else if String.eqb os "&&" then left (fun v1 => Ok (VBool (logic v1 i2 op_and)))
          else if String.eqb os "||" then left (fun v1 => Ok (VBool (logic v1 i2 op_or)))
          else Ok (VNil, g1)
      end
  end.

(** [EvalExpression] (lines 137-194): one structural recursion on the
    expression node.  The context graph is threaded through every call. *)
Fixpoint EvalExpression (g : Graph) (p : Graph) {struct p} : outcome (value * Graph) :=
  match p with
  | mkGraph this out =>
      match this with
      | VNil => Ok (VNil, g)
      | _ =>
          let s := String_ (Some p) in
          if Z.of_nat (String.length s) =? 0 then Ok (VString "", g)
          else if isNumber s then Ok (Number p, g)
          else if String.eqb s "!" then
            match out with
            | [] => Panic IndexOutOfRange
            | e :: _ =>
                '(b, g1) <- EvalBool_with EvalExpression g e ;;
                Ok (VBool (negb b), g1)
            end
          else if String.eqb s TYPE_EXPRESSION then
            match out with
            | Some e :: _ => EvalExpression g e
            | _ => Panic NilDeref
            end
          else if String.eqb s TYPE_PATH then EvalPath_with EvalExpression g p
          else if String.eqb s TYPE_GROUP then
            (fix range (exprs : list (option Graph)) (g : Graph) (r : Graph)
                       {struct exprs} : outcome (value * Graph) :=
               match exprs with
               | [] => Ok (VPtr (Some r), g)
               | None :: _ => Panic NilDeref
               | Some expr :: rest =>
                   '(v, g1) <- EvalExpression g expr ;;
                   range rest g1 (fst (Add r v))
               end) out g (NewGraph TYPE_GROUP)
          else
            let c := first_byte s in
            if IsOperatorChar c then evalBinary_with EvalExpression g p
            else if (c =? 34) || (c =? 39) then Ok (VString s, g)
            else if IsLetter c then
              if String.eqb s "false" then Ok (VBool false, g)
              else if String.eqb s "true" then Ok (VBool true, g)
              else Ok (VString s, g)
            else Ok (VPtr (Some p), g)
      end
  end.

Definition EvalPath : Graph -> Graph -> outcome (value * Graph) :=
  EvalPath_with EvalExpression.
Definition Eval : Graph -> option Graph -> outcome (value * Graph) :=
  Eval_with EvalExpression.
Definition EvalBool : Graph -> option Graph -> outcome (bool * Graph) :=
  EvalBool_with EvalExpression.
Definition evalBinary : Graph -> Graph -> outcome (value * Graph) :=
  evalBinary_with EvalExpression.

End EvalOps.

(** ** A reference instance of the helpers

    The examples below need the helpers at concrete values.  This
    instance reads scalars the way the conversion library is described:
    strings as themselves, integers in decimal, booleans by name; the
    reserved tags are those of the path and expression parser. *)
Module Ref.

Definition string_of (v : value) : string :=
  match v with
  | VNil => ""
  | VBool true => "true"
  | VBool false => "false"
  | VInt n | VInt64 n => pretty n
  | VString s => s
  | VBytes b => string_of_list_byte b
  | _ => ""
  end.

Definition this_string (g : option Graph) : string :=
  match g with
  | Some g => string_of (This g)
  | None => ""
  end.

Definition boolf (v : value) : bool * bool :=
  match v with
  | VBool b => (b, true)
  | VString "true" => (true, true)
  | VString "false" => (false, true)
  | _ => (false, false)
  end.

Definition int64_of (v : value) : Z * bool :=
  match v with
  | VInt n | VInt64 n => (n, true)
  | _ => (0, false)
  end.

Definition int64f_of (v : value) : Z * bool :=
  match v with
  | VInt n | VInt64 n => (n, true)
  | VFloat64 f => (int_of_float64 f, true)
  | VString s => match Atoi s with Some n => (n, true) | None => (0, false) end
  | _ => (0, false)
  end.

Definition float64_of (v : value) : float * bool :=
  match v with
  | VFloat64 f => (f, true)
  | _ => (0%float, false)
  end.

Definition float64f_of (v : value) : float * bool :=
  match v with
  | VFloat64 f => (f, true)
  | VInt n | VInt64 n => (float64_of_int n, true)
  | _ => (0%float, false)
  end.

Definition node_int64 (g : option Graph) : Z :=
  match g with
  | Some (mkGraph _ (Some c :: _)) => fst (int64f_of (This c))
  | _ => 0
  end.

Definition scalar (g : option Graph) : value :=
  match g with
  | Some g => This g
  | None => VNil
  end.

(** Integer literals, with an optional minus sign. *)
Definition is_number (s : string) : bool :=
  match s with
  | String "+"%char _ => false
  | _ => match Atoi s with Some _ => true | None => false end
  end.

Definition number (g : Graph) : value :=
  match Atoi (string_of (This g)) with
  | Some n => VInt64 n
  | None => VNil
  end.

Definition is_operator_char (c : Z) : bool :=
  existsb (Z.eqb c) [43; 45; 42; 47; 37; 38; 124; 33; 60; 62; 61; 126; 94].

Definition is_letter (c : Z) : bool :=
  ((65 <=? c) && (c <=? 90)) || ((97 <=? c) && (c <=? 122)) || (c =? 95).

#[export] Instance helpers : Helpers := {|
  _string := string_of;
  _boolf := boolf;
  _int64 := int64_of;
  _int64f := int64f_of;
  _float64 := float64_of;
  _float64f := float64f_of;
  ThisString := this_string;
  String_ := this_string;
  Int64 := node_int64;
  Scalar := scalar;
  Number := number;
  isNumber := is_number;
  IsOperatorChar := is_operator_char;
  IsLetter := is_letter;
  Function := fun _ _ _ _ => VNil;
  TypeIndex := "!i";
  TypeSelector := "!s";
  TYPE_PATH := "!p";
  TYPE_EXPRESSION := "!e";
  TYPE_INDEX := "!i";
  TYPE_SELECTOR := "!s";
  TYPE_GROUP := "!g"
|}.

(** Building blocks of the examples: a named node, a scalar leaf, a
    path of field names, an index element, a selector element. *)
Definition str (s : string) : Graph := leaf (VString s).
Definition named (s : string) (children : list Graph) : Graph :=
  mkGraph (VString s) (map Some children).
Definition root (children : list Graph) : Graph :=
  mkGraph VNil (map Some children).
Definition path (elems : list Graph) : Graph := named "!p" elems.
Definition index (n : string) : Graph := named "!i" [str n].
Definition selector (n : list string) : Graph := named "!s" (map str n).
Definition leaf_int (n : Z) : Graph := leaf (VInt64 n).

End Ref.

(** ** The arithmetic ladder as the specification words it *)

(** The five arithmetic operators and their rune codes. *)
Inductive arith : Type := Plus | Minus | Times | Quot | Rem.

Definition code (o : arith) : Z :=
  match o with
  | Plus => op_add
  | Minus => op_sub
  | Times => op_mul
  | Quot => op_div
  | Rem => op_mod
  end.

(** "Integer arithmetic" on two 64-bit integers. *)
Definition int64_arith (o : arith) (a b : Z) : outcome value :=
  match o with
  | Plus => Ok (VInt64 (add64 a b))
  | Minus => Ok (VInt64 (sub64 a b))
  | Times => Ok (VInt64 (mul64 a b))
  | Quot => VInt64_of (div64 a b)
  | Rem => VInt64_of (rem64 a b)
  end.

(** "Float arithmetic" on two floats, for the four operators that have it. *)
Definition float64_arith (o : arith) (x y : float) : option value :=
  match o with
  | Plus => Some (VFloat64 (x + y)%float)
  | Minus => Some (VFloat64 (x - y)%float)
  | Times => Some (VFloat64 (x * y)%float)
  | Quot => Some (VFloat64 (x / y)%float)
  | Rem => None
  end.

(** The operands [calc] treats as numbers. *)
Definition numeric (v : value) : bool :=
  match v with
  | VInt64 _ | VFloat64 _ => true
  | _ => false
  end.

(** The ladder of the specification, case by case. *)
Definition ladder {H : Helpers} (v1 v2 : value) (o : arith) : outcome value :=
  match v1, v2 with
  | VInt64 a, VInt64 b => int64_arith o a b
  | VFloat64 x, VFloat64 y =>
      match float64_arith o x y with
      | Some r => Ok r
      | None => VInt_of (rem64 (int_of_float64 x) (int_of_float64 y))
      end
  | VInt64 a, VFloat64 y =>
      match float64_arith o (float64_of_int a) y with
      | Some r => Ok r
      | None => VInt64_of (rem64 a (int_of_float64 y))
      end
  | VFloat64 x, VInt64 b =>
      match float64_arith o x (float64_of_int b) with
      | Some r => Ok r
      | None => VInt64_of (rem64 (int_of_float64 x) b)
      end
  | _, _ =>
      match o with
      | Plus => Ok (VString (_string v1 ++ _string v2))
      | _ => Ok VNil
      end
  end.

(** ** Example graphs *)

(** A chain of [n] edges below a transparent root. *)
Fixpoint chain (n : nat) : Graph :=
  match n with
  | O => mkGraph VNil []
  | S k => mkGraph VNil [Some (chain k)]
  end.

(** ** Predicates of the statements *)

(** What a terminal write of [v] leaves as the children of the node it
    reaches: what [Add] makes of [v] in a node without children. *)
Definition written (v : value) : list (option Graph) :=
  Out (fst (Add (mkGraph VNil []) v)).

(** Composing the child slots of a node one by one, in order. *)
Definition add_each (n : Graph) (slots : list (option Graph)) : Graph :=
  fold_left (fun acc c => fst (Add acc (VPtr c))) slots n.

(** A child slot that holds a node with content. *)
Definition solid (s : option Graph) : Prop :=
  exists c, s = Some c /\ IsNil c = false.

(** A path element that is a plain field name: a node whose content is
    a scalar, read the same by [ThisString] and [_string], and is none
    of the tags the path engine treats specially. *)
Definition field_elem {H : Helpers} (e : option Graph) : Prop :=
  exists e', e = Some e' /\
    ThisString e <> TypeIndex /\ ThisString e <> TypeSelector /\ ThisString e <> "_len" /\
    ThisString e = _string (This e') /\
    (forall h, This e' <> VPtr (Some h)).

(** The children of every slot of [out] whose content reads as [x], in
    order: what the selector [{}] collects. *)
Definition sibling_values {H : Helpers} (x : string) (out : list (option Graph))
    : list (option Graph) :=
  flat_map (fun s => match s with
                     | Some c => if String.eqb x (_string (This c)) then Out c else []
                     | None => []
                     end) out.

(** The slots of [out] named [x], in order: what [{N}] counts. *)
Definition same_named {H : Helpers} (x : string) (out : list (option Graph))
    : list (option Graph) :=
  List.filter (fun s => String.eqb (ThisString s) x) out.

(** Expression nodes of the examples (module [Ref] has the path nodes). *)
Definition binop (os : string) (l r : Graph) : Graph := Ref.named os [l; r].
Definition var (x : string) : Graph := Ref.path [Ref.str x].

(** Contents that [==] can compare: anything but a slice. *)
Definition comparable_content (v : value) : bool :=
  match v with
  | VBytes _ | VSlice _ => false
  | _ => true
  end.

(** No node below [g] has a slice as content. *)
Fixpoint comparable (g : Graph) : bool :=
  match g with
  | mkGraph t out =>
      comparable_content t &&
      forallb (fun s => match s with Some n => comparable n | None => true end) out
  end.

(** A path element [set] can process: not a nil slot, and when it is an
    index element its index is in the range a slice can be grown to
    (below [MaxSlots]). *)
Definition set_elem {H : Helpers} (e : option Graph) : Prop :=
  e <> None /\ (ThisString e = TypeIndex -> 0 <= Int64 e < MaxSlots).

(** ** Depth on shared structure

    The tree embedding cannot hold a node that is its own descendant.
    For [Depth] alone the nodes are put in a store: an address maps to
    the addresses of its children (an address outside the store is the
    nil pointer).  Recursion through the store is bounded by a call
    budget; [None] says that the budget ran out before the call
    returned. *)
Module Shared.

Definition store : Type := gmap nat (list nat).

Fixpoint Depth_range (D : nat -> option (outcome Z)) (ns : list nat) (i : Z)
    {struct ns} : option (outcome Z) :=
  match ns with
  | [] => Some (Ok i)
  | n :: rest =>
      match D n with
      | None => None
      | Some (Panic e) => Some (Panic e)
      | Some (Ok j) => Depth_range D rest (if j >? i then j else i)
      end
  end.

Fixpoint Depth (budget : nat) (st : store) (a : nat) {struct budget}
    : option (outcome Z) :=
  match budget with
  | O => None
  | S budget' =>
      match st !! a with
      | None => Some (Panic NilDeref)
      | Some out =>
          if Z.of_nat (length out) =? 0 then Some (Ok 0)
          else
            match Depth_range (Depth budget' st) out 0 with
            | Some (Ok i) => if i >? 100 then Some (Ok (-1)) else Some (Ok (i + 1))
            | r => r
            end
      end
  end.

(** One node whose only child is the node itself. *)
Definition self_loop : store := {[ 0%nat := [0%nat] ]}.

(** A node with two leaves, one of them below a third node. *)
Definition small_tree : store :=
  {[ 0%nat := [1%nat; 2%nat]; 1%nat := [3%nat]; 2%nat := []; 3%nat := [] ]}.

End Shared.

(** ** More of the graph source *)

(** The [range] loop of [Copy]; [C] is [Copy] itself, the receiver is
    threaded through.  [Add] returns its argument when the content
    [n.This] is a node: the copies of the children then go into that
    node, which is the new child when it has content and is detached
    from the receiver when it is transparent (its children were
    appended beforehand). *)
Fixpoint Copy_range (C : Graph -> Graph -> outcome Graph)
    (ns : list (option Graph)) (g : Graph) {struct ns} : outcome Graph :=
  match ns with
  | [] => Ok g
  | None :: _ => Panic NilDeref
  | Some n :: rest =>
      g1 <- match This n with
            | VPtr (Some h) =>
                h' <- C h n ;;
                if IsNil h
                then Ok (mkGraph (This g) (Out g ++ Out h))
                else Ok (mkGraph (This g) (Out g ++ [Some h']))
            | v =>
                gg' <- C (mkGraph v []) n ;;
                Ok (mkGraph (This g) (Out g ++ [Some gg']))
            end ;;
      Copy_range C rest g1
  end.

(** [Copy] (lines 149-154): for every child of [c], add its content to
    the receiver and copy the child's children below the node added.
    The result is the updated receiver. *)
Fixpoint Copy (g c : Graph) {struct c} : outcome Graph :=
  match c with
  | mkGraph _ cout => Copy_range (fun h n => Copy h n) cout g
  end.

(** The loop of [Delete]: [kept] is [g.Out[:i]], [rest] is [g.Out[i:]]. *)
Fixpoint Delete_loop (same_addr : Graph -> Graph -> bool) (n : value)
    (kept rest : list (option Graph)) {struct rest} : outcome (list (option Graph)) :=
  match rest with
  | [] => Ok kept
  | None :: _ => Panic NilDeref
  | Some c :: rest' =>
      e <- iface_eq same_addr (This c) n ;;
      if e then Delete_loop same_addr n kept rest'
      else Delete_loop same_addr n (kept ++ [Some c]) rest'
  end.

(** [Delete] (lines 319-326): remove every child whose content [==] the
    given value. *)
Definition Delete (same_addr : Graph -> Graph -> bool) (g : Graph) (n : value)
    : outcome Graph :=
  out <- Delete_loop same_addr n [] (Out g) ;;
  Ok (mkGraph (This g) out).

(** [DeleteAt] (lines 329-334): remove the child slot at [i]; nothing
    happens when [i] is out of range. *)
Definition DeleteAt (g : Graph) (i : Z) : Graph :=
  if (i <? 0) || (Len (Some g) <=? i) then g
  else mkGraph (This g) (take (Z.to_nat i) (Out g) ++ drop (S (Z.to_nat i)) (Out g)).

Section MoreGraphOps.

Context {H : Helpers}.

(** The [range] loop of [Substitute]; [S] is [Substitute] itself.  The
    source sets the content of a child and then descends into it; the
    descent does not read the content, so the model descends first. *)
Fixpoint Substitute_range (S : Graph -> outcome Graph) (s : string) (v : value)
    (ns : list (option Graph)) {struct ns} : outcome (list (option Graph)) :=
  match ns with
  | [] => Ok []
  | None :: _ => Panic NilDeref
  | Some n :: rest =>
      n' <- S n ;;
      rest' <- Substitute_range S s v rest ;;
      Ok (Some (mkGraph (if String.eqb (_string (This n)) s then v else This n) (Out n'))
            :: rest')
  end.

(** [Substitute] (lines 573-580): every node below the receiver whose
    content reads as [s] gets the content [v]. *)
Fixpoint Substitute (g : Graph) (s : string) (v : value) {struct g} : outcome Graph :=
  match g with
  | mkGraph t out =>
      out' <- Substitute_range (fun n => Substitute n s v) s v out ;;
      Ok (mkGraph t out')
  end.

End MoreGraphOps.

(** ** Predicates of the further statements *)

(** A content that is not a pointer to a node. *)
Definition node_free (v : value) : bool :=
  match v with
  | VPtr (Some _) => false
  | _ => true
  end.

(** No content below the root of [g] is a pointer to a node. *)
Fixpoint scalar_below (g : Graph) : bool :=
  match g with
  | mkGraph _ out =>
      forallb (fun s => match s with
                        | Some n => node_free (This n) && scalar_below n
                        | None => true
                        end) out
  end.

(** Contents on which [==] is equality of the values: nil, booleans,
    integers and strings (floats have [NaN] and the two zeros, pointers
    compare by address, slices cannot be compared). *)
Definition discrete (v : value) : bool :=
  match v with
  | VNil | VBool _ | VInt _ | VInt64 _ | VString _ => true
  | _ => false
  end.

(** Every content of [g], the root's included, satisfies [P]. *)
Fixpoint all_contents (P : value -> bool) (g : Graph) : bool :=
  match g with
  | mkGraph t out =>
      P t && forallb (fun s => match s with
                               | Some n => all_contents P n
                               | None => true
                               end) out
  end.

(** The child slot survives [Delete]: it holds a node whose content is
    not [==] to [n]. *)
Definition content_differs (same_addr : Graph -> Graph -> bool) (n : value)
    (s : option Graph) : bool :=
  match s with
  | Some c =>
      match iface_eq same_addr (This c) n with
      | Ok false => true
      | _ => false
      end
  | None => false
  end.

(** The tree with every content erased. *)
Fixpoint shape (g : Graph) : Graph :=
  match g with
  | mkGraph _ out =>
      mkGraph VNil (map (fun s => match s with
                                  | Some n => Some (shape n)
                                  | None => None
                                  end) out)
  end.

(** Some node below the root of [g] has a content that reads as [s]. *)
Fixpoint reads_below {H : Helpers} (s : string) (g : Graph) : bool :=
  match g with
  | mkGraph _ out =>
      existsb (fun slot => match slot with
                           | Some n => String.eqb (_string (This n)) s || reads_below s n
                           | None => false
                           end) out
  end.

(** Two paths that part ways: after a (possibly empty) run of elements
    with the same names, the next two elements have different names. *)
Inductive diverge {H : Helpers} : list (option Graph) -> list (option Graph) -> Prop :=
| diverge_here a p b q :
    ThisString a <> ThisString b -> diverge (a :: p) (b :: q)
| diverge_later a p b q :
    ThisString a = ThisString b -> diverge p q -> diverge (a :: p) (b :: q).

(** ** The loop of [EvalPath] by name *)

(** The [for] loop of [EvalPath] (lines 65-117) as a function of its own,
    with the same body as in [EvalPath_with]; [EvalPath_with_loop] below
    shows that [EvalPath_with] runs this loop. *)
Section EvalPathLoop.

Context {H : Helpers}.
Variable ev : Graph -> Graph -> outcome (value * Graph).
Variable p : Graph.

Fixpoint EvalPath_loop (elems : list (option Graph)) (i : nat) (g : Graph)
    (node : option Graph) (iknow : bool) {struct elems} : outcome (value * Graph) :=
  match elems with
  | [] => Ok (EvalPath_finish node iknow, g)
  | n :: rest =>
      let s := String_ n in
      let field (s : string) (g : Graph) :=
        match node with
        | None => Panic NilDeref
        | Some nd =>
            nn <- Node nd s ;;
            match nn with
            | None => Ok (Function nd p i g, g)
            | Some nn' => EvalPath_loop rest (S i) g (Some nn') true
            end
        end in
      if String.eqb s TYPE_INDEX then
        if Len n =? 0 then Ok (VString "empty []", g)
        else
          match n with
          | None => Panic NilDeref
          | Some (mkGraph _ []) => Panic IndexOutOfRange
          | Some (mkGraph _ (None :: _)) => Panic NilDeref
          | Some (mkGraph _ (Some e :: _)) =>
              '(itf, g1) <- ev g e ;;
              let '(ix, ok) := _int64 itf in
              if negb ok || (ix <? 0) || (Len node <=? ix)
              then Ok (VString "[] does not evaluate to a valid integer", g1)
              else
                match node with
                | None => Panic NilDeref
                | Some nd => EvalPath_loop rest (S i) g1 (GetAt nd ix) false
                end
          end
      else if String.eqb s TYPE_SELECTOR then
        Ok (VString "{} not supported yet", g)
      else if String.eqb s "_len" then Ok (VInt (Len node), g)
      else if String.eqb s TYPE_GROUP then
        match n with
        | None => Panic NilDeref
        | Some (mkGraph _ []) => Panic IndexOutOfRange
        | Some (mkGraph _ (None :: _)) => Panic NilDeref
        | Some (mkGraph _ (Some e :: _)) =>
            '(itf, g1) <- ev g e ;;
            let str := _string itf in
            if Z.of_nat (String.length str) =? 0 then Ok (VNil, g1)
            else field str g1
        end
      else field s g
  end.

End EvalPathLoop.

(** The strings that [evalBinary] hands to [assign]. *)
Definition is_assign_op (s : string) : bool :=
  existsb (String.eqb s) ["="; "+="; "-="; "*="; "/="; "%="].

(** No node of the expression tree is an assignment operator. *)
Fixpoint no_assign {H : Helpers} (p : Graph) : bool :=
  match p with
  | mkGraph t out =>
      negb (is_assign_op (String_ (Some (mkGraph t out)))) &&
      forallb (fun s => match s with Some n => no_assign n | None => true end) out
  end.

(** A path element that [EvalPath] treats as a field name and reads
    like [get] does. *)
Definition eval_field {H : Helpers} (e : option Graph) : Prop :=
  field_elem e /\ String_ e = ThisString e /\
  String_ e <> TYPE_INDEX /\ String_ e <> TYPE_SELECTOR /\
  String_ e <> "_len" /\ String_ e <> TYPE_GROUP.

(** The number of nodes of a tree. *)
Fixpoint size (g : Graph) : nat :=
  match g with
  | mkGraph _ out =>
      S (fold_right (fun s acc => match s with Some n => (size n + acc)%nat | None => acc end)
                    0%nat out)
  end.

(** ** The text emitter (graph source, lines 420-569) *)

(** Bytes the emitter looks for. *)
Definition LF : ascii := "010"%char.
Definition CR : ascii := "013"%char.
Definition DQUOTE : ascii := "034"%char.
Definition BACKSLASH : ascii := "092"%char.

Fixpoint str_existsb (f : ascii -> bool) (s : string) : bool :=
  match s with
  | EmptyString => false
  | String c s' => f c || str_existsb f s'
  end.

(** The test of [strings.IndexAny]: the text holds a newline, a carriage
    return, a space, a tab, a single or double quote, a comma or a
    parenthesis. *)
Definition has_special (s : string) : bool :=
  str_existsb (fun c => existsb (Ascii.eqb c)
                 [LF; CR; " "%char; "009"%char; "039"%char; DQUOTE; ","%char;
                  "("%char; ")"%char]) s.

(** [sp]: two spaces per level, none for a level at or below zero. *)
Fixpoint spaces_nat (n : nat) : string :=
  match n with
  | O => EmptyString
  | S k => String " " (String " " (spaces_nat k))
  end.

Definition spaces (n : Z) : string := spaces_nat (Z.to_nat n).

(** [sp[:len(sp)-1]]. *)
Definition but_last (s : string) : string :=
  String.substring 0 (String.length s - 1) s.

(** The byte loop of the quoted branch: carriage returns are skipped
    (and are not remembered as the previous byte), a newline is followed
    by the indentation, and below level zero a double quote is written
    escaped unless the previous byte was a backslash, in which case it
    is not written. *)
Fixpoint quote_loop (deep : bool) (sp : string) (cp : ascii) (s : string) : string :=
  match s with
  | EmptyString => EmptyString
  | String c s' =>
      if Ascii.eqb c CR then quote_loop deep sp cp s'
      else if Ascii.eqb c LF then String LF (sp ++ quote_loop deep sp c s')%string
      else if Ascii.eqb c DQUOTE && deep then
        ((if negb (Ascii.eqb cp BACKSLASH)
          then String BACKSLASH (String DQUOTE EmptyString) else EmptyString)
         ++ quote_loop deep sp c s')%string
      else String c (quote_loop deep sp c s')
  end.

(** What [_text] writes for the node itself, given the node's text [s],
    and the level its children are printed from ([n], or [n-1] when
    nothing is printed for an empty text). *)
Definition text_head (n : Z) (s : string) (show : bool) : string * Z :=
  let sp := spaces n in
  if has_special s then
    let deep := n >? 0 in
    let opening :=
      if deep then String.append (but_last sp) (String DQUOTE EmptyString)
      else EmptyString in
    let closing := if deep then String DQUOTE EmptyString else EmptyString in
    ((opening ++ quote_loop deep sp "000"%char s ++ closing ++ String LF EmptyString)%string,
     n)
  else if (Z.of_nat (String.length s) =? 0) && negb show then (EmptyString, n - 1)
  else
    let shown := if (Z.of_nat (String.length s) =? 0) && show then "_"%string else s in
    ((sp ++ shown ++ String LF EmptyString)%string, n).

(** The loop over the children in [_text]; [T] is [_text] itself.  A nil
    child is printed as an underscore and has no children. *)
Fixpoint text_children (T : Z -> Graph -> string) (n : Z) (show : bool)
    (out : list (option Graph)) {struct out} : string :=
  match out with
  | [] => EmptyString
  | Some c :: rest => (T n c ++ text_children T n show rest)%string
  | None :: rest => (fst (text_head n "_" show) ++ text_children T n show rest)%string
  end.

(** The call of [strings.Replace]: every backslash followed by a double
    quote becomes the double quote. *)
Fixpoint unescape_quotes (s : string) : string :=
  match s with
  | EmptyString => EmptyString
  | String c s' =>
      match s' with
      | String d s'' =>
          if Ascii.eqb c BACKSLASH && Ascii.eqb d DQUOTE
          then String DQUOTE (unescape_quotes s'')
          else String c (unescape_quotes s')
      | EmptyString => String c EmptyString
      end
  end.

Fixpoint last_byte (s : string) : option ascii :=
  match s with
  | EmptyString => None
  | String c EmptyString => Some c
  | String _ s' => last_byte s'
  end.

(** The end of [Text] and of [Show]: an empty buffer is returned as it
    is; one trailing newline is cut; then [s[0]] is read, which is out
    of range when nothing is left, and when it is a double quote the
    first and the last byte are cut ([s[1:len(s)-1]], out of range for
    a single byte) and the escaped quotes are unescaped. *)
Definition text_finish (s : string) : outcome string :=
  if Z.of_nat (String.length s) =? 0 then Ok EmptyString
  else
    let s1 := match last_byte s with
              | Some c => if Ascii.eqb c LF then but_last s else s
              | None => s
              end in
    match s1 with
    | EmptyString => Panic IndexOutOfRange
    | String c _ =>
        if Ascii.eqb c DQUOTE then
          if (String.length s1 <? 2)%nat then Panic IndexOutOfRange
          else Ok (unescape_quotes (String.substring 1 (String.length s1 - 2) s1))
        else Ok s1
    end.

Section Emitter.

Context {H : Helpers}.

(** [_text] (lines 491-569): the text written to the buffer for the
    node at level [n] and for everything below it. *)
Fixpoint _text (n : Z) (g : Graph) (show : bool) {struct g} : string :=
  match g with
  | mkGraph t out =>
      (fst (text_head n (_string t) show)
       ++ text_children (fun m c => _text m c show)
            (snd (text_head n (_string t) show) + 1) show out)%string
  end.

(** [Text] (lines 420-453): the children of the receiver from level
    zero, the receiver itself not printed. *)
Definition Text (g : option Graph) : outcome string :=
  match g with
  | None => Ok EmptyString
  | Some g => text_finish (text_children (fun m c => _text m c false) 0 false (Out g))
  end.

(** [Show] (lines 456-486): the receiver itself from level zero. *)
Definition Show (g : option Graph) : outcome string :=
  match g with
  | None => Ok EmptyString
  | Some g => text_finish (_text 0 g true)
  end.

End Emitter.

(** The text holds no carriage return. *)
Definition no_cr (s : string) : bool := negb (str_existsb (Ascii.eqb CR) s).

(** The text is empty or its last byte is a newline. *)
Definition ends_with_newline (s : string) : bool :=
  match last_byte s with
  | Some c => Ascii.eqb c LF
  | None => true
  end.

(** A text made of carriage returns only, at least one. *)
Fixpoint only_cr (s : string) : bool :=
  match s with
  | EmptyString => false
  | String c EmptyString => Ascii.eqb c CR
  | String c s' => Ascii.eqb c CR && only_cr s'
  end.

(** A word the emitter prints as it is: not empty and without any of the
    bytes that make it quote. *)
Definition plain_word (s : string) : bool :=
  negb (Z.of_nat (String.length s) =? 0) && negb (has_special s).

(** The listing of a tree: one line per node, the text of the node after
    two spaces per level. *)
Fixpoint listing {H : Helpers} (n : nat) (g : Graph) : string :=
  match g with
  | mkGraph t out =>
      String.append (spaces_nat n)
        (String.append (_string t)
           (String LF
              (fold_right
                 (fun s acc => match s with
                               | Some c => String.append (listing (S n) c) acc
                               | None => acc
                               end)
                 EmptyString out)))
  end.

(** Every content of [g] reads as a plain word. *)
Definition plain_tree {H : Helpers} (g : Graph) : bool :=
  all_contents (fun v => plain_word (_string v)) g.

(** The evaluator [ev] returns the context it was given, on the
    expression [e]. *)
Definition frame_at (ev : Graph -> Graph -> outcome (value * Graph)) (e : Graph) : Prop :=
  forall g v g', ev g e = Ok (v, g') -> g' = g.

(** [below g d]: the node [d] is a child of [g] or of a node below [g]. *)
Inductive below : Graph -> Graph -> Prop :=
| below_child g d : In (Some d) (Out g) -> below g d
| below_deeper g c d : In (Some c) (Out g) -> below c d -> below g d.

(** The slots [addEqualNodes] appends with recursion, in the order of
    the walk: for each child in turn its own children when its text is
    the key, then what the walk below that child appends. *)
Fixpoint gathered {H : Helpers} (key : string) (g2 : Graph) : list (option Graph) :=
  match g2 with
  | mkGraph _ out =>
      flat_map (fun s => match s with
                         | Some n =>
                             (if String.eqb key (_string (This n)) then Out n else [])
                             ++ gathered key n
                         | None => []
                         end) out
  end.

(** * Theorems *)

(** Induction over the children structure (contents are not traversed). *)
Lemma Graph_children_ind (P : Graph -> Prop)
    (step : forall t out,
        Forall (fun s => forall n, s = Some n -> P n) out -> P (mkGraph t out)) :
  forall g, P g.
Proof.
  fix IH 1. intros [t out]. apply step.
  induction out as [|s l IHl].
  - constructor.
  - constructor; [|exact IHl].
    destruct s as [m|]; intros n E; [injection E as <-; apply IH | discriminate].
Qed.

(** ** calc *)

Section CalcFacts.

Context {H : Helpers}.

Lemma calc_int_int a b o :
  calc (VInt64 a) (VInt64 b) (code o) = int64_arith o a b.
Proof. destruct o; reflexivity. Qed.

Lemma calc_float_float x y o :
  calc (VFloat64 x) (VFloat64 y) (code o) =
  match float64_arith o x y with
  | Some r => Ok r
  | None => VInt_of (rem64 (int_of_float64 x) (int_of_float64 y))
  end.
Proof. destruct o; reflexivity. Qed.

Lemma calc_int_float a y o :
  calc (VInt64 a) (VFloat64 y) (code o) =
  match float64_arith o (float64_of_int a) y with
  | Some r => Ok r
  | None => VInt64_of (rem64 a (int_of_float64 y))
  end.
Proof. destruct o; reflexivity. Qed.

Lemma calc_float_int x b o :
  calc (VFloat64 x) (VInt64 b) (code o) =
  match float64_arith o x (float64_of_int b) with
  | Some r => Ok r
  | None => VInt64_of (rem64 (int_of_float64 x) b)
  end.
Proof. destruct o; reflexivity. Qed.

Lemma calc_non_numeric v1 v2 o :
  numeric v1 = false -> numeric v2 = false ->
  calc v1 v2 (code o) =
  match o with
  | Plus => Ok (VString (_string v1 ++ _string v2))
  | _ => Ok VNil
  end.
Proof.
  intros N1 N2.
  destruct v1; try discriminate N1; destruct v2; try discriminate N2;
    destruct o; reflexivity.
Qed.

(** A non-numeric operand on either side sends every operator to the
    non-numeric tail. *)
Lemma calc_one_non_numeric v1 v2 op :
  numeric v1 = false \/ numeric v2 = false ->
  calc v1 v2 op =
  if negb (op =? op_add) then Ok VNil
  else Ok (VString (_string v1 ++ _string v2)).
Proof.
  intros [N|N].
  - destruct v1; try discriminate N; destruct v2; reflexivity.
  - destruct v2; try discriminate N; destruct v1; reflexivity.
Qed.

End CalcFacts.

(** C2. For the five arithmetic operators [calc] is the promotion ladder:
    two 64-bit integers give integer arithmetic (wrap-around sum,
    difference and product, truncated quotient and remainder, a zero
    divisor being the run-time panic of integer division); two floats
    give float arithmetic, [%] the remainder of their integer parts; one
    integer and one float promote the integer, [%] truncating the float
    and taking the 64-bit remainder; two operands that are neither give
    the concatenation of their strings for [+] and nil otherwise.  In
    particular [3 + 2.5 = 5.5] and [7 % 2 = 1]. *)
Theorem calc_promotion_ladder {H : Helpers} :
  (forall v1 v2 o,
      numeric v1 = numeric v2 -> calc v1 v2 (code o) = ladder v1 v2 o) /\
  (forall a b o, calc (VInt64 a) (VInt64 b) (code o) = int64_arith o a b) /\
  calc (VInt64 3) (VFloat64 2.5) (code Plus) = Ok (VFloat64 5.5) /\
  calc (VInt64 7) (VInt64 2) (code Rem) = Ok (VInt64 1).
Proof.
  split; [|split; [|split]].
  - intros v1 v2 o Hn.
    destruct (numeric v1) eqn:N1, (numeric v2) eqn:N2; try discriminate Hn.
    + destruct v1; try discriminate N1; destruct v2; try discriminate N2; cbn [ladder].
      * apply calc_int_int.
      * apply calc_int_float.
      * apply calc_float_int.
      * apply calc_float_float.
    + rewrite calc_non_numeric by assumption.
      destruct v1; try discriminate N1; destruct v2; try discriminate N2;
        destruct o; reflexivity.
  - apply calc_int_int.
  - vm_compute. reflexivity.
  - reflexivity.
Qed.

(** Two operands that are not numbers: [+] concatenates, [-] gives nil. *)
Lemma calc_promotion_ladder_witness :
  calc (H:=Ref.helpers) (VString "a") (VBool true) (code Plus) = Ok (VString "atrue") /\
  calc (H:=Ref.helpers) (VString "a") (VBool true) (code Minus) = Ok VNil.
Proof.
  split.
  - rewrite (proj1 (calc_promotion_ladder (H:=Ref.helpers)) (VString "a") (VBool true) Plus eq_refl).
    reflexivity.
  - rewrite (proj1 (calc_promotion_ladder (H:=Ref.helpers)) (VString "a") (VBool true) Minus eq_refl).
    reflexivity.
Defined.

(** ** Depth *)

Lemma height_cons t s out :
  height (mkGraph t (s :: out)) =
  Nat.max (height (mkGraph t out))
          (match s with Some n => S (height n) | None => 0%nat end).
Proof. reflexivity. Qed.

Lemma nil_free_cons t s out :
  nil_free (mkGraph t (s :: out)) = true <->
  (exists n, s = Some n /\ nil_free n = true) /\ nil_free (mkGraph t out) = true.
Proof.
  cbn [nil_free forallb]. rewrite andb_true_iff. split.
  - intros [Hs Hout]. destruct s as [n|]; [|discriminate]. eauto.
  - intros [(n & -> & Hn) Hout]. auto.
Qed.

(** The loop of [Depth] over children whose depth is their height. *)
Lemma Depth_range_height t out i :
  0 <= i ->
  nil_free (mkGraph t out) = true ->
  Forall (fun s => forall n, s = Some n -> Depth n = Ok (Z.of_nat (height n))) out ->
  Depth_range Depth out i =
  Ok (Z.max (i + 1) (Z.of_nat (height (mkGraph t out))) - 1).
Proof.
  revert i. induction out as [|s out IH]; intros i Hi Hnf Hall.
  - cbn. f_equal. lia.
  - apply nil_free_cons in Hnf as [(n & -> & Hn) Hout].
    inversion Hall as [|? ? Hs Hrest]; subst.
    rewrite height_cons. cbn [Depth_range]. rewrite (Hs n eq_refl). cbn [bindO].
    rewrite IH by (try assumption; destruct (Z.of_nat (height n) >? i); lia).
    f_equal. destruct (Z.gtb_spec (Z.of_nat (height n)) i); lia.
Qed.

Lemma height_child t out n :
  In (Some n) out -> (S (height n) <= height (mkGraph t out))%nat.
Proof.
  induction out as [|s out IH]; intros Hin; [destruct Hin|].
  rewrite height_cons. destruct Hin as [->|Hin]; [lia|].
  specialize (IH Hin). lia.
Qed.

(** On a tree of height at most [101], [Depth] is the height. *)
Lemma Depth_of_bounded_tree g :
  nil_free g = true -> (height g <= 101)%nat -> Depth g = Ok (Z.of_nat (height g)).
Proof.
  induction g as [t out IH] using Graph_children_ind. intros Hnf Hh.
  destruct out as [|s out]; [reflexivity|].
  assert (Hall : Forall (fun s => forall n, s = Some n -> Depth n = Ok (Z.of_nat (height n)))
                        (s :: out)).
  { rewrite Forall_forall in IH |- *. intros s' Hin n ->.
    apply (IH _ Hin n eq_refl).
    - clear -Hnf Hin. revert Hnf. generalize (s :: out) as l, Hin. clear.
      intros l Hin. induction l as [|a l IHl]; [destruct (not_elem_of_nil _ Hin)|].
      intros Hnf. apply nil_free_cons in Hnf as [(m & -> & Hm) Hl].
      apply elem_of_cons in Hin as [[= ->]|Hin]; auto.
    - apply list_elem_of_In in Hin. pose proof (height_child t _ _ Hin). lia. }
  unfold Depth; fold Depth.
  change (Z.of_nat (length (s :: out)) =? 0) with false. cbv iota.
  rewrite (Depth_range_height t) by (try assumption; lia). cbn [bindO].
  assert (1 <= height (mkGraph t (s :: out)))%nat.
  { apply nil_free_cons in Hnf as [(m & -> & _) _]. rewrite height_cons. lia. }
  destruct (Z.gtb_spec (Z.max (0 + 1) (Z.of_nat (height (mkGraph t (s :: out)))) - 1) 100);
    [lia|]. f_equal. lia.
Qed.

(** C5 (evaluation at the failing inputs). A chain of [101] edges is
    reported with its depth, one of [102] edges as [-1], and from [103]
    edges on the [-1] of the subtree is not passed up: the probe answers
    [1], [2], ... again. *)
Theorem Depth_deep_chain :
  Depth (chain 100) = Ok 100 /\
  Depth (chain 101) = Ok 101 /\
  Depth (chain 102) = Ok (-1) /\
  Depth (chain 103) = Ok 1 /\
  Depth (chain 104) = Ok 2 /\
  Depth (chain 300) = Ok 96.
Proof. repeat split; vm_compute; reflexivity. Qed.

(** ** Add *)

Lemma Add_transparent n t :
  IsNil t = true -> Add n (VPtr (Some t)) = (mkGraph (This n) (Out n ++ Out t), t).
Proof. intros Ht. unfold Add. rewrite Ht. reflexivity. Qed.

Lemma Add_solid n c :
  IsNil c = false -> Add n (VPtr (Some c)) = (mkGraph (This n) (Out n ++ [Some c]), c).
Proof. intros Hc. unfold Add. rewrite Hc. reflexivity. Qed.

Lemma add_each_solid slots : forall n,
  Forall solid slots -> add_each n slots = mkGraph (This n) (Out n ++ slots).
Proof.
  induction slots as [|s slots IH]; intros n Hall.
  - cbn. rewrite app_nil_r. destruct n; reflexivity.
  - inversion Hall as [|? ? (c & -> & Hc) Hrest]; subst.
    cbn [add_each fold_left]. rewrite Add_solid by assumption. cbn [fst].
    change (fold_left _ slots ?m) with (add_each m slots).
    rewrite IH by assumption. cbn [This Out]. rewrite <- app_assoc. reflexivity.
Qed.

(** C9 (as amended). Composing a transparent node [t] into [n] appends
    the children of [t] to those of [n], so [t] is never a child of its
    own; and when every child slot of [t] holds a node with content,
    this is the children sequence obtained by composing the children of
    [t] one by one. *)
Theorem Add_splices_transparent n t :
  IsNil t = true ->
  Out (fst (Add n (VPtr (Some t)))) = Out n ++ Out t /\
  (Forall solid (Out t) ->
   Out (fst (Add n (VPtr (Some t)))) = Out (add_each n (Out t))).
Proof.
  intros Ht. rewrite Add_transparent by assumption. split; [reflexivity|].
  intros Hall. rewrite add_each_solid by assumption. reflexivity.
Qed.

(** Splicing [b], [c] after [a]. *)
Lemma Add_splices_transparent_witness :
  Out (fst (Add (Ref.root [Ref.str "a"])
                (VPtr (Some (Ref.root [Ref.str "b"; Ref.str "c"]))))) =
  Out (add_each (Ref.root [Ref.str "a"]) (Out (Ref.root [Ref.str "b"; Ref.str "c"]))).
Proof.
  apply (Add_splices_transparent (Ref.root [Ref.str "a"])
           (Ref.root [Ref.str "b"; Ref.str "c"]) eq_refl).
  repeat constructor; eexists; (split; [reflexivity|reflexivity]).
Defined.

(** C9 (counterexample). [t.Add(nil)] gives the transparent node [t] a
    transparent leaf as child.  Composing [t] into an empty node keeps
    that leaf as one child; composing the leaf by itself splices its (no)
    children and adds nothing. *)
Lemma Add_splice_law_fails :
  Add (mkGraph VNil []) VNil = (mkGraph VNil [Some (leaf VNil)], leaf VNil) /\
  IsNil (mkGraph VNil [Some (leaf VNil)]) = true /\
  Out (fst (Add (mkGraph VNil []) (VPtr (Some (mkGraph VNil [Some (leaf VNil)])))))
  = [Some (leaf VNil)] /\
  Out (add_each (mkGraph VNil []) (Out (mkGraph VNil [Some (leaf VNil)]))) = [] /\
  Out (fst (Add (mkGraph VNil []) (VPtr (Some (mkGraph VNil [Some (leaf VNil)])))))
  <> Out (add_each (mkGraph VNil []) (Out (mkGraph VNil [Some (leaf VNil)]))).
Proof. repeat split; try reflexivity. discriminate. Qed.

(** ** set: the index branch *)

Section SetIndex.

Context {H : Helpers}.

Lemma wrap64_id z : in_int64 z -> wrap64 z = z.
Proof.
  unfold in_int64, wrap64, MinInt64, MaxInt64. intros Hz.
  rewrite Z.mod_small by lia. lia.
Qed.

Lemma makeslice_ok_spec n :
  makeslice_ok n = true <-> 0 <= n <= MaxSlots.
Proof.
  unfold makeslice_ok, maxAlloc, PtrSize, MaxSlots.
  change (2 ^ 48) with 281474976710656. change (2 ^ 45) with 35184372088832.
  rewrite negb_true_iff, orb_false_iff, !Z.ltb_ge. lia.
Qed.

Lemma MaxSlots_in_int64 i : 0 <= i < MaxSlots -> in_int64 (i + 1).
Proof.
  unfold in_int64, MinInt64, MaxInt64, MaxSlots.
  change (2 ^ 45) with 35184372088832. lia.
Qed.

(** The index branch on an index at or beyond the child count. *)
Lemma set_index_grow node i val :
  Z.of_nat (length (Out node)) <= i < MaxSlots ->
  set_index node i val =
  Ok (mkGraph (This node)
        (Out node ++ replicate (Z.to_nat i - length (Out node)) None ++ [Some (New [val])]),
      New [val]).
Proof.
  intros Hi. unfold set_index.
  destruct (Z.leb_spec (Z.of_nat (length (Out node))) i); [|lia].
  rewrite wrap64_id by (apply MaxSlots_in_int64; lia).
  replace (makeslice_ok (i + 1)) with true by (symmetry; apply makeslice_ok_spec; lia).
  cbn [bindO].
  rewrite length_app, length_replicate.
  destruct (Z.ltb_spec i 0); [lia|].
  destruct (Z.leb_spec (Z.of_nat (length (Out node) + (Z.to_nat (i + 1) - length (Out node)))) i);
    [lia|]. cbn [orb]. do 2 f_equal.
  replace (Z.to_nat (i + 1) - length (Out node))%nat
    with (S (Z.to_nat i - length (Out node))) by lia.
  rewrite replicate_S_end, app_assoc.
  rewrite (insert_app_r_alt (Out node ++ replicate _ None))
    by (rewrite length_app, length_replicate; lia).
  rewrite length_app, length_replicate.
  replace (Z.to_nat i - (length (Out node) + (Z.to_nat i - length (Out node))))%nat
    with 0%nat by lia.
  cbn [insert list_insert]. rewrite <- app_assoc. reflexivity.
Qed.

(** The index branch on an index at or beyond the child count and
    beyond what [make] accepts. *)
Lemma set_index_beyond node i val :
  Z.of_nat (length (Out node)) <= i -> MaxSlots <= i <= MaxInt64 ->
  set_index node i val = Panic MakeSliceLen.
Proof.
  intros Hlen Hi. unfold set_index.
  destruct (Z.leb_spec (Z.of_nat (length (Out node))) i); [|lia].
  destruct (makeslice_ok (wrap64 (i + 1))) eqn:E; [|reflexivity].
  exfalso. apply makeslice_ok_spec in E.
  unfold MaxSlots, MaxInt64 in *. change (2 ^ 45) with 35184372088832 in *.
  destruct (Z.eq_dec i (2 ^ 63 - 1)) as [->|Hne].
  - vm_compute in E. destruct E as [E _]. apply E. reflexivity.
  - rewrite wrap64_id in E by (unfold in_int64, MinInt64, MaxInt64; lia). lia.
Qed.

(** The index branch on an index below the child count. *)
Lemma set_index_inside node i val :
  0 <= i < Z.of_nat (length (Out node)) ->
  set_index node i val =
  Ok (mkGraph (This node) (<[Z.to_nat i := Some (New [val])]> (Out node)), New [val]).
Proof.
  intros Hi. unfold set_index.
  destruct (Z.leb_spec (Z.of_nat (length (Out node))) i); [lia|]. cbn [bindO].
  destruct (Z.ltb_spec i 0); [lia|].
  destruct (Z.leb_spec (Z.of_nat (length (Out node))) i); [lia|]. reflexivity.
Qed.

(** Whatever the index, a write that returns leaves at least as many
    child slots as there were and returns the node it placed. *)
Lemma set_index_returns node i val node' r :
  set_index node i val = Ok (node', r) ->
  r = New [val] /\ This node' = This node /\
  (length (Out node) <= length (Out node'))%nat /\
  Out node' !! Z.to_nat i = Some (Some r) /\
  (forall j, (j < length (Out node))%nat -> j <> Z.to_nat i ->
             Out node' !! j = Out node !! j).
Proof.
  unfold set_index. intros Hs.
  destruct (Z.leb_spec (Z.of_nat (length (Out node))) i) as [Hle|Hlt].
  - destruct (makeslice_ok (wrap64 (i + 1))); [|discriminate]. cbn [bindO] in Hs.
    destruct (Z.ltb_spec i 0); [discriminate|].
    match type of Hs with context [Z.leb ?a ?b] => destruct (Z.leb_spec a b) as [|Hin] end;
      [discriminate|]. cbn [orb] in Hs. injection Hs as <- <-. cbn [This Out].
    rewrite length_insert. repeat split.
    + rewrite length_app. lia.
    + apply list_lookup_insert_eq. lia.
    + intros j Hj Hne. rewrite list_lookup_insert_ne by lia.
      apply lookup_app_l. assumption.
  - cbn [bindO] in Hs. destruct (Z.ltb_spec i 0); [discriminate|].
    destruct (Z.leb_spec (Z.of_nat (length (Out node))) i); [lia|].
    cbn [orb] in Hs. injection Hs as <- <-. cbn [This Out].
    rewrite length_insert. repeat split.
    + lia.
    + apply list_lookup_insert_eq. lia.
    + intros j Hj Hne. apply list_lookup_insert_ne. lia.
Qed.

(** Both loops of [set] hand an index element to the index branch. *)
Lemma set_walk_index node idx rest val :
  ThisString idx = TypeIndex ->
  set_walk node (idx :: rest) val = set_index node (Int64 idx) val.
Proof. intros Hx. cbn [set_walk]. rewrite Hx, String.eqb_refl. reflexivity. Qed.

Lemma set_build_index node idx rest val :
  ThisString idx = TypeIndex ->
  set_build node (idx :: rest) val = set_index node (Int64 idx) val.
Proof. intros Hx. cbn [set_build]. rewrite Hx, String.eqb_refl. reflexivity. Qed.

End SetIndex.

Section SetIndexClaims.

Context {H : Helpers}.

Lemma set_build_after_index idx post post' val :
  ThisString idx = TypeIndex ->
  forall pre node,
    set_build node (pre ++ idx :: post) val = set_build node (pre ++ idx :: post') val.
Proof.
  intros Hx. induction pre as [|e pre IH]; intros node.
  - cbn [app]. rewrite !set_build_index by assumption. reflexivity.
  - cbn [app set_build]. destruct (String.eqb (ThisString e) TypeIndex); [reflexivity|].
    destruct e as [e|]; [|reflexivity].
    destruct (This e) as [| | | | | | | |[h|]]; rewrite IH; reflexivity.
Qed.

Lemma set_walk_after_index idx post post' val :
  ThisString idx = TypeIndex ->
  forall pre node,
    set_walk node (pre ++ idx :: post) val = set_walk node (pre ++ idx :: post') val.
Proof.
  intros Hx. induction pre as [|e pre IH]; intros node.
  - cbn [app]. rewrite !set_walk_index by assumption. reflexivity.
  - cbn [app set_walk]. destruct (String.eqb (ThisString e) TypeIndex); [reflexivity|].
    destruct (findNode (Out node) (ThisString e) 0) as [[[k child]|]|]; cbn [bindO].
    + rewrite IH. reflexivity.
    + apply (set_build_after_index idx post post' val Hx (e :: pre)).
    + reflexivity.
Qed.

Lemma set_build_index_result idx post val :
  ThisString idx = TypeIndex ->
  forall pre node node' r,
    set_build node (pre ++ idx :: post) val = Ok (node', r) -> r = New [val].
Proof.
  intros Hx. induction pre as [|e pre IH]; intros node node' r.
  - cbn [app]. rewrite set_build_index by assumption.
    intros Hs. apply set_index_returns in Hs. tauto.
  - cbn [app set_build]. destruct (String.eqb (ThisString e) TypeIndex).
    { intros Hs. apply set_index_returns in Hs. tauto. }
    destruct e as [e|]; [|discriminate].
    destruct (This e) as [| | | | | | | |[h|]];
      match goal with
      | |- context [set_build ?m (pre ++ idx :: post) val] =>
          destruct (set_build m (pre ++ idx :: post) val) as [[x ret]|] eqn:E;
          cbn [bindO]; [|discriminate]
      end;
      try (intros [= <- <-]; eapply IH; eassumption).
    destruct (IsNil h); intros [= <- <-]; eapply IH; eassumption.
Qed.

Lemma set_walk_index_result idx post val :
  ThisString idx = TypeIndex ->
  forall pre node node' r,
    set_walk node (pre ++ idx :: post) val = Ok (node', r) -> r = New [val].
Proof.
  intros Hx. induction pre as [|e pre IH]; intros node node' r.
  - cbn [app]. rewrite set_walk_index by assumption.
    intros Hs. apply set_index_returns in Hs. tauto.
  - cbn [app set_walk]. destruct (String.eqb (ThisString e) TypeIndex).
    { intros Hs. apply set_index_returns in Hs. tauto. }
    destruct (findNode (Out node) (ThisString e) 0) as [[[k child]|]|]; cbn [bindO];
      [| |discriminate].
    + destruct (set_walk child (pre ++ idx :: post) val) as [[x ret]|] eqn:E;
        cbn [bindO]; [|discriminate].
      intros [= <- <-]. eapply IH; eassumption.
    + apply (set_build_index_result idx post val Hx (e :: pre)).
Qed.

End SetIndexClaims.

(** C7 (as amended). At an index element whose value [i] is at least the
    child count of the node reached and below 2^45 ([MaxSlots], the
    longest slice of pointers the run-time makes), either loop of [set]
    grows the children to [i+1] slots: the old children keep their
    places, every gap slot is a nil pointer, and slot [i] holds the node
    made by [New] for the value, which is returned.  From 2^45 on such a
    write panics in [make] instead.  Whenever the write returns, the
    node has at least as many slots as before. *)
Theorem set_index_grows_children {H : Helpers} node idx rest val :
  ThisString idx = TypeIndex ->
  (Z.of_nat (length (Out node)) <= Int64 idx < MaxSlots ->
   set_walk node (idx :: rest) val =
   Ok (mkGraph (This node)
         (Out node ++ replicate (Z.to_nat (Int64 idx) - length (Out node)) None
                   ++ [Some (New [val])]),
       New [val]) /\
   set_build node (idx :: rest) val = set_walk node (idx :: rest) val) /\
  (Z.of_nat (length (Out node)) <= Int64 idx -> MaxSlots <= Int64 idx <= MaxInt64 ->
   set_walk node (idx :: rest) val = Panic MakeSliceLen /\
   set_build node (idx :: rest) val = Panic MakeSliceLen) /\
  (forall node' r,
      set_walk node (idx :: rest) val = Ok (node', r) ->
      (length (Out node) <= length (Out node'))%nat).
Proof.
  intros Hx. rewrite set_build_index, set_walk_index by assumption. split; [|split].
  - intros Hi. split; [|reflexivity]. apply set_index_grow. assumption.
  - intros Hlen Hi. rewrite (set_index_beyond _ _ _ Hlen Hi). split; reflexivity.
  - intros node' r Hs. apply set_index_returns in Hs. tauto.
Qed.

(** Index [3] on a node with one child: two nil slots and the new node.
    Index 2^45 on the same node: the panic of [make]. *)
Lemma set_index_grows_children_witness :
  set_walk (H:=Ref.helpers) (Ref.root [Ref.str "a"])
    [Some (Ref.index "3"); Some (Ref.str "z")] (VInt64 7) =
  Ok (mkGraph VNil [Some (Ref.str "a"); None; None; Some (New [VInt64 7])], New [VInt64 7]) /\
  set_walk (H:=Ref.helpers) (Ref.root [Ref.str "a"])
    [Some (Ref.index "35184372088832"); Some (Ref.str "z")] (VInt64 7) =
  Panic MakeSliceLen.
Proof.
  split.
  - apply (proj1 (set_index_grows_children (H:=Ref.helpers) (Ref.root [Ref.str "a"])
                    (Some (Ref.index "3")) [Some (Ref.str "z")] (VInt64 7) eq_refl)).
    vm_compute. split; [discriminate|reflexivity].
  - apply (proj1 (proj2 (set_index_grows_children (H:=Ref.helpers) (Ref.root [Ref.str "a"])
                           (Some (Ref.index "35184372088832")) [Some (Ref.str "z")]
                           (VInt64 7) eq_refl))).
    + vm_compute. discriminate.
    + vm_compute. split; discriminate.
Defined.

(** C7 (counterexample). Writing at index [2] of a node without children
    leaves the two gap slots nil: no node is made for them. *)
Lemma set_index_gap_is_nil :
  set (H:=Ref.helpers) (Ref.root []) (Some (Ref.path [Ref.index "2"])) (VInt64 7) =
  Ok (mkGraph VNil [None; None; Some (New [VInt64 7])], New [VInt64 7]) /\
  Out (mkGraph VNil [None; None; Some (New [VInt64 7])]) !! 0%nat = Some None /\
  Out (mkGraph VNil [None; None; Some (New [VInt64 7])]) !! 1%nat = Some None.
Proof. repeat split. Qed.

(** C10. The write [a[0].b = 7] on a graph where [a] has one child stops
    at the index element and returns the node it placed there, but that
    node does not hold the value: its content is the one-element
    argument slice of [New], where the write [a = 7], through the
    terminal branch of the same function, makes a node whose content is
    the value. *)
Theorem set_index_places_wrapped_value :
  set (H:=Ref.helpers) (Ref.root [Ref.named "a" [Ref.str "1"]])
      (Some (Ref.path [Ref.str "a"; Ref.index "0"; Ref.str "b"])) (VInt64 7) =
  Ok (Ref.root [Ref.named "a" [mkGraph (VSlice [VInt64 7]) []]],
      mkGraph (VSlice [VInt64 7]) []) /\
  This (mkGraph (VSlice [VInt64 7]) []) <> VInt64 7 /\
  set (H:=Ref.helpers) (Ref.root [Ref.named "a" [Ref.str "1"]])
      (Some (Ref.path [Ref.str "a"])) (VInt64 7) =
  Ok (Ref.root [Ref.named "a" [leaf (VInt64 7)]], leaf (VInt64 7)).
Proof. split; [reflexivity|]. split; [discriminate|reflexivity]. Qed.

(** X19. An index element ends the write: the elements after it change
    nothing (they are neither traversed nor created), both loops hand the
    element to the index branch on the node reached, that branch keeps
    every other child slot of the node (the terminal overwrite does not
    run), and the node returned is the one placed, the node that
    [New] makes for the value. *)
Theorem set_stops_at_index {H : Helpers} g t pre idx post val :
  ThisString idx = TypeIndex ->
  set g (Some (mkGraph t (pre ++ idx :: post))) val =
  set g (Some (mkGraph t (pre ++ [idx]))) val /\
  (forall node,
      set_walk node (idx :: post) val = set_index node (Int64 idx) val /\
      set_build node (idx :: post) val = set_index node (Int64 idx) val) /\
  (forall node node' r,
      set_index node (Int64 idx) val = Ok (node', r) ->
      Out node' !! Z.to_nat (Int64 idx) = Some (Some r) /\
      forall j, (j < length (Out node))%nat -> j <> Z.to_nat (Int64 idx) ->
                Out node' !! j = Out node !! j) /\
  (forall g' r,
      set g (Some (mkGraph t (pre ++ idx :: post))) val = Ok (g', r) -> r = New [val]).
Proof.
  intros Hx. repeat split.
  - cbn [set Out]. apply set_walk_after_index. assumption.
  - apply set_walk_index. assumption.
  - apply set_build_index. assumption.
  - apply set_index_returns in H0. tauto.
  - apply set_index_returns in H0. tauto.
  - cbn [set Out]. intros Hs. eapply set_walk_index_result; eassumption.
Qed.

(** The path [a[0].b.c] writes what [a[0]] writes. *)
Lemma set_stops_at_index_witness :
  set (H:=Ref.helpers) (Ref.root [Ref.named "a" [Ref.str "1"]])
      (Some (Ref.path [Ref.str "a"; Ref.index "0"; Ref.str "b"; Ref.str "c"])) (VInt64 7) =
  set (H:=Ref.helpers) (Ref.root [Ref.named "a" [Ref.str "1"]])
      (Some (Ref.path [Ref.str "a"; Ref.index "0"])) (VInt64 7).
Proof.
  apply (proj1 (set_stops_at_index (H:=Ref.helpers) (Ref.root [Ref.named "a" [Ref.str "1"]])
                  (VString "!p") [Some (Ref.str "a")] (Some (Ref.index "0"))
                  [Some (Ref.str "b"); Some (Ref.str "c")] (VInt64 7) eq_refl)).
Defined.

(** ** set followed by get *)

Section SetGet.

Context {H : Helpers}.

Lemma findNode_insert out s c' : forall k0 k c,
  findNode out s k0 = Ok (Some (k, c)) ->
  This c' = This c ->
  (k0 <= k)%nat /\
  findNode (<[(k - k0)%nat := Some c']> out) s k0 = Ok (Some (k, c')).
Proof.
  induction out as [|[n|] out IH]; intros k0 k c Hf Hc; cbn [findNode] in Hf;
    try discriminate.
  destruct (String.eqb s (_string (This n))) eqn:E.
  - injection Hf as <- <-. split; [lia|].
    rewrite Nat.sub_diag. cbn. rewrite Hc, E. reflexivity.
  - destruct (IH _ _ _ Hf Hc) as [Hle Hins]. split; [lia|].
    replace (k - k0)%nat with (S (k - S k0)) by lia.
    cbn. rewrite E. assumption.
Qed.

Lemma findNode_None_app out s c : forall k0,
  findNode out s k0 = Ok None ->
  String.eqb s (_string (This c)) = true ->
  findNode (out ++ [Some c]) s k0 = Ok (Some ((k0 + length out)%nat, c)).
Proof.
  induction out as [|[n|] out IH]; intros k0 Hf Hc; cbn [findNode app] in *;
    try discriminate.
  - rewrite Hc. do 3 f_equal. cbn. lia.
  - destruct (String.eqb s (_string (This n))); [discriminate|].
    rewrite IH by assumption. do 3 f_equal. cbn. lia.
Qed.

Lemma Add_Out t v : Out (fst (Add (mkGraph t []) v)) = written v.
Proof.
  unfold written. destruct v as [| | | | | | | |[h|]]; try reflexivity.
  cbn. destruct (IsNil h); reflexivity.
Qed.

Lemma Add_This g v : This (fst (Add g v)) = This g.
Proof.
  destruct v as [| | | | | | | |[h|]]; try reflexivity.
  cbn. destruct (IsNil h); reflexivity.
Qed.

(** The construction step at a field element. *)
Lemma set_build_field node e rest val :
  field_elem (Some e) ->
  set_build node (Some e :: rest) val =
  ('(gg', ret) <- set_build (mkGraph (This e) []) rest val ;;
   Ok (mkGraph (This node) (Out node ++ [Some gg']), ret)).
Proof.
  intros (e' & [= <-] & Hi & _ & _ & _ & Hp). cbn [set_build].
  apply String.eqb_neq in Hi. rewrite Hi.
  destruct (This e) as [| | | | | | | |[h|]] eqn:E; try reflexivity.
  destruct (Hp h). reflexivity.
Qed.

Lemma set_build_This val : forall elems node node' r,
  Forall field_elem elems ->
  set_build node elems val = Ok (node', r) -> This node' = This node.
Proof.
  induction elems as [|e elems IH]; intros node node' r Hall Hs.
  - cbn in Hs. injection Hs as Hs. apply (f_equal fst) in Hs. cbn [fst] in Hs.
    subst node'. unfold set_terminal. rewrite Add_This. reflexivity.
  - inversion Hall as [|? ? He Hrest]; subst.
    pose proof He as (e' & -> & _).
    rewrite set_build_field in Hs by assumption.
    destruct (set_build (mkGraph (This e') []) elems val) as [[gg' ret]|]; [|discriminate].
    cbn in Hs. injection Hs as <- <-. reflexivity.
Qed.

Lemma set_walk_This val : forall elems node node' r,
  Forall field_elem elems ->
  set_walk node elems val = Ok (node', r) -> This node' = This node.
Proof.
  induction elems as [|e elems IH]; intros node node' r Hall Hs.
  - cbn in Hs. injection Hs as Hs. apply (f_equal fst) in Hs. cbn [fst] in Hs.
    subst node'. unfold set_terminal. rewrite Add_This. reflexivity.
  - inversion Hall as [|? ? He Hrest]; subst.
    pose proof He as (e' & -> & Hi & _).
    cbn [set_walk] in Hs. apply String.eqb_neq in Hi. rewrite Hi in Hs.
    destruct (findNode (Out node) (ThisString (Some e')) 0) as [[[k child]|]|];
      cbn [bindO] in Hs; [| |discriminate].
    + destruct (set_walk child elems val) as [[child' ret]|]; [|discriminate].
      cbn in Hs. injection Hs as <- <-. reflexivity.
    + eapply (set_build_This val (Some e' :: elems)); eauto.
Qed.

(** One step of [get] at a field element. *)
Lemma get_loop_field node np ep ik e rest :
  field_elem e ->
  get_loop node np ep ik (e :: rest) =
  (r <- Node node (ThisString e) ;;
   match r with
   | None => Ok None
   | Some node' => get_loop node' (Some node) (ThisString e) true rest
   end).
Proof.
  intros (e' & -> & Hi & Hs & Hl & _). cbn [get_loop].
  apply String.eqb_neq in Hi, Hs, Hl. rewrite Hi, Hs, Hl. reflexivity.
Qed.

Lemma get_loop_nil_iknow node np ep :
  get_loop node np ep true [] = Ok (Some node).
Proof. cbn. unfold get_finish. rewrite andb_false_r. reflexivity. Qed.

Lemma set_build_then_get val : forall elems node node' r np ep,
  Forall field_elem elems ->
  set_build node elems val = Ok (node', r) ->
  match elems with
  | e :: _ => findNode (Out node) (ThisString e) 0 = Ok None
  | [] => True
  end ->
  exists final, get_loop node' np ep true elems = Ok (Some final) /\
                Out final = written val.
Proof.
  induction elems as [|e elems IH]; intros node node' r np ep Hall Hs Hnone.
  - cbn in Hs. injection Hs as Hs. apply (f_equal fst) in Hs. cbn [fst] in Hs.
    subst node'. eexists. split; [apply get_loop_nil_iknow | apply Add_Out].
  - inversion Hall as [|? ? He Hrest]; subst.
    pose proof He as (e' & -> & _ & _ & _ & Hstr & _).
    rewrite set_build_field in Hs by assumption.
    destruct (set_build (mkGraph (This e') []) elems val) as [[gg' ret]|] eqn:Eb;
      [|discriminate].
    cbn in Hs. injection Hs as <- <-.
    rewrite get_loop_field by assumption. unfold Node. cbn [Out].
    pose proof (set_build_This _ _ _ _ _ Hrest Eb) as Ht. cbn [This] in Ht.
    rewrite (findNode_None_app _ _ gg' 0%nat Hnone)
      by (rewrite Ht, Hstr; apply String.eqb_refl).
    cbn [bindO option_map snd].
    eapply IH; [eassumption|eassumption|].
    destruct elems; [exact I|reflexivity].
Qed.

Lemma set_walk_then_get val : forall elems node node' r np ep,
  Forall field_elem elems ->
  set_walk node elems val = Ok (node', r) ->
  exists final, get_loop node' np ep true elems = Ok (Some final) /\
                Out final = written val.
Proof.
  induction elems as [|e elems IH]; intros node node' r np ep Hall Hs.
  - cbn in Hs. injection Hs as Hs. apply (f_equal fst) in Hs. cbn [fst] in Hs.
    subst node'. eexists. split; [apply get_loop_nil_iknow | apply Add_Out].
  - inversion Hall as [|? ? He Hrest]; subst.
    pose proof He as (e' & -> & Hi & _).
    cbn [set_walk] in Hs. apply String.eqb_neq in Hi. rewrite Hi in Hs.
    destruct (findNode (Out node) (ThisString (Some e')) 0) as [[[k child]|]|] eqn:Ef;
      cbn [bindO] in Hs; [| |discriminate].
    + destruct (set_walk child elems val) as [[child' ret]|] eqn:Ew; [|discriminate].
      cbn in Hs. injection Hs as <- <-.
      rewrite get_loop_field by assumption. unfold Node. cbn [Out].
      pose proof (set_walk_This _ _ _ _ _ Hrest Ew) as Ht.
      destruct (findNode_insert _ _ child' _ _ _ Ef Ht) as [_ Hins].
      rewrite Nat.sub_0_r in Hins. rewrite Hins. cbn [bindO option_map snd].
      eapply IH; eassumption.
    + eapply set_build_then_get; eassumption.
Qed.

End SetGet.

(** ** get: selectors *)

Section Selectors.

Context {H : Helpers}.

Lemma addEqualNodes_flat t x out : forall acc,
  Forall (fun s => s <> None) out ->
  addEqualNodes (mkGraph t out) x false acc = Ok (acc ++ sibling_values x out).
Proof.
  cbn [addEqualNodes].
  induction out as [|s out IH]; intros acc Hall.
  - cbn. rewrite app_nil_r. reflexivity.
  - inversion Hall as [|? ? Hs Hrest]; subst. destruct s as [n|]; [|congruence].
    cbn [sibling_values flat_map bindO]. rewrite IH by assumption.
    fold (sibling_values x out).
    destruct (String.eqb x (_string (This n))); cbn [AddNodes Out This].
    + rewrite <- app_assoc. reflexivity.
    + reflexivity.
Qed.

Lemma select_ith_nth x out : forall i,
  1 <= i <= MaxInt64 ->
  select_ith out x i =
  match same_named x out !! Z.to_nat (i - 1) with
  | Some nn => (0, Some (AddNodes (New []) nn))
  | None => (i - Z.of_nat (length (same_named x out)), None)
  end.
Proof.
  induction out as [|nn out IH]; intros i Hi.
  - cbn. f_equal. lia.
  - cbn [select_ith same_named List.filter].
    destruct (String.eqb (ThisString nn) x) eqn:E.
    + rewrite wrap64_id by (unfold in_int64, MinInt64, MaxInt64 in *; lia).
      destruct (Z.eqb_spec (i - 1) 0) as [E0|E0].
      * rewrite E0. reflexivity.
      * fold (same_named x out). rewrite IH by lia.
        replace (Z.to_nat (i - 1)) with (S (Z.to_nat (i - 1 - 1))) by lia.
        cbn [lookup list_lookup length].
        destruct (same_named x out !! Z.to_nat (i - 1 - 1)); [reflexivity|].
        f_equal. lia.
    + fold (same_named x out). apply IH. assumption.
Qed.

Lemma same_named_lookup_length x out n :
  same_named x out !! n = None -> (length (same_named x out) <= n)%nat.
Proof. apply lookup_ge_None_1. Qed.

(** A selector as the first element, or with nothing matched so far,
    has no previous level and fails. *)
Lemma get_loop_selector_first node ep ik sel rest :
  ThisString sel = TypeSelector -> TypeSelector <> TypeIndex ->
  get_loop node None ep ik (sel :: rest) = Ok None.
Proof.
  intros Hs Hne. cbn [get_loop]. rewrite Hs, String.eqb_refl.
  apply String.eqb_neq in Hne. rewrite Hne. reflexivity.
Qed.

(** The step of [{}] from a state with a previous level. *)
Lemma get_loop_selector_all node np x ik sel rest :
  ThisString sel = TypeSelector -> TypeSelector <> TypeIndex ->
  Len sel = 0 -> x <> "" -> Out np <> [] ->
  Forall (fun s => s <> None) (Out np) ->
  get_loop node (Some np) x ik (sel :: rest) =
  match sibling_values x (Out np) with
  | [] => Ok None
  | vals => get_loop (mkGraph VNil vals) (Some np) x false rest
  end.
Proof.
  intros Hs Hne Hlen Hx Hout Hall. cbn [get_loop]. rewrite Hs, String.eqb_refl.
  apply String.eqb_neq in Hne. rewrite Hne.
  assert ((Len (Some np) =? 0) = false) as ->.
  { cbn [Len]. destruct (Out np); [congruence|reflexivity]. }
  assert ((Z.of_nat (String.length x) =? 0) = false) as ->.
  { destruct x; [congruence|reflexivity]. }
  cbn [orb]. rewrite Hlen. cbn [Z.eqb].
  destruct np as [t out]. cbn [Out] in *.
  rewrite addEqualNodes_flat by assumption. cbn [New length Nat.eqb Out app bindO].
  destruct (sibling_values x out); reflexivity.
Qed.

(** The step of [{N}] from a state with a previous level. *)
Lemma get_loop_selector_nth node np x ik sel rest arg N :
  ThisString sel = TypeSelector -> TypeSelector <> TypeIndex ->
  first_child sel = Ok arg -> Atoi (ThisString arg) = Some N -> 0 <= N < MaxInt64 ->
  x <> "" -> Out np <> [] ->
  get_loop node (Some np) x ik (sel :: rest) =
  match same_named x (Out np) !! Z.to_nat N with
  | Some nn => get_loop (AddNodes (New []) nn) (Some np) x false rest
  | None => Ok None
  end.
Proof.
  intros Hs Hne Hfc Ha HN Hx Hout. cbn [get_loop]. rewrite Hs, String.eqb_refl.
  apply String.eqb_neq in Hne. rewrite Hne.
  assert ((Len (Some np) =? 0) = false) as ->.
  { cbn [Len]. destruct (Out np); [congruence|reflexivity]. }
  assert ((Z.of_nat (String.length x) =? 0) = false) as ->.
  { destruct x; [congruence|reflexivity]. }
  cbn [orb].
  assert ((Len sel =? 0) = false) as ->.
  { destruct sel as [[t [|c l]]|]; try discriminate Hfc; reflexivity. }
  rewrite Hfc. cbn [bindO]. rewrite Ha.
  destruct (Z.ltb_spec N 0); [lia|].
  rewrite wrap64_id by (unfold in_int64, MinInt64, MaxInt64 in *; lia).
  rewrite select_ith_nth by lia.
  replace (N + 1 - 1) with N by lia.
  destruct (same_named x (Out np) !! Z.to_nat N) eqn:E.
  - reflexivity.
  - apply same_named_lookup_length in E.
    destruct (Z.gtb_spec (N + 1 - Z.of_nat (length (same_named x (Out np)))) 0); [reflexivity|lia].
Qed.

End Selectors.

(** C6 (as amended). After a field-name element that matched a child
    named [x] of [node], a selector is resolved among the child slots of
    [node].  [{}] yields a fresh container holding, in document order,
    the children of every slot whose content reads as [x] (the values of
    the same-named siblings, not the siblings), and fails when that list
    is empty.  [{N}] yields a fresh container with the children of the
    [N]-th (from [0]) slot named [x], and fails when there are fewer than
    [N+1].  A selector with no previous level (the first element of a
    path) fails. *)
Theorem selector_after_field {H : Helpers} node np0 ep0 ik0 fld sel rest c :
  field_elem fld -> ThisString fld <> "" ->
  Node node (ThisString fld) = Ok (Some c) ->
  Forall (fun s => s <> None) (Out node) ->
  ThisString sel = TypeSelector -> TypeSelector <> TypeIndex ->
  (Len sel = 0 ->
   get_loop node np0 ep0 ik0 (fld :: sel :: rest) =
   match sibling_values (ThisString fld) (Out node) with
   | [] => Ok None
   | vals => get_loop (mkGraph VNil vals) (Some node) (ThisString fld) false rest
   end) /\
  (forall arg N,
      first_child sel = Ok arg -> Atoi (ThisString arg) = Some N -> 0 <= N < MaxInt64 ->
      get_loop node np0 ep0 ik0 (fld :: sel :: rest) =
      match same_named (ThisString fld) (Out node) !! Z.to_nat N with
      | Some nn => get_loop (AddNodes (New []) nn) (Some node) (ThisString fld) false rest
      | None => Ok None
      end) /\
  (forall vals np ep,
      get_loop (mkGraph VNil vals) np ep false [] = Ok (Some (mkGraph VNil vals))) /\
  (forall node' ep ik, get_loop node' None ep ik (sel :: rest) = Ok None).
Proof.
  intros Hf Hx Hn Hall Hs Hne.
  assert (Hout : Out node <> []).
  { intros E. unfold Node in Hn. rewrite E in Hn. discriminate Hn. }
  repeat split.
  - intros Hlen. rewrite get_loop_field by assumption. rewrite Hn. cbn [bindO].
    apply get_loop_selector_all; assumption.
  - intros arg N Hfc Ha HN. rewrite get_loop_field by assumption. rewrite Hn. cbn [bindO].
    eapply get_loop_selector_nth; eassumption.
  - intros node' ep ik. apply get_loop_selector_first; assumption.
Qed.

(** [x{}] over two children named [x]. *)
Lemma selector_after_field_witness :
  get (H:=Ref.helpers)
      (Some (Ref.root [Ref.named "x" [Ref.str "1"]; Ref.named "y" [];
                       Ref.named "x" [Ref.str "2"; Ref.str "3"]]))
      (Some (Ref.path [Ref.str "x"; Ref.selector []])) =
  Ok (Some (Ref.root [Ref.str "1"; Ref.str "2"; Ref.str "3"])).
Proof.
  cbn [get Ref.path Ref.named Out map].
  rewrite (proj1 (selector_after_field (H:=Ref.helpers)
                    (Ref.root [Ref.named "x" [Ref.str "1"]; Ref.named "y" [];
                               Ref.named "x" [Ref.str "2"; Ref.str "3"]])
                    None "" true (Some (Ref.str "x")) (Some (Ref.selector [])) []
                    (Ref.named "x" [Ref.str "1"])
                    ltac:(eexists; (split; [reflexivity|]); repeat split; try discriminate; reflexivity)
                    ltac:(discriminate) eq_refl
                    ltac:(repeat constructor; discriminate) eq_refl ltac:(discriminate))
                 eq_refl).
  reflexivity.
Defined.

(** C6 (counterexample). With two children named [x], [x{}] returns a
    container of the children of the two, not of the two children; and a
    selector that follows an index element is resolved, against the name
    of the indexed child. *)
Lemma selector_returns_values_not_siblings :
  get (H:=Ref.helpers)
      (Some (Ref.root [Ref.named "x" [Ref.str "1"]; Ref.named "x" [Ref.str "2"]]))
      (Some (Ref.path [Ref.str "x"; Ref.selector []])) =
  Ok (Some (Ref.root [Ref.str "1"; Ref.str "2"])) /\
  Ref.root [Ref.str "1"; Ref.str "2"] <>
  Ref.root [Ref.named "x" [Ref.str "1"]; Ref.named "x" [Ref.str "2"]] /\
  get (H:=Ref.helpers)
      (Some (Ref.root [Ref.named "x" [Ref.str "1"]; Ref.named "x" [Ref.str "2"]]))
      (Some (Ref.path [Ref.index "1"; Ref.selector ["0"]])) =
  Ok (Some (Ref.root [Ref.str "1"])).
Proof. repeat split. discriminate. Qed.

(** ** evalBinary: logical operators and assignment *)

Section BinaryFacts.

Context {H : Helpers}.

Lemma logic_needs_both_booleans i1 i2 op :
  snd (_boolf i1) = false \/ snd (_boolf i2) = false -> logic i1 i2 op = false.
Proof.
  unfold logic. destruct (_boolf i1) as [b1 ok1], (_boolf i2) as [b2 ok2]. cbn [snd].
  intros [-> | ->]; [reflexivity|]. rewrite orb_true_r. reflexivity.
Qed.

Lemma logic_of_booleans i1 i2 b1 b2 :
  _boolf i1 = (b1, true) -> _boolf i2 = (b2, true) ->
  logic i1 i2 op_and = b1 && b2 /\ logic i1 i2 op_or = b1 || b2.
Proof. unfold logic. intros -> ->. split; reflexivity. Qed.

Lemma evalBinary_and g t n1 n2 rest :
  String_ (Some (mkGraph t (Some n1 :: Some n2 :: rest))) = "&&" ->
  evalBinary g (mkGraph t (Some n1 :: Some n2 :: rest)) =
  ('(i2, g1) <- EvalExpression g n2 ;;
   '(v1, g2) <- EvalExpression g1 n1 ;;
   Ok (VBool (logic v1 i2 op_and), g2)).
Proof.
  intros Hs. unfold evalBinary, evalBinary_with. rewrite Hs.
  destruct (EvalExpression g n2) as [[i2 g1]|]; [|reflexivity]. cbn.
  destruct (EvalExpression g1 n1) as [[v1 g2]|]; reflexivity.
Qed.

Lemma evalBinary_or g t n1 n2 rest :
  String_ (Some (mkGraph t (Some n1 :: Some n2 :: rest))) = "||" ->
  evalBinary g (mkGraph t (Some n1 :: Some n2 :: rest)) =
  ('(i2, g1) <- EvalExpression g n2 ;;
   '(v1, g2) <- EvalExpression g1 n1 ;;
   Ok (VBool (logic v1 i2 op_or), g2)).
Proof.
  intros Hs. unfold evalBinary, evalBinary_with. rewrite Hs.
  destruct (EvalExpression g n2) as [[i2 g1]|]; [|reflexivity]. cbn.
  destruct (EvalExpression g1 n1) as [[v1 g2]|]; reflexivity.
Qed.

(** [assign] with a compound operator. *)
Lemma assign_absent_target g p v op :
  op <> op_eq -> get (Some g) p = Ok None -> assign g p v op = Panic NilDeref.
Proof.
  intros Hop Hg. unfold assign. apply Z.eqb_neq in Hop. rewrite Hop, Hg. reflexivity.
Qed.

Lemma assign_present_target g p v left :
  get (Some g) p = Ok (Some left) ->
  assign g p v op_add = set_value g p v /\
  assign g p v op_sub = set_value g p VNil /\
  assign g p v op_mul = set_value g p (VInt 0) /\
  assign g p v op_div = set_value g p (VString "infinity") /\
  assign g p v op_mod = set_value g p (VString "undefined").
Proof.
  intros Hg. unfold assign. rewrite Hg.
  rewrite calc_one_non_numeric by (left; reflexivity). repeat split.
Qed.

End BinaryFacts.

(** C8. An [&&] or [||] node evaluates its right operand, then its left
    operand in the context the right operand left behind, whatever the
    values are, and answers [logic] of the two; and [logic] is false as
    soon as one operand does not coerce to a boolean. *)
Theorem logical_operators_evaluate_both {H : Helpers} g t n1 n2 rest os op :
  (os = "&&" /\ op = op_and) \/ (os = "||" /\ op = op_or) ->
  String_ (Some (mkGraph t (Some n1 :: Some n2 :: rest))) = os ->
  evalBinary g (mkGraph t (Some n1 :: Some n2 :: rest)) =
  ('(i2, g1) <- EvalExpression g n2 ;;
   '(v1, g2) <- EvalExpression g1 n1 ;;
   Ok (VBool (logic v1 i2 op), g2)) /\
  (forall i1 i2,
      snd (_boolf i1) = false \/ snd (_boolf i2) = false -> logic i1 i2 op = false).
Proof.
  intros Hop Hs. split.
  - destruct Hop as [[-> ->]|[-> ->]]; [apply evalBinary_and | apply evalBinary_or];
      assumption.
  - intros i1 i2. apply logic_needs_both_booleans.
Qed.

(** The assignment on the right of [false && (x = 1)] takes effect. *)
Lemma logical_operators_evaluate_both_witness :
  EvalExpression (H:=Ref.helpers) (Ref.root [])
    (binop "&&" (Ref.str "false") (binop "=" (var "x") (Ref.str "1"))) =
  Ok (VBool false, Ref.root [Ref.named "x" [Ref.leaf_int 1]]).
Proof.
  change (evalBinary (H:=Ref.helpers) (Ref.root [])
            (mkGraph (VString "&&")
               [Some (Ref.str "false"); Some (binop "=" (var "x") (Ref.str "1"))]) =
          Ok (VBool false, Ref.root [Ref.named "x" [Ref.leaf_int 1]])).
  rewrite (proj1 (logical_operators_evaluate_both (H:=Ref.helpers) (Ref.root [])
                    (VString "&&") (Ref.str "false") (binop "=" (var "x") (Ref.str "1")) []
                    "&&" op_and (or_introl (conj eq_refl eq_refl)) eq_refl)).
  reflexivity.
Defined.

(** C1 (evaluation at the failing inputs). With the target absent every
    compound assignment stops in a nil dereference; with the target
    present [+=] stores the right-hand value as it is ([1] and [5] are
    not added), [-=] stores nil, [*=] stores the [int] zero, [/=] and
    [%=] store the two strings. *)
Theorem compound_assign_absent_and_present :
  EvalExpression (H:=Ref.helpers) (Ref.root [])
    (binop "+=" (var "x") (Ref.str "5")) = Panic NilDeref /\
  EvalExpression (H:=Ref.helpers) (Ref.root [])
    (binop "*=" (var "x") (Ref.str "5")) = Panic NilDeref /\
  EvalExpression (H:=Ref.helpers) (Ref.root [Ref.named "x" [Ref.leaf_int 1]])
    (binop "+=" (var "x") (Ref.str "5")) =
  Ok (VPtr (Some (Ref.leaf_int 5)), Ref.root [Ref.named "x" [Ref.leaf_int 5]]) /\
  EvalExpression (H:=Ref.helpers) (Ref.root [Ref.named "x" [Ref.leaf_int 1]])
    (binop "-=" (var "x") (Ref.str "5")) =
  Ok (VPtr (Some (leaf VNil)), Ref.root [Ref.named "x" [leaf VNil]]) /\
  EvalExpression (H:=Ref.helpers) (Ref.root [Ref.named "x" [Ref.leaf_int 1]])
    (binop "*=" (var "x") (Ref.str "5")) =
  Ok (VPtr (Some (leaf (VInt 0))), Ref.root [Ref.named "x" [leaf (VInt 0)]]) /\
  EvalExpression (H:=Ref.helpers) (Ref.root [Ref.named "x" [Ref.leaf_int 1]])
    (binop "/=" (var "x") (Ref.str "5")) =
  Ok (VPtr (Some (Ref.str "infinity")), Ref.root [Ref.named "x" [Ref.str "infinity"]]).
Proof. repeat split. Qed.

(** ** Which operations return *)

Lemma nil_free_Forall t out :
  nil_free (mkGraph t out) = true <->
  Forall (fun s => exists n, s = Some n /\ nil_free n = true) out.
Proof.
  induction out as [|s out IH].
  - split; [constructor|reflexivity].
  - rewrite nil_free_cons, IH. split.
    + intros [Hs Hout]. constructor; assumption.
    + intros Hall. inversion Hall; subst. split; assumption.
Qed.

Lemma nil_free_children g :
  nil_free g = true -> Forall (fun s => exists n, s = Some n /\ nil_free n = true) (Out g).
Proof. destruct g as [t out]. apply nil_free_Forall. Qed.

Lemma nil_free_lookup g k n :
  nil_free g = true -> Out g !! k = Some (Some n) -> nil_free n = true.
Proof.
  intros Hg Hk. apply nil_free_children in Hg.
  rewrite Forall_lookup in Hg. destruct (Hg _ _ Hk) as (m & [= <-] & Hm). assumption.
Qed.

Lemma nil_free_lookup_Some g k s :
  nil_free g = true -> Out g !! k = Some s -> exists n, s = Some n /\ nil_free n = true.
Proof.
  intros Hg Hk. apply nil_free_children in Hg.
  rewrite Forall_lookup in Hg. eauto.
Qed.

Lemma Depth_returns g : nil_free g = true -> returns (Depth g).
Proof.
  induction g as [t out IH] using Graph_children_ind. intros Hnf.
  unfold Depth; fold Depth.
  destruct (Z.of_nat (length out) =? 0); [eexists; reflexivity|].
  assert (Hr : forall i, returns (Depth_range Depth out i)).
  { apply nil_free_Forall in Hnf. clear t.
    induction out as [|s out IHout]; intros i; [eexists; reflexivity|].
    inversion Hnf as [|? ? (n & -> & Hn) Hrest]; subst.
    inversion IH as [|? ? Hs Hall]; subst.
    destruct (Hs n eq_refl Hn) as [j Hj]. cbn [Depth_range]. rewrite Hj. cbn [bindO].
    apply IHout; assumption. }
  destruct (Hr 0) as [i Hi]. rewrite Hi. cbn [bindO].
  destruct (i >? 100); eexists; reflexivity.
Qed.

Lemma iface_eq_returns same_addr a b :
  comparable_content b = true -> returns (iface_eq same_addr a b).
Proof.
  intros Hb. destruct b; try discriminate Hb;
    destruct a as [| | | | | | | |[x|]]; try (eexists; reflexivity);
    destruct p; eexists; reflexivity.
Qed.

Lemma comparable_inv t out :
  comparable (mkGraph t out) = true ->
  comparable_content t = true /\
  Forall (fun s => forall n, s = Some n -> comparable n = true) out.
Proof.
  cbn [comparable]. rewrite andb_true_iff, forallb_forall. intros [Ht Hout].
  split; [assumption|]. apply Forall_forall. intros s Hin n ->.
  apply list_elem_of_In in Hin. apply (Hout _ Hin).
Qed.

Lemma Equals_returns same_addr g : forall c,
  nil_free g = true -> nil_free c = true -> comparable g = true ->
  returns (Equals same_addr g c).
Proof.
  induction g as [t out IH] using Graph_children_ind. intros c Hg Hc Hcmp.
  apply comparable_inv in Hcmp as [Ht Hcs].
  unfold Equals; fold Equals.
  destruct (iface_eq_returns same_addr (This c) t Ht) as [e He]. rewrite He. cbn [bindO].
  destruct (negb e); [eexists; reflexivity|].
  destruct (Z.eqb_spec (Z.of_nat (length out)) (Z.of_nat (length (Out c)))) as [Hlen|];
    [|eexists; reflexivity]. cbn [negb].
  apply Nat2Z.inj in Hlen. apply nil_free_Forall in Hg. apply nil_free_children in Hc.
  revert Hlen Hc. generalize (Out c) as cs. clear c He t Ht.
  induction out as [|s out IHout]; intros cs Hlen Hc; [eexists; reflexivity|].
  destruct cs as [|s' cs]; [discriminate|].
  inversion Hg as [|? ? (n & -> & Hn) Hgrest]; subst.
  inversion Hc as [|? ? (m & -> & Hm) Hcrest]; subst.
  inversion IH as [|? ? IHn IHrest]; subst.
  inversion Hcs as [|? ? Hcn Hcrest']; subst.
  cbn [Equals_loop].
  destruct (IHn n eq_refl m Hn Hm (Hcn n eq_refl)) as [b Hb]. rewrite Hb. cbn [bindO].
  destruct b; [|eexists; reflexivity].
  apply IHout; try assumption. cbn in Hlen. lia.
Qed.

Lemma calc_panics_on_zero_divisor {H : Helpers} v1 v2 op e :
  calc v1 v2 op = Panic e -> e = DivideByZero /\ (op = op_div \/ op = op_mod).
Proof.
  unfold calc, block, arith_switch, VInt64_of, VInt_of, div64, rem64.
  destruct (Z.eqb_spec op op_add); [subst|];
    [|destruct (Z.eqb_spec op op_sub); [subst|];
      [|destruct (Z.eqb_spec op op_mul); [subst|];
        [|destruct (Z.eqb_spec op op_div); [subst|];
          [|destruct (Z.eqb_spec op op_mod); [subst|]]]]];
    destruct v1, v2; cbn;
    repeat match goal with
           | |- context [if ?b then _ else _] => destruct b
           end;
    try discriminate; intros [= <-]; auto.
Qed.

Section Returns.

Context {H : Helpers}.

Lemma findNode_returns s out : forall k,
  Forall (fun s => exists n, s = Some n /\ nil_free n = true) out ->
  exists r, findNode out s k = Ok r /\
            forall k' n, r = Some (k', n) -> nil_free n = true.
Proof.
  induction out as [|x out IH]; intros k Hall.
  - exists None. split; [reflexivity|discriminate].
  - inversion Hall as [|? ? (n & -> & Hn) Hrest]; subst. cbn [findNode].
    destruct (String.eqb s (_string (This n))).
    + eexists. split; [reflexivity|]. intros k' n' [= <- <-]. assumption.
    + apply IH. assumption.
Qed.

Lemma Node_returns node s :
  nil_free node = true ->
  exists r, Node node s = Ok r /\ forall n, r = Some n -> nil_free n = true.
Proof.
  intros Hn. apply nil_free_children in Hn.
  destruct (findNode_returns s (Out node) 0%nat Hn) as (r & Hr & Hnf).
  unfold Node. rewrite Hr. cbn [bindO]. eexists. split; [reflexivity|].
  destruct r as [[k n]|]; cbn; [|discriminate]. intros n' [= <-]. eapply Hnf. reflexivity.
Qed.

Lemma GetAt_nil_free node i n :
  nil_free node = true -> GetAt node i = Some n -> nil_free n = true.
Proof.
  unfold GetAt. intros Hn.
  destruct ((Z.of_nat (length (Out node)) <=? i) || (i <? 0)); [discriminate|].
  destruct (Out node !! Z.to_nat i) as [s|] eqn:E; [|discriminate].
  cbn. intros ->. eapply nil_free_lookup; eassumption.
Qed.

Lemma sibling_values_nil_free x out :
  Forall (fun s => exists n, s = Some n /\ nil_free n = true) out ->
  Forall (fun s => exists n, s = Some n /\ nil_free n = true) (sibling_values x out).
Proof.
  induction out as [|s out IH]; intros Hall; [constructor|].
  inversion Hall as [|? ? (n & -> & Hn) Hrest]; subst.
  cbn [sibling_values flat_map]. apply Forall_app. split; [|apply IH; assumption].
  destruct (String.eqb x (_string (This n))); [|constructor].
  apply nil_free_children. assumption.
Qed.

Lemma select_ith_nil_free x out : forall i i' r,
  Forall (fun s => exists n, s = Some n /\ nil_free n = true) out ->
  select_ith out x i = (i', Some r) -> nil_free r = true.
Proof.
  induction out as [|s out IH]; intros i i' r Hall Hsel; [discriminate|].
  inversion Hall as [|? ? (n & -> & Hn) Hrest]; subst. cbn [select_ith] in Hsel.
  destruct (String.eqb (ThisString (Some n)) x).
  - destruct (wrap64 (i - 1) =? 0).
    + injection Hsel as <- <-. cbn. apply nil_free_children in Hn.
      destruct n as [t o]. apply (proj2 (nil_free_Forall VNil o)). assumption.
    + eapply IH; eassumption.
  - eapply IH; eassumption.
Qed.

Lemma first_child_returns e :
  (Len (Some e) =? 0) = false -> returns (first_child (Some e)).
Proof.
  cbn. destruct (Out e); [discriminate|]. intros _. eexists. reflexivity.
Qed.

(** [get] returns on a graph and a path without nil slots. *)
Lemma get_loop_returns : forall elems node np ep ik,
  nil_free node = true ->
  (forall n, np = Some n -> nil_free n = true) ->
  Forall (fun e => e <> None) elems ->
  returns (get_loop node np ep ik elems).
Proof.
  induction elems as [|elem elems IH]; intros node np ep ik Hn Hnp Hall.
  - eexists. reflexivity.
  - inversion Hall as [|? ? He Hrest]; subst.
    destruct elem as [e|]; [clear He|congruence]. cbn [get_loop].
    destruct (String.eqb (ThisString (Some e)) TypeIndex).
    { destruct (Len (Some e) =? 0) eqn:EL; [eexists; reflexivity|].
      destruct (first_child_returns e EL) as [c Hc]. rewrite Hc. cbn [bindO].
      destruct (Atoi (ThisString c)) as [i|]; [|eexists; reflexivity].
      destruct (GetAt node i) as [node'|] eqn:EG; [|eexists; reflexivity].
      apply IH; [eapply GetAt_nil_free; eassumption| |assumption].
      intros n [= <-]. assumption. }
    destruct (String.eqb (ThisString (Some e)) TypeSelector).
    { destruct np as [np|]; [|eexists; reflexivity].
      specialize (Hnp np eq_refl).
      destruct ((Len (Some np) =? 0) || (Z.of_nat (String.length ep) =? 0));
        [eexists; reflexivity|].
      pose proof (nil_free_children _ Hnp) as Hch.
      destruct (Len (Some e) =? 0) eqn:EL.
      - destruct np as [t out]. cbn [Out] in Hch.
        rewrite addEqualNodes_flat
          by (eapply Forall_impl; [exact Hch|]; intros s (n & -> & _); discriminate).
        cbn [bindO New length Nat.eqb Out app].
        destruct (Z.of_nat (length (sibling_values ep out)) =? 0); [eexists; reflexivity|].
        apply IH; [|intros n [= <-]; assumption|assumption].
        apply nil_free_Forall. apply sibling_values_nil_free. assumption.
      - destruct (first_child_returns e EL) as [c Hc]. rewrite Hc. cbn [bindO].
        destruct (Atoi (ThisString c)) as [i|]; [|eexists; reflexivity].
        destruct (i <? 0); [eexists; reflexivity|].
        destruct (select_ith (Out np) ep (wrap64 (i + 1))) as [i' sel] eqn:ES.
        destruct (i' >? 0); [eexists; reflexivity|].
        apply IH; [|intros n [= <-]; assumption|assumption].
        destruct sel as [r|]; [|assumption].
        eapply select_ith_nil_free; eassumption. }
    destruct (String.eqb (ThisString (Some e)) "_len"); [eexists; reflexivity|].
    destruct (Node_returns node (ThisString (Some e)) Hn) as (r & Hr & Hnf).
    rewrite Hr. cbn [bindO]. destruct r as [node'|]; [|eexists; reflexivity].
    apply IH; [eapply Hnf; reflexivity| |assumption].
    intros n [= <-]. assumption.
Qed.

Lemma set_index_in_range node i val :
  0 <= i < MaxSlots -> returns (set_index node i val).
Proof.
  intros Hi. destruct (Z.le_gt_cases (Z.of_nat (length (Out node))) i).
  - rewrite set_index_grow by lia. eexists. reflexivity.
  - rewrite set_index_inside by lia. eexists. reflexivity.
Qed.

Lemma set_build_returns val : forall elems node,
  Forall set_elem elems -> returns (set_build node elems val).
Proof.
  induction elems as [|elem elems IH]; intros node Hall; [eexists; reflexivity|].
  inversion Hall as [|? ? [He Hi] Hrest]; subst. cbn [set_build].
  destruct (String.eqb_spec (ThisString elem) TypeIndex) as [E|E].
  { apply set_index_in_range. auto. }
  destruct elem as [e|]; [|congruence].
  destruct (This e) as [| | | | | | | |[h|]];
    match goal with
    | |- context [set_build ?m elems val] =>
        destruct (IH m Hrest) as [[x ret] Hx]; rewrite Hx; cbn [bindO]
    end; try (eexists; reflexivity).
  destruct (IsNil h); eexists; reflexivity.
Qed.

Lemma set_walk_returns val : forall elems node,
  nil_free node = true -> Forall set_elem elems -> returns (set_walk node elems val).
Proof.
  induction elems as [|elem elems IH]; intros node Hn Hall; [eexists; reflexivity|].
  inversion Hall as [|? ? [He Hi] Hrest]; subst. cbn [set_walk].
  destruct (String.eqb_spec (ThisString elem) TypeIndex) as [E|E].
  { apply set_index_in_range. auto. }
  destruct (findNode_returns (ThisString elem) (Out node) 0%nat (nil_free_children _ Hn))
    as (r & Hr & Hnf).
  rewrite Hr. cbn [bindO]. destruct r as [[k child]|].
  - destruct (IH child (Hnf _ _ eq_refl) Hrest) as [[c' ret] Hc]. rewrite Hc.
    eexists. reflexivity.
  - apply set_build_returns. assumption.
Qed.

End Returns.

Lemma field_elem_set_elem {H : Helpers} e : field_elem e -> set_elem e.
Proof.
  intros (e' & -> & Hi & _). split; [discriminate|]. intros E. destruct (Hi E).
Qed.

(** The node a terminal write returns when the value is a scalar. *)
Lemma set_walk_scalar_result {H : Helpers} v :
  (forall h, v <> VPtr (Some h)) ->
  forall elems g g' r,
    Forall field_elem elems -> set_walk g elems v = Ok (g', r) -> r = leaf v.
Proof.
  intros Hv.
  assert (Hadd : forall n, Add n v = (mkGraph (This n) (Out n ++ [Some (leaf v)]), leaf v)).
  { intros n. destruct v as [| | | | | | | |[h|]]; try reflexivity. destruct (Hv h). reflexivity. }
  assert (Hbuild : forall l g g' r,
             Forall field_elem l -> set_build g l v = Ok (g', r) -> r = leaf v).
  { induction l as [|e l IH]; intros g g' r Hall Hs.
    - cbn in Hs. unfold set_terminal in Hs. rewrite Hadd in Hs. congruence.
    - inversion Hall as [|? ? He Hrest]; subst.
      pose proof He as (e' & -> & _).
      rewrite set_build_field in Hs by assumption.
      destruct (set_build (mkGraph (This e') []) l v) as [[gg' ret]|] eqn:Eb; [|discriminate].
      cbn in Hs. injection Hs as <- <-. eapply IH; eassumption. }
  induction elems as [|e elems IH]; intros g g' r Hall Hs.
  - cbn in Hs. unfold set_terminal in Hs. rewrite Hadd in Hs. congruence.
  - inversion Hall as [|? ? He Hrest]; subst.
    pose proof He as (e' & -> & Hi & _).
    cbn [set_walk] in Hs. apply String.eqb_neq in Hi. rewrite Hi in Hs.
    destruct (findNode (Out g) (ThisString (Some e')) 0) as [[[k child]|]|];
      cbn [bindO] in Hs; [| |discriminate].
    + destruct (set_walk child elems v) as [[child' ret]|] eqn:Ew; [|discriminate].
      cbn in Hs. injection Hs as <- <-. eapply IH; eassumption.
    + exact (Hbuild _ _ _ _ Hall Hs).
Qed.

(** C3. For a path of plain field names: the write returns on every
    graph without nil child slots; and whenever the write has returned,
    reading the same path in the written graph returns the node at the
    path, whose children are exactly what composing the written value
    into a node leaves, the single leaf holding [v] when [v] is a
    scalar (that leaf is also what the write returned). *)
Theorem set_then_get {H : Helpers} g path v :
  Forall field_elem (Out path) ->
  (nil_free g = true -> returns (set g (Some path) v)) /\
  (forall g' r,
      set g (Some path) v = Ok (g', r) ->
      exists node,
        get (Some g') (Some path) = Ok (Some node) /\
        Out node = written v /\
        ((forall h, v <> VPtr (Some h)) -> Out node = [Some (leaf v)] /\ r = leaf v)).
Proof.
  intros Hall. split.
  - intros Hg. apply set_walk_returns; [assumption|].
    eapply Forall_impl; [exact Hall|]. intros e. apply field_elem_set_elem.
  - intros g' r Hs. cbn [set] in Hs.
    destruct (set_walk_then_get v (Out path) g g' r None "" Hall Hs) as (final & Hg & Ho).
    exists final. cbn [get]. split; [assumption|]. split; [assumption|].
    intros Hv. split; [|eapply set_walk_scalar_result; eassumption].
    rewrite Ho. unfold written.
    destruct v as [| | | | | | | |[h|]]; try reflexivity. destruct (Hv h). reflexivity.
Qed.

(** A write of [7] at [a.b] over two old values, read back. *)
Lemma set_then_get_witness :
  set (H:=Ref.helpers)
      (Ref.root [Ref.named "a" [Ref.named "b" [Ref.str "old"; Ref.str "older"]]])
      (Some (Ref.path [Ref.str "a"; Ref.str "b"])) (VInt64 7) =
  Ok (Ref.root [Ref.named "a" [Ref.named "b" [Ref.leaf_int 7]]], leaf (VInt64 7)) /\
  exists node,
    get (H:=Ref.helpers)
        (Some (Ref.root [Ref.named "a" [Ref.named "b" [Ref.leaf_int 7]]]))
        (Some (Ref.path [Ref.str "a"; Ref.str "b"])) = Ok (Some node) /\
    Out node = [Some (leaf (VInt64 7))].
Proof.
  split; [reflexivity|].
  destruct (proj2 (set_then_get (H:=Ref.helpers)
              (Ref.root [Ref.named "a" [Ref.named "b" [Ref.str "old"; Ref.str "older"]]])
              (Ref.path [Ref.str "a"; Ref.str "b"]) (VInt64 7)
              ltac:(repeat constructor; eexists; (split; [reflexivity|]);
                    repeat split; try discriminate; reflexivity))
              (Ref.root [Ref.named "a" [Ref.named "b" [Ref.leaf_int 7]]])
              (leaf (VInt64 7)) eq_refl)
    as (node & Hg & Ho & _).
  exists node. split; assumption.
Defined.

(** C4 (as amended). On graphs and paths without nil child slots the
    path engine and the probes return: [get] always (a failure is the
    nil result); [set] for every path of field names and of index
    elements whose index is not negative and below 2^45 ([MaxSlots],
    the longest slice of pointers the run-time makes); [Depth] always; [Equals] when no content on the receiver's
    side is a slice.  [calc] panics on an integer division or remainder
    by zero and on nothing else. *)
Theorem core_operations_return {H : Helpers} :
  (forall path, get None path = Ok None) /\
  (forall g, get (Some g) None = Ok None) /\
  (forall g path,
      nil_free g = true -> Forall (fun e => e <> None) (Out path) ->
      returns (get (Some g) (Some path))) /\
  (forall g path v,
      nil_free g = true -> Forall set_elem (Out path) ->
      returns (set g (Some path) v)) /\
  (forall g, nil_free g = true -> returns (Depth g)) /\
  (forall same_addr g c,
      nil_free g = true -> nil_free c = true -> comparable g = true ->
      returns (Equals same_addr g c)) /\
  (forall v1 v2 op e,
      calc v1 v2 op = Panic e -> e = DivideByZero /\ (op = op_div \/ op = op_mod)).
Proof.
  repeat split.
  - intros g path Hg Hp. apply get_loop_returns; [assumption|discriminate|assumption].
  - intros g path v Hg Hp. apply set_walk_returns; assumption.
  - apply Depth_returns.
  - intros. apply Equals_returns; assumption.
  - eapply calc_panics_on_zero_divisor; eassumption.
  - eapply calc_panics_on_zero_divisor; eassumption.
Qed.

(** The four operations on a small graph. *)
Lemma core_operations_return_witness :
  returns (get (H:=Ref.helpers)
             (Some (Ref.root [Ref.named "a" [Ref.str "1"; Ref.str "2"]]))
             (Some (Ref.path [Ref.str "a"; Ref.index "5"]))) /\
  returns (set (H:=Ref.helpers)
             (Ref.root [Ref.named "a" [Ref.str "1"; Ref.str "2"]])
             (Some (Ref.path [Ref.str "b"; Ref.index "5"])) (VInt64 7)) /\
  returns (Depth (Ref.root [Ref.named "a" [Ref.str "1"; Ref.str "2"]])) /\
  returns (Equals (fun _ _ => false)
             (Ref.root [Ref.named "a" [Ref.str "1"]]) (Ref.root [Ref.named "a" [Ref.leaf_int 1]])).
Proof.
  pose proof (core_operations_return (H:=Ref.helpers)) as (_ & _ & Hget & Hset & Hdepth & Heq & _).
  split; [|split; [|split]].
  - apply Hget; [reflexivity|repeat constructor; discriminate].
  - apply Hset; [reflexivity|].
    repeat constructor; try discriminate; intros _; vm_compute; split; discriminate.
  - apply Hdepth. reflexivity.
  - apply Heq; reflexivity.
Defined.

(** C4 (counterexample). The expression [1 / 0] panics with an integer
    division by zero; an operator node with one operand panics on the
    missing slot; [Equals] panics on two byte-sequence contents; a
    field lookup panics on the nil slot that an index write left; and a
    write at index 2^45 panics in [make]. *)
Lemma core_operations_can_panic :
  EvalExpression (H:=Ref.helpers) (Ref.root []) (binop "/" (Ref.str "1") (Ref.str "0")) =
  Panic DivideByZero /\
  EvalExpression (H:=Ref.helpers) (Ref.root []) (Ref.named "+" [Ref.str "1"]) =
  Panic IndexOutOfRange /\
  Equals (fun _ _ => false) (leaf (VBytes [])) (leaf (VBytes [])) = Panic Uncomparable /\
  set (H:=Ref.helpers) (Ref.root []) (Some (Ref.path [Ref.index "1"])) (VInt64 7) =
  Ok (mkGraph VNil [None; Some (New [VInt64 7])], New [VInt64 7]) /\
  get (H:=Ref.helpers) (Some (mkGraph VNil [None; Some (New [VInt64 7])]))
      (Some (Ref.path [Ref.str "a"])) = Panic NilDeref /\
  set (H:=Ref.helpers) (Ref.root []) (Some (Ref.path [Ref.index "35184372088832"]))
      (VInt64 7) = Panic MakeSliceLen.
Proof. repeat split. Qed.

(** ** Depth on a node that contains itself *)

(** On a tree in the store the probe returns as on the tree type. *)
Lemma Shared_Depth_small_tree :
  Shared.Depth 4 Shared.small_tree 0 = Some (Ok 2).
Proof. vm_compute. reflexivity. Qed.

(** On a self-referential node no call budget is enough: the recursion
    of [Depth] goes on until the stack is exhausted, and [-1] is never
    returned. *)
Lemma Shared_Depth_self_loop budget :
  Shared.Depth budget Shared.self_loop 0 = None.
Proof.
  induction budget as [|budget IH]; [reflexivity|].
  cbn [Shared.Depth].
  replace (Shared.self_loop !! 0%nat) with (Some [0%nat])
    by (symmetry; apply lookup_singleton_eq).
  cbn -[Shared.Depth]. rewrite IH. reflexivity.
Qed.

(** * Further properties of the graph source *)

(** ** Copy *)

Lemma scalar_below_cons t s out :
  scalar_below (mkGraph t (s :: out)) = true <->
  (forall n, s = Some n -> node_free (This n) = true /\ scalar_below n = true) /\
  scalar_below (mkGraph t out) = true.
Proof.
  cbn [scalar_below forallb]. rewrite andb_true_iff. split.
  - intros [Hs Hout]. split; [|assumption]. intros n ->.
    apply andb_true_iff in Hs. assumption.
  - intros [Hs Hout]. split; [|assumption]. destruct s as [n|]; [|reflexivity].
    apply andb_true_iff. apply Hs. reflexivity.
Qed.

Lemma Copy_range_scalar (ns : list (option Graph)) : forall g,
  Forall (fun s => forall n, s = Some n ->
            nil_free n = true -> scalar_below n = true ->
            forall g0, Copy g0 n = Ok (mkGraph (This g0) (Out g0 ++ Out n))) ns ->
  nil_free (mkGraph VNil ns) = true -> scalar_below (mkGraph VNil ns) = true ->
  Copy_range (fun h n => Copy h n) ns g = Ok (mkGraph (This g) (Out g ++ ns)).
Proof.
  induction ns as [|s ns IHns]; intros g IH Hnf Hsc.
  - cbn. rewrite app_nil_r. destruct g; reflexivity.
  - apply nil_free_cons in Hnf as [(n & -> & Hn) Hrest].
    apply scalar_below_cons in Hsc as [Hs Hsrest].
    destruct (Hs n eq_refl) as [Hfree Hscn].
    inversion IH as [|? ? IHn IHrest]; subst.
    cbn [Copy_range].
    assert (Hstep : forall v, This n = v ->
              Copy (mkGraph v []) n = Ok (mkGraph v (Out n))).
    { intros v <-. rewrite (IHn n eq_refl Hn Hscn). reflexivity. }
    assert (Hn_eq : mkGraph (This n) (Out n) = n) by (destruct n; reflexivity).
    destruct (This n) as [| | | | | | | |[h|]] eqn:E; try discriminate Hfree;
      rewrite (Hstep _ eq_refl); cbn [bindO]; rewrite Hn_eq;
      rewrite IHns by assumption; cbn [This Out]; rewrite <- app_assoc; reflexivity.
Qed.

(** X1. [Copy] makes a deep clone: when the source has no nil child slot
    and no content below its root is a pointer to a node, the children
    of the source are appended to the receiver as structurally equal
    trees, in order; the receiver's content and its own children stay. *)
Theorem Copy_appends_clone g c :
  nil_free c = true -> scalar_below c = true ->
  Copy g c = Ok (mkGraph (This g) (Out g ++ Out c)).
Proof.
  revert g. induction c as [t out IH] using Graph_children_ind. intros g Hnf Hsc.
  cbn [Copy Out]. apply Copy_range_scalar.
  - eapply Forall_impl; [exact IH|]. intros s Hs n -> Hn Hscn g0. apply (Hs n eq_refl); assumption.
  - apply (proj2 (nil_free_Forall VNil out)). apply (proj1 (nil_free_Forall t out)). assumption.
  - destruct out; exact Hsc.
Qed.

(** A two-level tree copied below an existing child. *)
Lemma Copy_appends_clone_witness :
  Copy (Ref.root [Ref.str "z"])
       (Ref.root [Ref.named "a" [Ref.str "1"; Ref.leaf_int 2]; Ref.str "b"]) =
  Ok (Ref.root [Ref.str "z"; Ref.named "a" [Ref.str "1"; Ref.leaf_int 2]; Ref.str "b"]).
Proof.
  apply (Copy_appends_clone (Ref.root [Ref.str "z"])
           (Ref.root [Ref.named "a" [Ref.str "1"; Ref.leaf_int 2]; Ref.str "b"])
           eq_refl eq_refl).
Defined.

(** ** Equals *)

Lemma iface_eq_discrete same_addr a t :
  discrete t = true -> (iface_eq same_addr a t = Ok true <-> a = t).
Proof.
  intros Ht. destruct t; try discriminate Ht; destruct a as [| | | | | | | |[x|]];
    cbn; split; intros E; try discriminate E; try reflexivity.
  - injection E as E. apply Bool.eqb_prop in E. congruence.
  - injection E as ->. rewrite Bool.eqb_reflx. reflexivity.
  - injection E as E. apply Z.eqb_eq in E. congruence.
  - injection E as ->. rewrite Z.eqb_refl. reflexivity.
  - injection E as E. apply Z.eqb_eq in E. congruence.
  - injection E as ->. rewrite Z.eqb_refl. reflexivity.
  - injection E as E. apply String.eqb_eq in E. congruence.
  - injection E as ->. rewrite String.eqb_refl. reflexivity.
Qed.

Lemma all_contents_inv P t out :
  all_contents P (mkGraph t out) = true ->
  P t = true /\ Forall (fun s => forall n, s = Some n -> all_contents P n = true) out.
Proof.
  cbn [all_contents]. rewrite andb_true_iff, forallb_forall. intros [Ht Hout].
  split; [assumption|]. apply Forall_forall. intros s Hin n ->.
  apply list_elem_of_In in Hin. apply (Hout _ Hin).
Qed.

(** X2. On a receiver without nil child slots whose contents are nil,
    booleans, integers or strings, [Equals] answers true exactly when
    the two graphs are the same tree (same contents, same children in
    the same order), whatever the argument is. *)
Theorem Equals_decides_equality same_addr g c :
  nil_free g = true -> all_contents discrete g = true ->
  (Equals same_addr g c = Ok true <-> g = c).
Proof.
  revert c. induction g as [t out IH] using Graph_children_ind. intros c Hnf Hd.
  apply all_contents_inv in Hd as [Ht Hds]. apply nil_free_Forall in Hnf.
  destruct c as [ct cout]. unfold Equals; fold Equals. cbn [This Out].
  assert (Hloop : forall cs,
             length out = length cs ->
             (Equals_loop (Equals same_addr) out cs = Ok true <-> out = cs)).
  { clear Ht t ct. revert IH Hnf Hds. induction out as [|s out IHout]; intros IH Hnf Hds cs Hlen.
    - destruct cs; [|discriminate]. cbn. split; reflexivity.
    - destruct cs as [|s' cs]; [discriminate|].
      inversion Hnf as [|? ? (n & -> & Hn) Hrest]; subst.
      inversion IH as [|? ? IHn IHrest]; subst.
      inversion Hds as [|? ? Hdn Hdrest]; subst.
      cbn [Equals_loop]. destruct s' as [m|].
      + specialize (IHn n eq_refl m Hn (Hdn n eq_refl)).
        destruct (Equals same_addr n m) as [[|]|e] eqn:E; cbn [bindO].
        * rewrite (IHout IHrest Hrest Hdrest cs) by (cbn in Hlen; lia).
          assert (n = m) by (apply IHn; reflexivity). subst m.
          split; [intros ->; reflexivity | intros [= ->]; reflexivity].
        * split; [discriminate|]. intros [= -> ->].
          assert (Ok false = Ok true) by (apply IHn; reflexivity). discriminate.
        * split; [discriminate|]. intros [= -> ->].
          assert (Panic e = Ok true) by (apply IHn; reflexivity). discriminate.
      + split; [discriminate|]. intros [=]. }
  pose proof (iface_eq_discrete same_addr ct t Ht) as Hc.
  destruct (iface_eq same_addr ct t) as [[|]|e]; cbn [bindO negb].
  - assert (ct = t) by (apply Hc; reflexivity). subst ct.
    destruct (Z.eqb_spec (Z.of_nat (length out)) (Z.of_nat (length cout))) as [Hlen|Hlen];
      cbn [negb].
    + apply Nat2Z.inj in Hlen. rewrite (Hloop cout Hlen).
      split; [intros ->; reflexivity | intros [= ->]; reflexivity].
    + split; [discriminate|]. intros [= ->]. destruct Hlen. reflexivity.
  - split; [discriminate|]. intros [= -> ->].
    assert (Ok false = Ok true) by (apply Hc; reflexivity). discriminate.
  - split; [discriminate|]. intros [= -> ->].
    assert (Panic e = Ok true) by (apply Hc; reflexivity). discriminate.
Qed.

(** A tree equals itself and differs from the tree with one leaf changed. *)
Lemma Equals_decides_equality_witness :
  Equals (fun _ _ => false) (Ref.root [Ref.named "a" [Ref.leaf_int 1]])
         (Ref.root [Ref.named "a" [Ref.leaf_int 1]]) = Ok true.
Proof.
  apply (Equals_decides_equality (fun _ _ => false)
           (Ref.root [Ref.named "a" [Ref.leaf_int 1]])
           (Ref.root [Ref.named "a" [Ref.leaf_int 1]]) eq_refl eq_refl).
  reflexivity.
Defined.

(** ** Delete and DeleteAt *)

Lemma Delete_loop_filter same_addr n rest : forall kept,
  Forall (fun s => exists c, s = Some c /\ nil_free c = true) rest ->
  comparable_content n = true ->
  Delete_loop same_addr n kept rest =
  Ok (kept ++ List.filter (content_differs same_addr n) rest).
Proof.
  induction rest as [|s rest IH]; intros kept Hall Hn.
  - cbn. rewrite app_nil_r. reflexivity.
  - inversion Hall as [|? ? (c & -> & _) Hrest]; subst.
    cbn [Delete_loop List.filter content_differs].
    destruct (iface_eq_returns same_addr (This c) n Hn) as [e He]. rewrite He. cbn [bindO].
    destruct e.
    + apply IH; assumption.
    + rewrite IH by assumption. rewrite <- app_assoc. reflexivity.
Qed.

Lemma filter_content_differs_idem same_addr n (l : list (option Graph)) :
  List.filter (content_differs same_addr n) (List.filter (content_differs same_addr n) l) =
  List.filter (content_differs same_addr n) l.
Proof.
  induction l as [|s l IH]; [reflexivity|]. cbn [List.filter].
  destruct (content_differs same_addr n s) eqn:E; [|assumption].
  cbn [List.filter]. rewrite E, IH. reflexivity.
Qed.

(** X3. [Delete] with a value that can be compared removes exactly the
    children whose content equals the value: the other children stay,
    in their order, the receiver's content stays, and a second [Delete]
    of the same value changes nothing.  (No nil child slot in the
    receiver.) *)
Theorem Delete_removes_equal_children same_addr g n :
  nil_free g = true -> comparable_content n = true ->
  Delete same_addr g n =
  Ok (mkGraph (This g) (List.filter (content_differs same_addr n) (Out g))) /\
  Delete same_addr (mkGraph (This g) (List.filter (content_differs same_addr n) (Out g))) n =
  Ok (mkGraph (This g) (List.filter (content_differs same_addr n) (Out g))).
Proof.
  intros Hnf Hn. apply nil_free_children in Hnf.
  assert (Hf : Forall (fun s => exists c, s = Some c /\ nil_free c = true)
                 (List.filter (content_differs same_addr n) (Out g))).
  { apply Forall_forall. intros s Hin. apply list_elem_of_In, filter_In in Hin as [Hin _].
    rewrite Forall_forall in Hnf. apply Hnf. apply list_elem_of_In. assumption. }
  unfold Delete. cbn [Out This].
  rewrite !Delete_loop_filter by assumption. cbn [bindO app].
  rewrite filter_content_differs_idem. split; reflexivity.
Qed.

(** Deleting the string [b] among four children. *)
Lemma Delete_removes_equal_children_witness :
  Delete (fun _ _ => false)
         (Ref.root [Ref.str "a"; Ref.str "b"; Ref.leaf_int 3; Ref.str "b"]) (VString "b") =
  Ok (Ref.root [Ref.str "a"; Ref.leaf_int 3]).
Proof.
  apply (proj1 (Delete_removes_equal_children (fun _ _ => false)
                  (Ref.root [Ref.str "a"; Ref.str "b"; Ref.leaf_int 3; Ref.str "b"])
                  (VString "b") eq_refl eq_refl)).
Defined.

Lemma GetAt_lookup g i :
  0 <= i -> GetAt g i = mjoin (Out g !! Z.to_nat i).
Proof.
  intros Hi. unfold GetAt.
  destruct (Z.leb_spec (Z.of_nat (length (Out g))) i) as [Hle|Hlt].
  - cbn [orb]. rewrite lookup_ge_None_2 by lia. reflexivity.
  - destruct (Z.ltb_spec i 0); [lia|]. reflexivity.
Qed.

(** X4. [DeleteAt] with an index out of range (negative, or at or beyond
    the child count) changes nothing.  With an index in range it removes
    that one slot: there is one child less, the slots before [i] keep
    their position and every later slot moves down by one. *)
Theorem DeleteAt_removes_one_slot g i :
  (i < 0 \/ Z.of_nat (length (Out g)) <= i -> DeleteAt g i = g) /\
  (0 <= i < Z.of_nat (length (Out g)) ->
   This (DeleteAt g i) = This g /\
   Z.of_nat (length (Out (DeleteAt g i))) = Z.of_nat (length (Out g)) - 1 /\
   forall j, 0 <= j ->
             GetAt (DeleteAt g i) j = GetAt g (if j <? i then j else j + 1)).
Proof.
  unfold DeleteAt. cbn [Len]. split.
  - intros [Hi|Hi].
    + destruct (Z.ltb_spec i 0); [reflexivity|lia].
    + destruct (Z.leb_spec (Z.of_nat (length (Out g))) i); [|lia].
      rewrite orb_true_r. reflexivity.
  - intros Hi. destruct (Z.ltb_spec i 0); [lia|].
    destruct (Z.leb_spec (Z.of_nat (length (Out g))) i); [lia|]. cbn [orb This Out].
    split; [reflexivity|]. split.
    + rewrite length_app, length_take, length_drop. lia.
    + intros j Hj. rewrite !GetAt_lookup by (destruct (j <? i); lia). cbn [Out]. f_equal.
      destruct (Z.ltb_spec j i).
      * rewrite lookup_app_l by (rewrite length_take; lia).
        apply lookup_take_lt. lia.
      * rewrite lookup_app_r by (rewrite length_take; lia).
        rewrite length_take, lookup_drop. f_equal. lia.
Qed.

(** Removing slot [1] of three. *)
Lemma DeleteAt_removes_one_slot_witness :
  GetAt (DeleteAt (Ref.root [Ref.str "a"; Ref.str "b"; Ref.str "c"]) 1) 1 =
  GetAt (Ref.root [Ref.str "a"; Ref.str "b"; Ref.str "c"]) 2.
Proof.
  apply (proj2 (DeleteAt_removes_one_slot (Ref.root [Ref.str "a"; Ref.str "b"; Ref.str "c"]) 1)
           ltac:(cbn; lia)).
  lia.
Defined.

(** ** Substitute *)

Section SubstituteFacts.

Context {H : Helpers}.

Lemma reads_below_cons s t n out :
  reads_below s (mkGraph t (Some n :: out)) =
  (String.eqb (_string (This n)) s || reads_below s n) || reads_below s (mkGraph VNil out).
Proof. reflexivity. Qed.

Lemma Substitute_range_spec s v (ns : list (option Graph)) :
  Forall (fun slot => forall n, slot = Some n ->
            nil_free n = true ->
            exists n', Substitute n s v = Ok n' /\ This n' = This n /\
                       shape n' = shape n /\ nil_free n' = true /\
                       (_string v <> s -> reads_below s n' = false) /\
                       (reads_below s n = false -> n' = n)) ns ->
  nil_free (mkGraph VNil ns) = true ->
  exists ns',
    Substitute_range (fun n => Substitute n s v) s v ns = Ok ns' /\
    shape (mkGraph VNil ns') = shape (mkGraph VNil ns) /\
    nil_free (mkGraph VNil ns') = true /\
    (_string v <> s -> reads_below s (mkGraph VNil ns') = false) /\
    (reads_below s (mkGraph VNil ns) = false -> ns' = ns).
Proof.
  induction ns as [|slot ns IHns]; intros IH Hnf.
  - exists []. repeat split; reflexivity.
  - apply nil_free_cons in Hnf as [(n & -> & Hn) Hrest].
    inversion IH as [|? ? IHn IHrest]; subst.
    destruct (IHn n eq_refl Hn) as (n' & Hs & Ht & Hsh & Hnf' & Hno & Hid).
    destruct (IHns IHrest Hrest) as (ns' & Hr & Hrsh & Hrnf & Hrno & Hrid).
    cbn [Substitute_range]. rewrite Hs. cbn [bindO]. rewrite Hr. cbn [bindO].
    eexists. split; [reflexivity|]. repeat split.
    + cbn [shape map] in *. injection Hrsh as Hrsh. rewrite Hrsh. do 3 f_equal.
      destruct n' as [t' o'], n as [t o]. cbn [shape Out] in *. congruence.
    + apply nil_free_cons. split; [|assumption].
      eexists. split; [reflexivity|]. destruct n' as [t' o']. exact Hnf'.
    + intros Hv. rewrite reads_below_cons. rewrite (Hrno Hv), orb_false_r.
      apply orb_false_iff. split.
      * cbn [This]. destruct (String.eqb_spec (_string (This n)) s) as [E|E];
          apply String.eqb_neq; assumption.
      * destruct n' as [t' o']. exact (Hno Hv).
    + intros Hrb. rewrite reads_below_cons in Hrb.
      apply orb_false_iff in Hrb as [Hhd Hrb]. apply orb_false_iff in Hhd as [Hname Hbelow].
      rewrite Hname. rewrite (Hrid Hrb). rewrite (Hid Hbelow).
      destruct n; reflexivity.
Qed.

Lemma Substitute_spec s v g :
  nil_free g = true ->
  exists g', Substitute g s v = Ok g' /\ This g' = This g /\
             shape g' = shape g /\ nil_free g' = true /\
             (_string v <> s -> reads_below s g' = false) /\
             (reads_below s g = false -> g' = g).
Proof.
  induction g as [t out IH] using Graph_children_ind. intros Hnf.
  destruct (Substitute_range_spec s v out) as (out' & Hr & Hsh & Hnf' & Hno & Hid).
  - eapply Forall_impl; [exact IH|]. intros slot Hslot n -> Hn. apply (Hslot n eq_refl Hn).
  - apply (proj2 (nil_free_Forall VNil out)), (proj1 (nil_free_Forall t out)). assumption.
  - cbn [Substitute]. rewrite Hr. cbn [bindO]. eexists. split; [reflexivity|].
    repeat split.
    + exact Hsh.
    + exact Hnf'.
    + exact Hno.
    + intros Hrb. rewrite (Hid Hrb). reflexivity.
Qed.

End SubstituteFacts.

(** X5. On a graph without nil child slots [Substitute] returns a graph
    of the same shape with the root's content untouched; when the new
    content does not itself read as [s], no node below the root reads as
    [s] afterwards; and when no node below the root reads as [s], the
    graph is returned as it was. *)
Theorem Substitute_replaces_everywhere {H : Helpers} s v g :
  nil_free g = true ->
  exists g',
    Substitute g s v = Ok g' /\ This g' = This g /\ shape g' = shape g /\
    (_string v <> s -> reads_below s g' = false) /\
    (reads_below s g = false -> g' = g).
Proof.
  intros Hnf. destruct (Substitute_spec s v g Hnf) as (g' & Hs & Ht & Hsh & _ & Hno & Hid).
  exists g'. repeat split; assumption.
Qed.

(** Replacing [x] by [7] at two depths. *)
Lemma Substitute_replaces_everywhere_witness :
  exists g',
    Substitute (H:=Ref.helpers)
      (Ref.root [Ref.named "x" [Ref.str "x"; Ref.str "y"]; Ref.str "z"]) "x" (VInt64 7) = Ok g' /\
    reads_below (H:=Ref.helpers) "x" g' = false.
Proof.
  destruct (Substitute_replaces_everywhere (H:=Ref.helpers) "x" (VInt64 7)
              (Ref.root [Ref.named "x" [Ref.str "x"; Ref.str "y"]; Ref.str "z"]) eq_refl)
    as (g' & Hs & _ & _ & Hno & _).
  exists g'. split; [exact Hs|]. apply Hno. vm_compute. discriminate.
Defined.

(** ** Add, then GetAt, Node and DeleteAt *)

Section AddLookup.

Context {H : Helpers}.

Lemma Add_appends g v :
  (forall h, v = VPtr (Some h) -> IsNil h = false) ->
  fst (Add g v) = mkGraph (This g) (Out g ++ [Some (snd (Add g v))]).
Proof.
  intros Hv. destruct v as [| | | | | | | |[h|]]; try reflexivity.
  cbn. rewrite (Hv h eq_refl). reflexivity.
Qed.

Lemma findNode_app_found out s extra : forall k r,
  findNode out s k = Ok (Some r) -> findNode (out ++ extra) s k = Ok (Some r).
Proof.
  induction out as [|[n|] out IH]; intros k r Hf; cbn [findNode app] in *; try discriminate.
  destruct (String.eqb s (_string (This n))); [assumption|]. apply IH. assumption.
Qed.

Lemma findNode_app_None out s c : forall k,
  findNode out s k = Ok None ->
  findNode (out ++ [Some c]) s k =
  Ok (if String.eqb s (_string (This c)) then Some ((k + length out)%nat, c) else None).
Proof.
  induction out as [|[n|] out IH]; intros k Hf; cbn [findNode app] in *; try discriminate.
  - replace (k + length [])%nat with k by (cbn; lia).
    destruct (String.eqb s (_string (This c))); reflexivity.
  - destruct (String.eqb s (_string (This n))); [discriminate|].
    rewrite IH by assumption. cbn [length].
    replace (S k + length out)%nat with (k + S (length out))%nat by lia. reflexivity.
Qed.

End AddLookup.

(** X6. [Add] appends: unless the argument is a transparent node, the
    node it returns is the new last child ([GetAt] at the old child
    count), the old children keep their positions, [DeleteAt] at the old
    child count undoes the [Add], a name that [Node] found before is
    still found at the same child, and a name that was not found is now
    found exactly when the new child reads as that name. *)
Theorem Add_then_lookup {H : Helpers} g v :
  (forall h, v = VPtr (Some h) -> IsNil h = false) ->
  GetAt (fst (Add g v)) (Len (Some g)) = Some (snd (Add g v)) /\
  (forall j, 0 <= j < Len (Some g) -> GetAt (fst (Add g v)) j = GetAt g j) /\
  DeleteAt (fst (Add g v)) (Len (Some g)) = g /\
  (forall s c, Node g s = Ok (Some c) -> Node (fst (Add g v)) s = Ok (Some c)) /\
  (forall s, Node g s = Ok None ->
             Node (fst (Add g v)) s =
             Ok (if String.eqb s (_string (This (snd (Add g v))))
                 then Some (snd (Add g v)) else None)).
Proof.
  intros Hv. rewrite (Add_appends g v Hv). generalize (snd (Add g v)) as r. intros r.
  cbn [Len]. repeat split.
  - rewrite GetAt_lookup by lia. cbn [Out]. rewrite Nat2Z.id.
    rewrite lookup_app_r by lia. rewrite Nat.sub_diag. reflexivity.
  - intros j Hj. rewrite !GetAt_lookup by lia. cbn [Out].
    rewrite lookup_app_l by lia. reflexivity.
  - unfold DeleteAt. cbn [Len Out This]. rewrite length_app. cbn [length].
    destruct (Z.ltb_spec (Z.of_nat (length (Out g))) 0); [lia|].
    destruct (Z.leb_spec (Z.of_nat (length (Out g) + 1)) (Z.of_nat (length (Out g)))); [lia|].
    cbn [orb]. rewrite Nat2Z.id.
    rewrite take_app_length, drop_ge by (rewrite length_app; cbn; lia).
    rewrite app_nil_r. destruct g; reflexivity.
  - intros s c. unfold Node. cbn [Out].
    destruct (findNode (Out g) s 0) as [[[k n]|]|] eqn:E; cbn [bindO option_map snd];
      try discriminate.
    intros [= <-]. rewrite (findNode_app_found _ _ _ _ _ E). reflexivity.
  - intros s. unfold Node. cbn [Out].
    destruct (findNode (Out g) s 0) as [[[k n]|]|] eqn:E; cbn [bindO option_map snd];
      try discriminate.
    intros _. rewrite (findNode_app_None _ _ r _ E). cbn [bindO].
    destruct (String.eqb s (_string (This r))); reflexivity.
Qed.

(** Adding the string [c] after two children. *)
Lemma Add_then_lookup_witness :
  Node (H:=Ref.helpers) (fst (Add (Ref.root [Ref.str "a"; Ref.str "b"]) (VString "c"))) "c" =
  Ok (Some (Ref.str "c")) /\
  DeleteAt (fst (Add (Ref.root [Ref.str "a"; Ref.str "b"]) (VString "c"))) 2 =
  Ref.root [Ref.str "a"; Ref.str "b"].
Proof.
  pose proof (Add_then_lookup (H:=Ref.helpers) (Ref.root [Ref.str "a"; Ref.str "b"])
                (VString "c") ltac:(discriminate)) as (_ & _ & Hd & _ & Hn).
  split; [exact (Hn "c" eq_refl) | exact Hd].
Defined.

(** ** get: index elements *)

(** X7. An index element after a field-name element that matched the
    child [c] descends to the child slot of [c] at that position and
    fails with the nil result when the element has no inner expression,
    when its text is not an integer, when the index is negative or at or
    beyond the child count of [c], or when the slot is nil.  When the
    path ends there, a node with content is returned inside a fresh
    container and a transparent node as it is. *)
Theorem get_index_in_bounds {H : Helpers} node np ep ik fld idx rest c :
  field_elem fld -> Node node (ThisString fld) = Ok (Some c) ->
  ThisString idx = TypeIndex ->
  (Len idx = 0 -> get_loop node np ep ik (fld :: idx :: rest) = Ok None) /\
  (forall arg, first_child idx = Ok arg -> Atoi (ThisString arg) = None ->
               get_loop node np ep ik (fld :: idx :: rest) = Ok None) /\
  (forall arg i, first_child idx = Ok arg -> Atoi (ThisString arg) = Some i ->
     get_loop node np ep ik (fld :: idx :: rest) =
     match GetAt c i with
     | None => Ok None
     | Some n => get_loop n (Some c) (ThisString (Some n)) false rest
     end /\
     (i < 0 \/ Len (Some c) <= i -> GetAt c i = None) /\
     (0 <= i < Len (Some c) -> GetAt c i = mjoin (Out c !! Z.to_nat i))) /\
  (forall n np' ep',
      get_loop n np' ep' false [] =
      Ok (Some (if IsNil n then n else mkGraph VNil [Some n]))).
Proof.
  intros Hf Hn Hx.
  assert (Hstep : get_loop node np ep ik (fld :: idx :: rest) =
                  get_loop c (Some node) (ThisString fld) true (idx :: rest)).
  { rewrite get_loop_field by assumption. rewrite Hn. reflexivity. }
  assert (Hnz : forall arg, first_child idx = Ok arg -> (Len idx =? 0) = false).
  { intros arg Hfc. destruct idx as [[t [|a l]]|]; try discriminate Hfc; reflexivity. }
  repeat split.
  - intros Hlen. rewrite Hstep. cbn [get_loop]. rewrite Hx, String.eqb_refl, Hlen. reflexivity.
  - intros arg Hfc Ha. rewrite Hstep. cbn [get_loop].
    rewrite Hx, String.eqb_refl, (Hnz _ Hfc), Hfc. cbn [bindO]. rewrite Ha. reflexivity.
  - rewrite Hstep. cbn [get_loop].
    rewrite Hx, String.eqb_refl, (Hnz _ H0), H0. cbn [bindO]. rewrite H1.
    destruct (GetAt c i); reflexivity.
  - intros Hi. unfold GetAt. cbn [Len] in Hi. destruct Hi as [Hi|Hi].
    + destruct (Z.ltb_spec i 0); [|lia]. rewrite orb_true_r. reflexivity.
    + destruct (Z.leb_spec (Z.of_nat (length (Out c))) i); [reflexivity|lia].
  - intros Hi. apply GetAt_lookup. lia.
  - intros n np' ep'. cbn [get_loop]. unfold get_finish. cbn [negb andb].
    rewrite andb_true_r. destruct (IsNil n) eqn:E; cbn [negb].
    + reflexivity.
    + cbn [Add New length Nat.eqb]. rewrite E. reflexivity.
Qed.

(** [a[2]] on a node [a] with two children fails, with three it returns
    the third. *)
Lemma get_index_in_bounds_witness :
  get (H:=Ref.helpers) (Some (Ref.root [Ref.named "a" [Ref.str "x"; Ref.str "y"]]))
      (Some (Ref.path [Ref.str "a"; Ref.index "2"])) = Ok None /\
  get (H:=Ref.helpers)
      (Some (Ref.root [Ref.named "a" [Ref.str "x"; Ref.str "y"; Ref.str "z"]]))
      (Some (Ref.path [Ref.str "a"; Ref.index "2"])) =
  Ok (Some (Ref.root [Ref.str "z"])).
Proof.
  split.
  - cbn [get Ref.path Ref.named Out map].
    rewrite (proj1 (proj1 (proj2 (proj2 (get_index_in_bounds (H:=Ref.helpers)
               (Ref.root [Ref.named "a" [Ref.str "x"; Ref.str "y"]]) None "" true
               (Some (Ref.str "a")) (Some (Ref.index "2")) []
               (Ref.named "a" [Ref.str "x"; Ref.str "y"])
               ltac:(eexists; (split; [reflexivity|]); repeat split; try discriminate; reflexivity)
               eq_refl eq_refl))) (Some (Ref.str "2")) 2 eq_refl eq_refl)).
    reflexivity.
  - reflexivity.
Defined.

(** ** set: what a write leaves alone, and a second write *)

Section SetFrame.

Context {H : Helpers}.

Lemma findNode_app_other out s c : forall k,
  String.eqb s (_string (This c)) = false ->
  findNode (out ++ [Some c]) s k = findNode out s k.
Proof.
  induction out as [|[n|] out IH]; intros k Hc; cbn [findNode app].
  - rewrite Hc. reflexivity.
  - destruct (String.eqb s (_string (This n))); [reflexivity|]. apply IH. assumption.
  - reflexivity.
Qed.

Lemma findNode_found out s : forall k0 k c,
  findNode out s k0 = Ok (Some (k, c)) ->
  (k0 <= k)%nat /\ out !! (k - k0)%nat = Some (Some c) /\
  String.eqb s (_string (This c)) = true.
Proof.
  induction out as [|[n|] out IH]; intros k0 k c Hf; cbn [findNode] in Hf; try discriminate.
  destruct (String.eqb s (_string (This n))) eqn:E.
  - injection Hf as <- <-. rewrite Nat.sub_diag. auto.
  - destruct (IH _ _ _ Hf) as (Hle & Hl & Hs). split; [lia|]. split; [|assumption].
    replace (k - k0)%nat with (S (k - S k0)) by lia. exact Hl.
Qed.

Lemma findNode_insert_other out c' s : forall k0 j c,
  out !! j = Some (Some c) -> This c' = This c ->
  String.eqb s (_string (This c)) = false ->
  findNode (<[j := Some c']> out) s k0 = findNode out s k0.
Proof.
  induction out as [|x out IH]; intros k0 j c Hl Ht Hs; [discriminate|].
  destruct j as [|j].
  - injection Hl as ->. cbn. rewrite Ht, Hs. reflexivity.
  - cbn [insert list_insert findNode]. destruct x as [n|]; [|reflexivity].
    change (list_insert j (Some c') out) with (<[j := Some c']> out).
    destruct (String.eqb s (_string (This n))); [reflexivity|].
    eapply IH; eassumption.
Qed.

(** A path of field names is resolved the same way whatever the
    previous level and the previous name are. *)
Lemma get_loop_fields_state elems : forall node np ep np' ep',
  Forall field_elem elems ->
  get_loop node np ep true elems = get_loop node np' ep' true elems.
Proof.
  destruct elems as [|e elems]; intros node np ep np' ep' Hall.
  - reflexivity.
  - inversion Hall; subst. rewrite !get_loop_field by assumption. reflexivity.
Qed.

Lemma eqb_name_neq (a b : string) : a <> b -> String.eqb b a = false.
Proof. intros Hne. apply String.eqb_neq. congruence. Qed.

Lemma set_build_frame val p q :
  diverge p q ->
  forall node node' r np ep,
    Forall field_elem p -> Forall field_elem q ->
    set_build node p val = Ok (node', r) ->
    match p with
    | e :: _ => findNode (Out node) (ThisString e) 0 = Ok None
    | [] => True
    end ->
    get_loop node' np ep true q = get_loop node np ep true q.
Proof.
  induction 1 as [a p b q Hne|a p b q Hsame Hdiv IH];
    intros node node' r np ep Hp Hq Hs Hnone;
    inversion Hp as [|? ? Ha Hp']; inversion Hq as [|? ? Hb Hq']; subst;
    pose proof Ha as (a' & -> & _ & _ & _ & Hastr & _);
    rewrite set_build_field in Hs by assumption;
    destruct (set_build (mkGraph (This a') []) p val) as [[gg' ret]|] eqn:Eb;
    try discriminate; cbn in Hs; injection Hs as <- <-;
    pose proof (set_build_This _ _ _ _ _ Hp' Eb) as Ht; cbn [This] in Ht;
    rewrite !get_loop_field by assumption; unfold Node; cbn [Out].
  - rewrite findNode_app_other
      by (rewrite Ht, <- Hastr; apply eqb_name_neq; assumption).
    destruct (findNode (Out node) (ThisString b) 0) as [[[k n]|]|]; cbn [bindO option_map snd];
      try reflexivity.
    apply get_loop_fields_state. assumption.
  - rewrite <- Hsame. rewrite Hnone.
    rewrite (findNode_None_app _ _ gg' 0%nat Hnone)
      by (rewrite Ht, Hastr; apply String.eqb_refl).
    cbn [bindO option_map snd].
    rewrite (IH _ _ _ (Some (mkGraph (This node) (Out node ++ [Some gg'])))
               (ThisString (Some a')) Hp' Hq' Eb)
      by (destruct p; [exact I|reflexivity]).
    destruct Hdiv as [a0 p0 b0 q0 _|a0 p0 b0 q0 _ _];
      inversion Hq' as [|? ? Hb0 _]; subst;
      rewrite get_loop_field by assumption; reflexivity.
Qed.

Lemma set_walk_frame val p q :
  diverge p q ->
  forall node node' r np ep,
    Forall field_elem p -> Forall field_elem q ->
    set_walk node p val = Ok (node', r) ->
    get_loop node' np ep true q = get_loop node np ep true q.
Proof.
  induction 1 as [a p b q Hne|a p b q Hsame Hdiv IH];
    intros node node' r np ep Hp Hq Hs;
    inversion Hp as [|? ? Ha Hp']; inversion Hq as [|? ? Hb Hq']; subst;
    pose proof Ha as (a' & -> & Hi & _ & _ & Hastr & _);
    pose proof Hs as Hs0;
    cbn [set_walk] in Hs; apply String.eqb_neq in Hi; rewrite Hi in Hs;
    destruct (findNode (Out node) (ThisString (Some a')) 0) as [[[k child]|]|] eqn:Ef;
    cbn [bindO] in Hs; try discriminate.
  - destruct (set_walk child p val) as [[child' ret]|] eqn:Ew; [|discriminate].
    cbn in Hs. injection Hs as <- <-.
    pose proof (set_walk_This _ _ _ _ _ Hp' Ew) as Ht.
    destruct (findNode_found _ _ _ _ _ Ef) as (_ & Hl & Hm). rewrite Nat.sub_0_r in Hl.
    rewrite !get_loop_field by assumption. unfold Node. cbn [Out].
    rewrite (findNode_insert_other _ child' _ 0%nat k child Hl Ht).
    + destruct (findNode (Out node) (ThisString b) 0) as [[[k' n]|]|];
        cbn [bindO option_map snd]; try reflexivity.
      apply get_loop_fields_state. assumption.
    + apply String.eqb_eq in Hm. rewrite <- Hm. apply eqb_name_neq. assumption.
  - eapply set_build_frame; [apply diverge_here; eassumption| | |exact Hs|exact Ef];
      assumption.
  - destruct (set_walk child p val) as [[child' ret]|] eqn:Ew; [|discriminate].
    cbn in Hs. injection Hs as <- <-.
    pose proof (set_walk_This _ _ _ _ _ Hp' Ew) as Ht.
    rewrite !get_loop_field by assumption. unfold Node. cbn [Out]. rewrite <- Hsame.
    destruct (findNode_insert _ _ child' _ _ _ Ef Ht) as [_ Hins].
    rewrite Nat.sub_0_r in Hins. rewrite Hins, Ef. cbn [bindO option_map snd].
    rewrite (IH _ _ _ _ _ Hp' Hq' Ew).
    apply get_loop_fields_state. assumption.
  - eapply set_build_frame; [apply diverge_later; eassumption| | |exact Hs|exact Ef];
      assumption.
Qed.

(** A second write through the same path of field names. *)
Lemma set_build_again v1 v2 : forall p node node1 r1,
  Forall field_elem p ->
  set_build node p v1 = Ok (node1, r1) ->
  match p with
  | e :: _ => findNode (Out node) (ThisString e) 0 = Ok None
  | [] => True
  end ->
  set_walk node1 p v2 = set_build node p v2.
Proof.
  induction p as [|e p IH]; intros node node1 r1 Hp Hs Hnone.
  - cbn in Hs. injection Hs as Hs. apply (f_equal fst) in Hs. cbn [fst] in Hs. subst node1.
    cbn [set_walk set_build]. unfold set_terminal. rewrite Add_This. reflexivity.
  - inversion Hp as [|? ? He Hp']; subst.
    pose proof He as (e' & -> & Hi & _ & _ & Hstr & _).
    rewrite set_build_field in Hs |- * by assumption.
    destruct (set_build (mkGraph (This e') []) p v1) as [[gg1 ret]|] eqn:Eb; [|discriminate].
    cbn in Hs. injection Hs as <- <-.
    pose proof (set_build_This _ _ _ _ _ Hp' Eb) as Ht. cbn [This] in Ht.
    cbn [set_walk]. apply String.eqb_neq in Hi. rewrite Hi. cbn [Out].
    rewrite (findNode_None_app _ _ gg1 0%nat Hnone)
      by (rewrite Ht, Hstr; apply String.eqb_refl).
    cbn [bindO].
    rewrite (IH _ _ _ Hp' Eb) by (destruct p; [exact I|reflexivity]).
    destruct (set_build (mkGraph (This e') []) p v2) as [[gg2 ret2]|]; [|reflexivity].
    cbn [bindO This]. do 3 f_equal.
    rewrite insert_app_r_alt by lia. rewrite Nat.add_0_l, Nat.sub_diag. reflexivity.
Qed.

Lemma set_walk_field node e rest val :
  field_elem e ->
  set_walk node (e :: rest) val =
  (r <- findNode (Out node) (ThisString e) 0 ;;
   match r with
   | Some (k, child) =>
       '(child', ret) <- set_walk child rest val ;;
       Ok (mkGraph (This node) (<[k := Some child']> (Out node)), ret)
   | None => set_build node (e :: rest) val
   end).
Proof.
  intros (e' & -> & Hi & _). cbn [set_walk]. apply String.eqb_neq in Hi. rewrite Hi.
  reflexivity.
Qed.

Lemma set_walk_again v1 v2 : forall p node node1 r1,
  Forall field_elem p ->
  set_walk node p v1 = Ok (node1, r1) ->
  set_walk node1 p v2 = set_walk node p v2.
Proof.
  induction p as [|e p IH]; intros node node1 r1 Hp Hs.
  - cbn in Hs. injection Hs as Hs. apply (f_equal fst) in Hs. cbn [fst] in Hs. subst node1.
    cbn [set_walk]. unfold set_terminal. rewrite Add_This. reflexivity.
  - inversion Hp as [|? ? He Hp']; subst.
    rewrite (set_walk_field node) in Hs |- * by assumption.
    destruct (findNode (Out node) (ThisString e) 0) as [[[k child]|]|] eqn:Ef;
      cbn [bindO] in Hs |- *; [| |discriminate].
    + destruct (set_walk child p v1) as [[child1 ret]|] eqn:Ew; [|discriminate].
      cbn in Hs. injection Hs as <- <-.
      pose proof (set_walk_This _ _ _ _ _ Hp' Ew) as Ht.
      destruct (findNode_insert _ _ child1 _ _ _ Ef Ht) as [_ Hins].
      rewrite Nat.sub_0_r in Hins.
      rewrite set_walk_field by assumption. cbn [Out]. rewrite Hins. cbn [bindO].
      rewrite (IH _ _ _ Hp' Ew).
      destruct (set_walk child p v2) as [[child2 ret2]|]; [|reflexivity].
      cbn [bindO This]. rewrite list_insert_insert_eq. reflexivity.
    + eapply set_build_again; eassumption.
Qed.

End SetFrame.

(** X8. A write through a path of field names leaves every diverging
    path alone: reading a path of field names that parts from the
    written path at some element gives the same result after the write
    as before it. *)
Theorem set_leaves_other_paths {H : Helpers} g p q v g' r :
  Forall field_elem (Out p) -> Forall field_elem (Out q) ->
  diverge (Out p) (Out q) ->
  set g (Some p) v = Ok (g', r) ->
  get (Some g') (Some q) = get (Some g) (Some q).
Proof.
  intros Hp Hq Hd Hs. cbn [set get] in *. eapply set_walk_frame; eassumption.
Qed.

(** Writing [a.b] does not change what [a.c] reads. *)
Lemma set_leaves_other_paths_witness :
  get (H:=Ref.helpers)
      (Some (Ref.root [Ref.named "a" [Ref.named "b" [Ref.leaf_int 7]; Ref.named "c" [Ref.str "2"]]]))
      (Some (Ref.path [Ref.str "a"; Ref.str "c"])) =
  get (H:=Ref.helpers)
      (Some (Ref.root [Ref.named "a" [Ref.named "b" [Ref.str "1"]; Ref.named "c" [Ref.str "2"]]]))
      (Some (Ref.path [Ref.str "a"; Ref.str "c"])).
Proof.
  apply (set_leaves_other_paths (H:=Ref.helpers)
           (Ref.root [Ref.named "a" [Ref.named "b" [Ref.str "1"]; Ref.named "c" [Ref.str "2"]]])
           (Ref.path [Ref.str "a"; Ref.str "b"]) (Ref.path [Ref.str "a"; Ref.str "c"])
           (VInt64 7) _ (leaf (VInt64 7))).
  - repeat constructor; eexists; (split; [reflexivity|]);
      repeat split; try discriminate; reflexivity.
  - repeat constructor; eexists; (split; [reflexivity|]);
      repeat split; try discriminate; reflexivity.
  - apply diverge_later; [reflexivity|]. apply diverge_here. discriminate.
  - reflexivity.
Defined.

(** X9. The last write wins: after a write through a path of field
    names has returned, a second write through the same path gives the
    graph (and returns the node) that the second write gives on the
    original graph; nothing of the first value is left. *)
Theorem set_twice_is_last_set {H : Helpers} g p v1 v2 g1 r1 :
  Forall field_elem (Out p) ->
  set g (Some p) v1 = Ok (g1, r1) ->
  set g1 (Some p) v2 = set g (Some p) v2.
Proof.
  intros Hp Hs. cbn [set] in *. eapply set_walk_again; eassumption.
Qed.

(** [a.b = 1] then [a.b = 2] on an empty root. *)
Lemma set_twice_is_last_set_witness :
  set (H:=Ref.helpers) (Ref.root [Ref.named "a" [Ref.named "b" [Ref.leaf_int 1]]])
      (Some (Ref.path [Ref.str "a"; Ref.str "b"])) (VInt64 2) =
  set (H:=Ref.helpers) (Ref.root []) (Some (Ref.path [Ref.str "a"; Ref.str "b"])) (VInt64 2).
Proof.
  apply (set_twice_is_last_set (H:=Ref.helpers) (Ref.root [])
           (Ref.path [Ref.str "a"; Ref.str "b"]) (VInt64 1) (VInt64 2) _ (leaf (VInt64 1))).
  - repeat constructor; eexists; (split; [reflexivity|]);
      repeat split; try discriminate; reflexivity.
  - reflexivity.
Defined.

(** * Further properties of the evaluator *)

Section EvalPathFacts.

Context {H : Helpers}.

Lemma EvalPath_with_loop ev g p :
  EvalPath_with ev g p =
  if Z.of_nat (length (Out p)) =? 0 then Ok (VNil, g)
  else EvalPath_loop ev p (Out p) 0 g
         (Some (if negb (IsNil g) then fst (Add NilGraph (VPtr (Some g))) else g)) false.
Proof. destruct p as [t pout]. reflexivity. Qed.

End EvalPathFacts.

(** ** Evaluation without assignment leaves the context alone *)

Section EvalFrame.

Context {H : Helpers}.

Lemma EvalPath_loop_frame ev p elems :
  Forall (fun n => forall t e rest, n = Some (mkGraph t (Some e :: rest)) -> frame_at ev e)
         elems ->
  forall i g node ik v g',
    EvalPath_loop ev p elems i g node ik = Ok (v, g') -> g' = g.
Proof.
  induction elems as [|n elems IH]; intros Hall i g node ik v g' He.
  - cbn in He. congruence.
  - inversion Hall as [|? ? Hn Hrest]; subst. specialize (IH Hrest).
    assert (Hfield : forall s g0 v g',
               match node with
               | None => Panic NilDeref
               | Some nd =>
                   nn <- Node nd s ;;
                   match nn with
                   | None => Ok (Function nd p i g0, g0)
                   | Some nn' => EvalPath_loop ev p elems (S i) g0 (Some nn') true
                   end
               end = Ok (v, g') -> g' = g0).
    { intros s g0 v0 g0' Hf. destruct node as [nd|]; [|discriminate].
      destruct (Node nd s) as [[nn'|]|]; cbn [bindO] in Hf; try discriminate.
      - eapply IH; eassumption.
      - congruence. }
    cbn [EvalPath_loop] in He.
    destruct (String.eqb (String_ n) TYPE_INDEX).
    { destruct (Len n =? 0); [congruence|].
      destruct n as [[t [|[e|] rest]]|]; try discriminate.
      destruct (ev g e) as [[itf g1]|] eqn:Ee; cbn [bindO] in He; [|discriminate].
      assert (g1 = g) by (eapply (Hn t e rest eq_refl); eassumption). subst g1.
      destruct (_int64 itf) as [ix ok].
      destruct (negb ok || (ix <? 0) || (Len node <=? ix)); [congruence|].
      destruct node as [nd|]; [|discriminate]. eapply IH; eassumption. }
    destruct (String.eqb (String_ n) TYPE_SELECTOR); [congruence|].
    destruct (String.eqb (String_ n) "_len"); [congruence|].
    destruct (String.eqb (String_ n) TYPE_GROUP).
    { destruct n as [[t [|[e|] rest]]|]; try discriminate.
      destruct (ev g e) as [[itf g1]|] eqn:Ee; cbn [bindO] in He; [|discriminate].
      assert (g1 = g) by (eapply (Hn t e rest eq_refl); eassumption). subst g1.
      destruct (Z.of_nat (String.length (_string itf)) =? 0); [congruence|].
      eapply Hfield; eassumption. }
    eapply Hfield; eassumption.
Qed.

Lemma EvalPath_with_frame ev p :
  Forall (fun n => forall t e rest, n = Some (mkGraph t (Some e :: rest)) -> frame_at ev e)
         (Out p) ->
  frame_at (EvalPath_with ev) p.
Proof.
  intros Hall g v g' He. rewrite EvalPath_with_loop in He.
  destruct (Z.of_nat (length (Out p)) =? 0); [congruence|].
  eapply EvalPath_loop_frame; eassumption.
Qed.

Lemma Eval_with_frame ev e :
  (forall e', e = Some e' -> frame_at ev e' /\ frame_at (EvalPath_with ev) e') ->
  forall g v g', Eval_with ev g e = Ok (v, g') -> g' = g.
Proof.
  intros He g v g' Hv. unfold Eval_with in Hv.
  destruct (String.eqb (String_ e) TYPE_PATH).
  { destruct e as [e'|]; [|discriminate]. eapply (proj2 (He e' eq_refl)); eassumption. }
  destruct (String.eqb (String_ e) TYPE_EXPRESSION).
  { destruct e as [e'|]; [|discriminate]. eapply (proj1 (He e' eq_refl)); eassumption. }
  destruct (negb (Len e =? 0)); congruence.
Qed.

Lemma is_assign_op_false os :
  is_assign_op os = false ->
  String.eqb os "=" = false /\ String.eqb os "+=" = false /\ String.eqb os "-=" = false /\
  String.eqb os "*=" = false /\ String.eqb os "/=" = false /\ String.eqb os "%=" = false.
Proof.
  unfold is_assign_op. cbn [existsb]. intros Hf.
  repeat match type of Hf with
         | (_ || _) = false => apply orb_false_iff in Hf as [? Hf]
         end.
  repeat split; assumption.
Qed.

Lemma evalBinary_with_frame ev p :
  is_assign_op (String_ (Some p)) = false ->
  Forall (fun s => forall n, s = Some n -> frame_at ev n) (Out p) ->
  frame_at (evalBinary_with ev) p.
Proof.
  intros Hop Hall g v g' He. destruct p as [t out]. cbn [Out] in Hall.
  unfold evalBinary_with in He.
  destruct out as [|n1 [|[n2|] rest]]; try discriminate.
  inversion Hall as [|? ? H1 Hall']; subst. inversion Hall' as [|? ? H2 _]; subst.
  destruct (ev g n2) as [[i2 g1]|] eqn:E2; cbn [bindO] in He; [|discriminate].
  assert (g1 = g) by (eapply (H2 n2 eq_refl); eassumption). subst g1.
  destruct (is_assign_op_false _ Hop) as (A1 & A2 & A3 & A4 & A5 & A6).
  assert (Hn1 : forall e1 v1 g2, n1 = Some e1 -> ev g e1 = Ok (v1, g2) -> g2 = g).
  { intros e1 v1 g2 -> E1. eapply (H1 e1 eq_refl). eassumption. }
  destruct n1 as [e1|];
    [destruct (ev g e1) as [[v1 g2]|] eqn:E1;
     [pose proof (Hn1 e1 v1 g2 eq_refl E1); subst g2|]|];
    cbn [bindO] in He;
    repeat match type of He with
           | (if ?b then _ else _) = _ =>
               destruct b eqn:?;
               [first [congruence
                      | match type of He with
                        | bindO ?m _ = _ => destruct m; cbn [bindO] in He; congruence
                        end]|]
           end;
    congruence.
Qed.

Lemma no_assign_inv t out :
  no_assign (mkGraph t out) = true ->
  is_assign_op (String_ (Some (mkGraph t out))) = false /\
  Forall (fun s => forall n, s = Some n -> no_assign n = true) out.
Proof.
  cbn [no_assign]. rewrite andb_true_iff, forallb_forall, negb_true_iff. intros [Ht Hout].
  split; [assumption|]. apply Forall_forall. intros s Hin n ->.
  apply list_elem_of_In in Hin. apply (Hout _ Hin).
Qed.

Lemma size_child t out c : In (Some c) out -> (size c < size (mkGraph t out))%nat.
Proof.
  cbn [size]. induction out as [|s out IH]; intros Hin; [destruct Hin|].
  cbn [fold_right]. destruct Hin as [->|Hin]; [lia|].
  specialize (IH Hin). destruct s; lia.
Qed.

Lemma no_assign_child t out c :
  no_assign (mkGraph t out) = true -> In (Some c) out -> no_assign c = true.
Proof.
  intros Hna Hin. apply no_assign_inv in Hna as [_ Hk].
  rewrite Forall_forall in Hk. apply (Hk (Some c)); [|reflexivity].
  apply list_elem_of_In. assumption.
Qed.

(** [EvalPath] on [q] when the inner expressions below [q] are framed. *)
Lemma EvalPath_frame_below q :
  (forall e, (size e < size q)%nat -> no_assign e = true -> frame_at EvalExpression e) ->
  no_assign q = true -> frame_at (EvalPath_with EvalExpression) q.
Proof.
  intros Hbelow Hq. apply EvalPath_with_frame. destruct q as [qt qout]. cbn [Out].
  apply Forall_forall. intros n Hin t' e rest ->. apply list_elem_of_In in Hin.
  pose proof (size_child qt _ _ Hin) as Hs1.
  pose proof (no_assign_child _ _ _ Hq Hin) as Hn.
  assert (Hin' : In (Some e) (Some e :: rest)) by (left; reflexivity).
  pose proof (size_child t' _ _ Hin') as Hs2.
  apply Hbelow; [lia|]. eapply no_assign_child; eassumption.
Qed.

Lemma EvalExpression_frame_size n : forall p,
  (size p <= n)%nat -> no_assign p = true -> frame_at EvalExpression p.
Proof.
  induction n as [|n IH]; intros p Hsize Hna.
  { destruct p. cbn in Hsize. lia. }
  destruct p as [t out].
  assert (Hkid : forall c, In (Some c) out -> frame_at EvalExpression c).
  { intros c Hin. pose proof (size_child t _ _ Hin).
    apply IH; [lia|]. eapply no_assign_child; eassumption. }
  assert (Hkidpath : forall c, In (Some c) out -> frame_at (EvalPath_with EvalExpression) c).
  { intros c Hin. pose proof (size_child t _ _ Hin).
    apply EvalPath_frame_below; [|eapply no_assign_child; eassumption].
    intros e He Hne. apply IH; [lia|assumption]. }
  assert (Hself : frame_at (EvalPath_with EvalExpression) (mkGraph t out)).
  { apply EvalPath_frame_below; [|assumption].
    intros e He Hne. apply IH; [lia|assumption]. }
  assert (Hbin : frame_at (evalBinary_with EvalExpression) (mkGraph t out)).
  { apply evalBinary_with_frame.
    - apply no_assign_inv in Hna. tauto.
    - cbn [Out]. apply Forall_forall. intros s Hin c ->. apply Hkid.
      apply list_elem_of_In. assumption. }
  intros g v g' He.
  assert (Hbody :
    (let s := String_ (Some (mkGraph t out)) in
     if Z.of_nat (String.length s) =? 0 then Ok (VString "", g)
     else if isNumber s then Ok (Number (mkGraph t out), g)
     else if String.eqb s "!" then
       match out with
       | [] => Panic IndexOutOfRange
       | e :: _ =>
           '(b, g1) <- EvalBool_with EvalExpression g e ;;
           Ok (VBool (negb b), g1)
       end
     else if String.eqb s TYPE_EXPRESSION then
       match out with
       | Some e :: _ => EvalExpression g e
       | _ => Panic NilDeref
       end
     else if String.eqb s TYPE_PATH then EvalPath_with EvalExpression g (mkGraph t out)
     else if String.eqb s TYPE_GROUP then
       (fix range (exprs : list (option Graph)) (g : Graph) (r : Graph)
                  {struct exprs} : outcome (value * Graph) :=
          match exprs with
          | [] => Ok (VPtr (Some r), g)
          | None :: _ => Panic NilDeref
          | Some expr :: rest =>
              '(v, g1) <- EvalExpression g expr ;;
              range rest g1 (fst (Add r v))
          end) out g (NewGraph TYPE_GROUP)
     else
       let c := first_byte s in
       if IsOperatorChar c then evalBinary_with EvalExpression g (mkGraph t out)
       else if (c =? 34) || (c =? 39) then Ok (VString s, g)
       else if IsLetter c then
         if String.eqb s "false" then Ok (VBool false, g)
         else if String.eqb s "true" then Ok (VBool true, g)
         else Ok (VString s, g)
       else Ok (VPtr (Some (mkGraph t out)), g)) = Ok (v, g') -> g' = g).
  { cbv zeta. intros Hb.
    destruct (Z.of_nat (String.length (String_ (Some (mkGraph t out)))) =? 0); [congruence|].
    destruct (isNumber (String_ (Some (mkGraph t out)))); [congruence|].
    destruct (String.eqb (String_ (Some (mkGraph t out))) "!").
    { destruct out as [|e out']; [discriminate|].
      unfold EvalBool_with in Hb.
      destruct (Eval_with EvalExpression g e) as [[v0 g1]|] eqn:Ev; cbn [bindO] in Hb;
        [|discriminate].
      assert (g1 = g); [|congruence].
      eapply (Eval_with_frame EvalExpression e); [|exact Ev].
      intros e' ->. split; [apply Hkid | apply Hkidpath]; left; reflexivity. }
    destruct (String.eqb (String_ (Some (mkGraph t out))) TYPE_EXPRESSION).
    { destruct out as [|[e|] out']; try discriminate.
      eapply (Hkid e); [left; reflexivity | exact Hb]. }
    destruct (String.eqb (String_ (Some (mkGraph t out))) TYPE_PATH).
    { eapply Hself. exact Hb. }
    destruct (String.eqb (String_ (Some (mkGraph t out))) TYPE_GROUP).
    { revert Hb. generalize (NewGraph TYPE_GROUP) as r.
      clear -Hkid. revert g. induction out as [|s out IHout]; intros g r Hb.
      - congruence.
      - destruct s as [expr|]; [|discriminate].
        destruct (EvalExpression g expr) as [[v0 g1]|] eqn:Ee; cbn [bindO] in Hb;
          [|discriminate].
        assert (g1 = g) by (eapply (Hkid expr); [left; reflexivity | exact Ee]). subst g1.
        eapply IHout; [|exact Hb]. intros c Hin. apply Hkid. right. assumption. }
    destruct (IsOperatorChar (first_byte (String_ (Some (mkGraph t out))))).
    { eapply Hbin. exact Hb. }
    destruct ((first_byte (String_ (Some (mkGraph t out))) =? 34)
              || (first_byte (String_ (Some (mkGraph t out))) =? 39)); [congruence|].
    destruct (IsLetter (first_byte (String_ (Some (mkGraph t out))))).
    { destruct (String.eqb (String_ (Some (mkGraph t out))) "false"); [congruence|].
      destruct (String.eqb (String_ (Some (mkGraph t out))) "true"); congruence. }
    congruence. }
  destruct t; [cbn in He; congruence | exact (Hbody He) ..].
Qed.

End EvalFrame.

(** X10. Evaluation changes the context graph only through assignment:
    when no node of an expression tree is one of the operators
    [= += -= *= /= %=], an evaluation that returns leaves the context
    graph as it was.  (The function-call hook of [EvalPath] is taken as
    free of side effects.) *)
Theorem evaluation_without_assignment {H : Helpers} g p v g' :
  no_assign p = true -> EvalExpression g p = Ok (v, g') -> g' = g.
Proof.
  intros Hna He. eapply (EvalExpression_frame_size (size p) p); eauto.
Qed.

(** [(1 + 2) == 3] on a graph with one child. *)
Lemma evaluation_without_assignment_witness :
  no_assign (H:=Ref.helpers)
    (binop "==" (binop "+" (Ref.str "1") (Ref.str "2")) (Ref.str "3")) = true /\
  EvalExpression (H:=Ref.helpers) (Ref.root [Ref.named "x" [Ref.leaf_int 1]])
    (binop "==" (binop "+" (Ref.str "1") (Ref.str "2")) (Ref.str "3")) =
  Ok (VBool true, Ref.root [Ref.named "x" [Ref.leaf_int 1]]) /\
  Ref.root [Ref.named "x" [Ref.leaf_int 1]] = Ref.root [Ref.named "x" [Ref.leaf_int 1]].
Proof.
  split; [reflexivity|]. split; [reflexivity|].
  exact (evaluation_without_assignment (H:=Ref.helpers)
           (Ref.root [Ref.named "x" [Ref.leaf_int 1]])
           (binop "==" (binop "+" (Ref.str "1") (Ref.str "2")) (Ref.str "3"))
           (VBool true) (Ref.root [Ref.named "x" [Ref.leaf_int 1]])
           eq_refl eq_refl).
Defined.

(** ** EvalPath over field names, and reading back an assignment *)

Section EvalPathFields.

Context {H : Helpers}.

Lemma EvalPath_loop_field ev p e rest i g nd ik :
  eval_field e ->
  EvalPath_loop ev p (e :: rest) i g (Some nd) ik =
  (nn <- Node nd (ThisString e) ;;
   match nn with
   | None => Ok (Function nd p i g, g)
   | Some nn' => EvalPath_loop ev p rest (S i) g (Some nn') true
   end).
Proof.
  intros (_ & Hs & Hi & Hsel & Hlen & Hgrp). cbn [EvalPath_loop].
  apply String.eqb_neq in Hi, Hsel, Hlen, Hgrp. rewrite Hi, Hsel, Hlen, Hgrp, Hs.
  reflexivity.
Qed.

(** Where [get] resolves a path of field names, the loop of [EvalPath]
    reaches the same node. *)
Lemma EvalPath_loop_as_get ev p elems : forall nd i g np ep final,
  Forall eval_field elems ->
  get_loop nd np ep true elems = Ok (Some final) ->
  EvalPath_loop ev p elems i g (Some nd) true = Ok (EvalPath_finish (Some final) true, g).
Proof.
  induction elems as [|e elems IH]; intros nd i g np ep final Hall Hg.
  - rewrite get_loop_nil_iknow in Hg. injection Hg as <-. reflexivity.
  - inversion Hall as [|? ? He Hrest]; subst.
    rewrite EvalPath_loop_field by assumption.
    rewrite get_loop_field in Hg by (apply He).
    destruct (Node nd (ThisString e)) as [[nn'|]|]; cbn [bindO] in Hg |- *; try discriminate.
    eapply IH; eassumption.
Qed.

End EvalPathFields.

(** X11. On a context whose root is transparent, [EvalPath] over a
    non-empty path of field names that [get] resolves to the node
    [final] leaves the context as it is and returns the scalar of the
    only child of [final] when that child is a leaf, and otherwise a new
    transparent node with the children of [final]. *)
Theorem EvalPath_reads_what_get_finds {H : Helpers} g p final :
  IsNil g = true -> Forall eval_field (Out p) -> Out p <> [] ->
  get (Some g) (Some p) = Ok (Some final) ->
  EvalPath g p =
  Ok (match Out final with
      | [Some c] =>
          match Out c with
          | [] => This c
          | _ => VPtr (Some (mkGraph VNil (Out final)))
          end
      | _ => VPtr (Some (mkGraph VNil (Out final)))
      end, g).
Proof.
  intros Hg Hall Hne Hget. unfold EvalPath. rewrite EvalPath_with_loop.
  destruct (Out p) as [|e elems] eqn:Ep; [congruence|]. cbn [get] in Hget. rewrite Ep in Hget.
  change (Z.of_nat (length (e :: elems)) =? 0) with false. cbv iota.
  rewrite Hg. cbn [negb].
  inversion Hall as [|? ? He Hrest]; subst.
  rewrite EvalPath_loop_field by assumption.
  rewrite get_loop_field in Hget by (apply He).
  destruct (Node g (ThisString e)) as [[nn'|]|]; cbn [bindO] in Hget |- *; try discriminate.
  rewrite (EvalPath_loop_as_get _ _ _ _ _ _ _ _ _ Hrest Hget).
  unfold EvalPath_finish. do 2 f_equal.
  destruct (Out final) as [|[c|] [|x l]]; try reflexivity.
  cbn [Len]. destruct (Out c); reflexivity.
Qed.

(** [a.b] on a graph where [a.b] holds the single leaf [7]. *)
Lemma EvalPath_reads_what_get_finds_witness :
  EvalPath (H:=Ref.helpers) (Ref.root [Ref.named "a" [Ref.named "b" [Ref.leaf_int 7]]])
           (Ref.path [Ref.str "a"; Ref.str "b"]) =
  Ok (VInt64 7, Ref.root [Ref.named "a" [Ref.named "b" [Ref.leaf_int 7]]]).
Proof.
  apply (EvalPath_reads_what_get_finds (H:=Ref.helpers)
           (Ref.root [Ref.named "a" [Ref.named "b" [Ref.leaf_int 7]]])
           (Ref.path [Ref.str "a"; Ref.str "b"]) (Ref.named "b" [Ref.leaf_int 7]) eq_refl).
  - repeat constructor; try discriminate;
      eexists; (split; [reflexivity|]); repeat split; try discriminate; reflexivity.
  - discriminate.
  - reflexivity.
Defined.

(** X12. An assignment can be read back: on a context whose root is
    transparent, after [path = v] for a non-empty path of field names
    and a value that is not a node, evaluating the path returns [v] and
    leaves the graph as the assignment made it. *)
Theorem assignment_is_read_back {H : Helpers} g p v r g' :
  IsNil g = true -> Forall eval_field (Out p) -> Out p <> [] ->
  (forall h, v <> VPtr (Some h)) ->
  assign g (Some p) v op_eq = Ok (r, g') ->
  EvalPath g' p = Ok (v, g').
Proof.
  intros Hg Hall Hne Hv Ha. unfold assign in Ha. cbn [Z.eqb op_eq Pos.eqb] in Ha.
  unfold set_value in Ha. cbn [set] in Ha.
  destruct (set_walk g (Out p) v) as [[g1 ret]|] eqn:Es; cbn [bindO] in Ha; [|discriminate].
  injection Ha as _ <-.
  assert (Hf : Forall field_elem (Out p)).
  { eapply Forall_impl; [exact Hall|]. intros e He. apply He. }
  destruct (set_walk_then_get v (Out p) g g1 ret None "" Hf Es) as (final & Hget & Hout).
  pose proof (set_walk_This _ _ _ _ _ Hf Es) as Ht.
  rewrite (EvalPath_reads_what_get_finds g1 p final); try assumption.
  - rewrite Hout. unfold written.
    destruct v as [| | | | | | | |[h|]]; try reflexivity. destruct (Hv h). reflexivity.
  - unfold IsNil in *. rewrite Ht. assumption.
Qed.

(** [a.b = 7] on an empty root, then [a.b]. *)
Lemma assignment_is_read_back_witness :
  EvalPath (H:=Ref.helpers) (Ref.root [Ref.named "a" [Ref.named "b" [Ref.leaf_int 7]]])
           (Ref.path [Ref.str "a"; Ref.str "b"]) =
  Ok (VInt64 7, Ref.root [Ref.named "a" [Ref.named "b" [Ref.leaf_int 7]]]).
Proof.
  apply (assignment_is_read_back (H:=Ref.helpers) (Ref.root [])
           (Ref.path [Ref.str "a"; Ref.str "b"]) (VInt64 7)
           (VPtr (Some (Ref.leaf_int 7))) _ eq_refl).
  - repeat constructor; try discriminate;
      eexists; (split; [reflexivity|]); repeat split; try discriminate; reflexivity.
  - discriminate.
  - discriminate.
  - reflexivity.
Defined.

(** ** compare *)

(** X13. [compare] chooses the family by its left operand.  An integer
    left operand with a right operand read as integer gives the six
    integer relations, [!=] being the negation of [==], [>=] of [<] and
    [<=] of [>]; when the right operand cannot be read as an integer
    every comparison is false, [!=] included.  A left operand that is
    neither integer nor float compares the two strings: [==] and [!=]
    are string equality and its negation, and the four ordering
    comparisons are false. *)
Theorem compare_by_left_operand {H : Helpers} v1 v2 :
  (forall i1 i2, _int64 v1 = (i1, true) -> _int64f v2 = (i2, true) ->
     compare v1 v2 op_eq = (i1 =? i2) /\
     compare v1 v2 op_not = negb (compare v1 v2 op_eq) /\
     compare v1 v2 op_lt = (i1 <? i2) /\
     compare v1 v2 op_gt = (i2 <? i1) /\
     compare v1 v2 op_add = negb (compare v1 v2 op_lt) /\
     compare v1 v2 op_sub = negb (compare v1 v2 op_gt)) /\
  (forall i1, _int64 v1 = (i1, true) -> snd (_int64f v2) = false ->
     forall op, compare v1 v2 op = false) /\
  (snd (_int64 v1) = false -> snd (_float64 v1) = false ->
     compare v1 v2 op_eq = String.eqb (_string v1) (_string v2) /\
     compare v1 v2 op_not = negb (String.eqb (_string v1) (_string v2)) /\
     compare v1 v2 op_lt = false /\ compare v1 v2 op_gt = false /\
     compare v1 v2 op_add = false /\ compare v1 v2 op_sub = false).
Proof.
  split; [|split].
  - intros i1 i2 E1 E2. unfold compare. rewrite E1, E2. cbn.
    rewrite !Z.ltb_antisym, !negb_involutive. repeat split; reflexivity.
  - intros i1 E1 E2 op. unfold compare. rewrite E1.
    destruct (_int64f v2) as [i2 ok]. cbn in E2. subst ok. reflexivity.
  - intros E1 E2. unfold compare.
    destruct (_int64 v1) as [i1 ok1]; destruct (_float64 v1) as [f1 ok2].
    cbn in E1, E2. subst. repeat split; reflexivity.
Qed.

(** [3 != x] is false: the right operand is not an integer. *)
Lemma compare_by_left_operand_witness :
  compare (H:=Ref.helpers) (VInt64 3) (VString "x") op_not = false /\
  compare (H:=Ref.helpers) (VString "b") (VString "a") op_gt = false.
Proof.
  pose proof (compare_by_left_operand (H:=Ref.helpers) (VInt64 3) (VString "x"))
    as (_ & Hfail & _).
  pose proof (compare_by_left_operand (H:=Ref.helpers) (VString "b") (VString "a"))
    as (_ & _ & Hstr).
  split.
  - exact (Hfail 3 eq_refl eq_refl op_not).
  - exact (proj1 (proj2 (proj2 (proj2 (Hstr eq_refl eq_refl))))).
Defined.

(** * Properties of the text emitter *)

Section EmitterFacts.

Context {H : Helpers}.

Lemma str_existsb_app f a b :
  str_existsb f (String.append a b) = str_existsb f a || str_existsb f b.
Proof.
  induction a as [|c a IH]; [reflexivity|].
  change (str_existsb f (String c (String.append a b)) =
          (f c || str_existsb f a) || str_existsb f b).
  cbn [str_existsb]. rewrite IH, orb_assoc. reflexivity.
Qed.

Lemma no_cr_app a b : no_cr (String.append a b) = no_cr a && no_cr b.
Proof. unfold no_cr. rewrite str_existsb_app, negb_orb. reflexivity. Qed.

Lemma no_cr_spaces_nat n : no_cr (spaces_nat n) = true.
Proof. induction n as [|n IH]; [reflexivity|]. exact IH. Qed.

Lemma str_existsb_substring f s : forall n m,
  str_existsb f (String.substring n m s) = true -> str_existsb f s = true.
Proof.
  induction s as [|c s IH]; intros n m Hs.
  - destruct n, m; discriminate.
  - destruct n as [|n].
    + destruct m as [|m]; [discriminate|]. cbn in Hs |- *.
      apply orb_true_iff in Hs as [Hc|Hs]; [rewrite Hc; reflexivity|].
      rewrite (IH _ _ Hs), orb_true_r. reflexivity.
    + cbn in Hs |- *. rewrite (IH _ _ Hs), orb_true_r. reflexivity.
Qed.

Lemma no_cr_substring s n m : no_cr s = true -> no_cr (String.substring n m s) = true.
Proof.
  unfold no_cr. intros Hs. apply negb_true_iff. apply negb_true_iff in Hs.
  destruct (str_existsb (Ascii.eqb CR) (String.substring n m s)) eqn:E; [|reflexivity].
  apply str_existsb_substring in E. congruence.
Qed.

Lemma no_cr_quote_loop deep sp : forall s cp,
  no_cr sp = true -> no_cr (quote_loop deep sp cp s) = true.
Proof.
  induction s as [|c s IH]; intros cp Hsp; [reflexivity|]. cbn [quote_loop].
  destruct (Ascii.eqb c CR) eqn:Ecr; [apply IH; assumption|].
  destruct (Ascii.eqb c LF) eqn:Elf.
  { change (String LF ?x) with (String.append (String LF EmptyString) x).
    rewrite !no_cr_app, Hsp, IH by assumption. reflexivity. }
  destruct (Ascii.eqb c DQUOTE && deep).
  { rewrite no_cr_app, IH by assumption. destruct (negb (Ascii.eqb cp BACKSLASH)); reflexivity. }
  change (String c ?x) with (String.append (String c EmptyString) x).
  rewrite no_cr_app, IH by assumption. unfold no_cr. cbn [str_existsb].
  rewrite Ascii.eqb_sym, Ecr. reflexivity.
Qed.

Lemma has_special_no_cr s : has_special s = false -> no_cr s = true.
Proof.
  unfold has_special, no_cr. induction s as [|c s IH]; [reflexivity|]. cbn [str_existsb].
  intros Hs. apply orb_false_iff in Hs as [Hc Hs]. rewrite (negb_orb _ _).
  apply andb_true_iff. split; [|apply IH; assumption].
  cbn [existsb] in Hc. apply orb_false_iff in Hc as [_ Hc]. apply orb_false_iff in Hc as [Hc _].
  rewrite Ascii.eqb_sym, Hc. reflexivity.
Qed.

Lemma last_byte_app_LF a : last_byte (String.append a (String LF EmptyString)) = Some LF.
Proof.
  induction a as [|c a IH]; [reflexivity|].
  change (last_byte (String c (String.append a (String LF EmptyString))) = Some LF).
  destruct (String.append a (String LF EmptyString)) eqn:E; [destruct a; discriminate|].
  exact IH.
Qed.

Lemma last_byte_app a b :
  b <> EmptyString -> last_byte (String.append a b) = last_byte b.
Proof.
  intros Hb. induction a as [|c a IH]; [reflexivity|].
  change (last_byte (String c (String.append a b)) = last_byte b).
  destruct (String.append a b) eqn:E; [destruct a; [change (b = EmptyString) in E; congruence|discriminate]|].
  exact IH.
Qed.

Lemma ends_with_newline_app a b :
  ends_with_newline a = true -> ends_with_newline b = true ->
  ends_with_newline (String.append a b) = true.
Proof.
  intros Ha Hb. destruct b as [|c b].
  - replace (String.append a EmptyString) with a; [assumption|].
    clear. symmetry. induction a as [|c a IH]; [reflexivity|].
    change (String c (String.append a EmptyString) = String c a). rewrite IH. reflexivity.
  - unfold ends_with_newline in *. rewrite last_byte_app by discriminate. assumption.
Qed.

Lemma append_assoc_LF a b :
  String.append a (String.append b (String LF EmptyString)) =
  String.append (String.append a b) (String LF EmptyString).
Proof.
  induction a as [|c a IH]; [reflexivity|].
  change (String c (String.append a (String.append b (String LF EmptyString))) =
          String c (String.append (String.append a b) (String LF EmptyString))).
  rewrite IH. reflexivity.
Qed.

(** What [_text] writes for one node: no carriage return, and nothing or
    a text that ends with a newline. *)
Lemma text_head_written n s show :
  no_cr (fst (text_head n s show)) = true /\
  ends_with_newline (fst (text_head n s show)) = true.
Proof.
  unfold text_head.
  assert (Hsp : no_cr (spaces n) = true) by apply no_cr_spaces_nat.
  destruct (has_special s) eqn:Es; cbn [fst].
  - split.
    + rewrite !no_cr_app, no_cr_quote_loop by assumption.
      destruct (n >? 0); [|reflexivity].
      rewrite no_cr_app. unfold but_last. rewrite no_cr_substring by assumption. reflexivity.
    + unfold ends_with_newline. rewrite !append_assoc_LF, last_byte_app_LF. reflexivity.
  - destruct ((Z.of_nat (String.length s) =? 0) && negb show); cbn [fst]; [split; reflexivity|].
    split.
    + rewrite !no_cr_app, Hsp.
      destruct ((Z.of_nat (String.length s) =? 0) && show); [reflexivity|].
      rewrite (has_special_no_cr s Es). reflexivity.
    + unfold ends_with_newline. rewrite append_assoc_LF, last_byte_app_LF. reflexivity.
Qed.

Lemma text_children_written T show out : forall n,
  (forall m c, no_cr (T m c) = true /\ ends_with_newline (T m c) = true) ->
  no_cr (text_children T n show out) = true /\
  ends_with_newline (text_children T n show out) = true.
Proof.
  induction out as [|[c|] out IH]; intros n HT; cbn [text_children].
  - split; reflexivity.
  - destruct (HT n c) as [H1 H2]. destruct (IH n HT) as [H3 H4]. split.
    + rewrite no_cr_app, H1, H3. reflexivity.
    + apply ends_with_newline_app; assumption.
  - destruct (text_head_written n "_" show) as [H1 H2]. destruct (IH n HT) as [H3 H4]. split.
    + rewrite no_cr_app, H1, H3. reflexivity.
    + apply ends_with_newline_app; assumption.
Qed.

Lemma text_written show g : forall n,
  no_cr (_text n g show) = true /\ ends_with_newline (_text n g show) = true.
Proof.
  induction g as [t out IH] using Graph_children_ind. intros n. cbn [_text].
  destruct (text_head_written n (_string t) show) as [H1 H2].
  assert (Hkids : forall m,
             no_cr (text_children (fun m c => _text m c show) m show out) = true /\
             ends_with_newline (text_children (fun m c => _text m c show) m show out) = true).
  { clear -IH. induction out as [|[c|] out IHout]; intros m; cbn [text_children].
    - split; reflexivity.
    - inversion IH as [|? ? Hc Hrest]; subst.
      destruct (Hc c eq_refl m) as [A1 A2]. destruct (IHout Hrest m) as [A3 A4]. split.
      + rewrite no_cr_app, A1, A3. reflexivity.
      + apply ends_with_newline_app; assumption.
    - inversion IH as [|? ? Hc Hrest]; subst.
      destruct (text_head_written m "_" show) as [A1 A2].
      destruct (IHout Hrest m) as [A3 A4]. split.
      + rewrite no_cr_app, A1, A3. reflexivity.
      + apply ends_with_newline_app; assumption. }
  destruct (Hkids (snd (text_head n (_string t) show) + 1)) as [H3 H4]. split.
  - rewrite no_cr_app, H1, H3. reflexivity.
  - apply ends_with_newline_app; assumption.
Qed.

Lemma no_cr_unescape_quotes s : no_cr s = true -> no_cr (unescape_quotes s) = true.
Proof.
  unfold no_cr. intros Hs. apply negb_true_iff. apply negb_true_iff in Hs.
  revert Hs. remember (String.length s) as k eqn:Hk.
  assert (Hle : (String.length s <= k)%nat) by lia. clear Hk. revert s Hle.
  induction k as [|k IH]; intros [|c [|d s']] Hle Hs; try reflexivity;
    try exact Hs; cbn [String.length] in Hle; try lia.
  cbn [unescape_quotes].
  cbn [str_existsb] in Hs. apply orb_false_iff in Hs as [Hc Hs].
  pose proof Hs as Hs'. cbn [str_existsb] in Hs'. apply orb_false_iff in Hs' as [Hd Hs''].
  destruct (Ascii.eqb c BACKSLASH && Ascii.eqb d DQUOTE).
  - cbn [str_existsb]. rewrite (IH s'); [reflexivity|lia|assumption].
  - cbn [str_existsb]. rewrite Hc. cbn [orb]. apply (IH (String d s')); [cbn; lia|assumption].
Qed.

Lemma text_finish_no_cr s r :
  no_cr s = true -> text_finish s = Ok r -> no_cr r = true.
Proof.
  intros Hs. unfold text_finish.
  destruct (Z.of_nat (String.length s) =? 0); [intros [= <-]; reflexivity|].
  set (s1 := match last_byte s with
             | Some c => if Ascii.eqb c LF then but_last s else s
             | None => s
             end).
  assert (H1 : no_cr s1 = true).
  { unfold s1. destruct (last_byte s) as [c|]; [|assumption].
    destruct (Ascii.eqb c LF); [|assumption]. apply no_cr_substring. assumption. }
  clearbody s1. destruct s1 as [|c s1']; [discriminate|].
  destruct (Ascii.eqb c DQUOTE).
  - destruct (String.length (String c s1') <? 2)%nat; [discriminate|].
    intros [= <-]. apply no_cr_unescape_quotes.
    exact (no_cr_substring (String c s1') 1 _ H1).
  - intros [= <-]. exact H1.
Qed.

End EmitterFacts.

(** X14. The emitter drops carriage returns: whatever the graph holds,
    a text that [Text] or [Show] returns contains no carriage return. *)
Theorem emitted_text_has_no_carriage_return {H : Helpers} g :
  (forall r, Text g = Ok r -> no_cr r = true) /\
  (forall r, Show g = Ok r -> no_cr r = true).
Proof.
  split; intros r Hr; destruct g as [g|]; cbn [Text Show] in Hr;
    try (injection Hr as <-; reflexivity).
  - eapply text_finish_no_cr; [|exact Hr].
    apply text_children_written. intros m c. apply text_written.
  - eapply text_finish_no_cr; [|exact Hr]. apply text_written.
Qed.

(** A leaf that reads [a], carriage return, blank, [b] is emitted as
    [a b]. *)
Lemma emitted_text_has_no_carriage_return_witness :
  @Text Ref.helpers
    (Some (mkGraph VNil
             [Some (mkGraph (VString (String "a" (String CR (String " " (String "b" EmptyString))))) [])])) =
  Ok (String "a" (String " " (String "b" EmptyString))) /\
  no_cr (String "a" (String " " (String "b" EmptyString))) = true.
Proof.
  split; [reflexivity|].
  exact (proj1 (@emitted_text_has_no_carriage_return Ref.helpers
                  (Some (mkGraph VNil
                     [Some (mkGraph (VString (String "a" (String CR (String " " (String "b" EmptyString))))) [])])))
               _ eq_refl).
Defined.

Lemma append_assoc a b c :
  String.append (String.append a b) c = String.append a (String.append b c).
Proof.
  induction a as [|x a IH]; [reflexivity|].
  change (String x (String.append (String.append a b) c) =
          String x (String.append a (String.append b c))).
  rewrite IH. reflexivity.
Qed.

Lemma text_children_app T n show a b :
  text_children T n show (a ++ b) =
  String.append (text_children T n show a) (text_children T n show b).
Proof.
  induction a as [|[c|] a IH]; [reflexivity| |];
    cbn [app text_children]; rewrite IH, append_assoc; reflexivity.
Qed.

Lemma has_special_empty : has_special EmptyString = false.
Proof. reflexivity. Qed.

(** A node whose text is empty writes, without [show], what its children
    write at the node's own level. *)
Lemma _text_transparent {H : Helpers} n g :
  _string (This g) = EmptyString ->
  _text n g false = text_children (fun m c => _text m c false) n false (Out g).
Proof.
  destruct g as [t out]. cbn [This Out _text]. intros ->.
  unfold text_head. rewrite has_special_empty.
  change ((Z.of_nat (String.length EmptyString) =? 0) && negb false) with true.
  cbn [fst snd]. replace (n - 1 + 1) with n by lia. reflexivity.
Qed.

(** X15. Empty-text nodes are transparent to the emitter: replacing a
    child whose text is empty by that child's own children changes
    neither what [_text] writes for the parent, at any level, nor the
    result of [Text]. *)
Theorem Text_ignores_empty_nodes {H : Helpers} t pre c post :
  _string (This c) = EmptyString ->
  (forall n, _text n (mkGraph t (pre ++ Some c :: post)) false =
             _text n (mkGraph t (pre ++ Out c ++ post)) false) /\
  Text (Some (mkGraph t (pre ++ Some c :: post))) =
  Text (Some (mkGraph t (pre ++ Out c ++ post))).
Proof.
  intros Hc.
  assert (Hk : forall m,
             text_children (fun m c => _text m c false) m false (pre ++ Some c :: post) =
             text_children (fun m c => _text m c false) m false (pre ++ Out c ++ post)).
  { intros m. rewrite !text_children_app. cbn [text_children].
    rewrite (_text_transparent m c Hc). reflexivity. }
  split.
  - intros n. cbn [_text]. rewrite Hk. reflexivity.
  - cbn [Text Out]. rewrite Hk. reflexivity.
Qed.

Lemma Text_ignores_empty_nodes_witness :
  @_string Ref.helpers (This (mkGraph (VString EmptyString) [Some (Ref.str "b")])) = EmptyString /\
  @Text Ref.helpers
    (Some (mkGraph VNil [Some (Ref.str "a");
                         Some (mkGraph (VString EmptyString) [Some (Ref.str "b")]);
                         Some (Ref.str "c")])) =
  @Text Ref.helpers
    (Some (mkGraph VNil [Some (Ref.str "a"); Some (Ref.str "b"); Some (Ref.str "c")])).
Proof.
  split; [reflexivity|].
  exact (proj2 (@Text_ignores_empty_nodes Ref.helpers VNil [Some (Ref.str "a")]
                  (mkGraph (VString EmptyString) [Some (Ref.str "b")])
                  [Some (Ref.str "c")] eq_refl)).
Defined.

Lemma only_cr_special s : only_cr s = true -> has_special s = true.
Proof.
  destruct s as [|c s]; [discriminate|]. intros Hs.
  assert (Hc : Ascii.eqb c CR = true).
  { cbn [only_cr] in Hs. destruct s; [assumption|]. apply andb_true_iff in Hs as [Hc _]. exact Hc. }
  apply Ascii.eqb_eq in Hc. subst c. reflexivity.
Qed.

Lemma only_cr_quote_loop deep sp : forall s cp,
  only_cr s = true -> quote_loop deep sp cp s = EmptyString.
Proof.
  induction s as [|c s IH]; intros cp Hs; [discriminate|].
  assert (Hc : Ascii.eqb c CR = true).
  { cbn [only_cr] in Hs. destruct s; [assumption|]. apply andb_true_iff in Hs as [Hc _]. exact Hc. }
  cbn [quote_loop]. rewrite Hc. destruct s as [|d s]; [reflexivity|].
  apply IH. cbn [only_cr] in Hs. apply andb_true_iff in Hs as [_ Hs]. exact Hs.
Qed.

(** X16. A text made of carriage returns only cannot be emitted: the
    node is written as an empty line, the line end is cut, and the first
    byte of the empty rest is read.  [Text] of a parent whose only child
    is such a leaf and [Show] of the leaf itself both end in a run-time
    panic. *)
Theorem Text_panics_on_carriage_returns {H : Helpers} t v :
  only_cr (_string v) = true ->
  Text (Some (mkGraph t [Some (mkGraph v [])])) = Panic IndexOutOfRange /\
  Show (Some (mkGraph v [])) = Panic IndexOutOfRange.
Proof.
  intros Hv.
  assert (Hh : forall show, _text 0 (mkGraph v []) show = String LF EmptyString).
  { intros show. cbn [_text text_children]. unfold text_head.
    rewrite (only_cr_special _ Hv). cbn [Z.gtb Z.compare fst].
    rewrite (only_cr_quote_loop _ _ _ _ Hv). reflexivity. }
  split.
  - cbn [Text Out text_children]. rewrite Hh. reflexivity.
  - cbn [Show]. rewrite Hh. reflexivity.
Qed.

Lemma Text_panics_on_carriage_returns_witness :
  only_cr (@_string Ref.helpers (VString (String CR (String CR EmptyString)))) = true /\
  @Text Ref.helpers
    (Some (mkGraph VNil [Some (mkGraph (VString (String CR (String CR EmptyString))) [])])) =
  Panic IndexOutOfRange.
Proof.
  split; [reflexivity|].
  exact (proj1 (@Text_panics_on_carriage_returns Ref.helpers VNil
                  (VString (String CR (String CR EmptyString))) eq_refl)).
Defined.

Lemma plain_word_head n s show :
  plain_word s = true ->
  text_head n s show = (String.append (spaces n) (String.append s (String LF EmptyString)), n).
Proof.
  unfold plain_word, text_head. intros Hs. apply andb_true_iff in Hs as [Hlen Hsp].
  apply negb_true_iff in Hlen. apply negb_true_iff in Hsp.
  rewrite Hsp, Hlen. reflexivity.
Qed.

Lemma listing_children {H : Helpers} show out : forall n,
  0 <= n ->
  Forall (fun s => forall c, s = Some c ->
            nil_free c = true -> plain_tree c = true ->
            forall m, 0 <= m -> _text m c show = listing (Z.to_nat m) c) out ->
  forallb (fun s => match s with Some c => nil_free c | None => false end) out = true ->
  forallb (fun s => match s with Some c => plain_tree c | None => true end) out = true ->
  text_children (fun m c => _text m c show) n show out =
  fold_right (fun s acc => match s with
                           | Some c => String.append (listing (Z.to_nat n) c) acc
                           | None => acc
                           end) EmptyString out.
Proof.
  intros n Hn. induction out as [|[c|] out IH]; intros Hall Hnf Hpl; [reflexivity| |discriminate].
  inversion Hall as [|? ? Hc Hrest]; subst.
  cbn [forallb] in Hnf, Hpl.
  apply andb_true_iff in Hnf as [Hnc Hnf]. apply andb_true_iff in Hpl as [Hpc Hpl].
  cbn [text_children fold_right].
  rewrite (Hc c eq_refl Hnc Hpc n Hn), (IH Hrest Hnf Hpl). reflexivity.
Qed.

Lemma _text_listing {H : Helpers} show g :
  nil_free g = true -> plain_tree g = true ->
  forall n, 0 <= n -> _text n g show = listing (Z.to_nat n) g.
Proof.
  induction g as [t out IH] using Graph_children_ind. intros Hnf Hpl n Hn.
  cbn [nil_free] in Hnf. unfold plain_tree in Hpl. cbn [all_contents] in Hpl.
  apply andb_true_iff in Hpl as [Ht Hpl].
  cbn [_text listing]. rewrite (plain_word_head n _ show Ht). cbn [fst snd].
  rewrite (listing_children show out (n + 1)); [|lia|exact IH|exact Hnf|exact Hpl].
  replace (Z.to_nat (n + 1)) with (S (Z.to_nat n)) by lia.
  unfold spaces. rewrite !append_assoc. reflexivity.
Qed.

Lemma but_last_cons c d r :
  but_last (String c (String d r)) = String c (but_last (String d r)).
Proof.
  unfold but_last. cbn [String.length].
  replace (S (S (String.length r)) - 1)%nat with (S (S (String.length r) - 1)) by lia.
  reflexivity.
Qed.

Lemma plain_word_first s :
  plain_word s = true ->
  exists c s', s = String c s' /\ Ascii.eqb c DQUOTE = false.
Proof.
  destruct s as [|c s']; [discriminate|]. intros Hs. exists c, s'. split; [reflexivity|].
  unfold plain_word in Hs. apply andb_true_iff in Hs as [_ Hs]. apply negb_true_iff in Hs.
  unfold has_special in Hs. cbn [str_existsb] in Hs. apply orb_false_iff in Hs as [Hc _].
  cbn [existsb] in Hc. repeat (apply orb_false_iff in Hc as [? Hc]). assumption.
Qed.

(** X17. A graph without nil slots whose contents all read as plain
    words (not empty, no blank, quote, comma or parenthesis) is emitted
    as its listing: one line per node, indented by two spaces per level,
    whatever the [show] flag; and [Show] returns that listing without
    its last line end. *)
Theorem plain_tree_is_listed {H : Helpers} g show :
  nil_free g = true -> plain_tree g = true ->
  (forall n, 0 <= n -> _text n g show = listing (Z.to_nat n) g) /\
  Show (Some g) = Ok (but_last (listing 0 g)).
Proof.
  intros Hnf Hpl. split; [apply _text_listing; assumption|].
  cbn [Show]. rewrite (_text_listing true g Hnf Hpl 0) by lia.
  change (Z.to_nat 0) with 0%nat.
  pose proof (text_written true g 0) as [_ Hend].
  rewrite (_text_listing true g Hnf Hpl 0) in Hend by lia.
  change (Z.to_nat 0) with 0%nat in Hend.
  destruct g as [t out]. unfold plain_tree in Hpl. cbn [all_contents] in Hpl.
  apply andb_true_iff in Hpl as [Ht _].
  destruct (plain_word_first _ Ht) as (c & s' & Hs & Hq).
  cbn [listing spaces_nat] in Hend |- *. rewrite Hs in Hend |- *.
  set (kids := fold_right _ _ out) in *.
  change (String.append EmptyString ?x) with x in *.
  change (String.append (String c s') ?x) with (String c (String.append s' x)) in *.
  destruct (String.append s' (String LF kids)) as [|d r] eqn:Er.
  { destruct s' as [|x s'];
      [change (String LF kids = EmptyString) in Er
      |change (String x (String.append s' (String LF kids)) = EmptyString) in Er];
      discriminate. }
  unfold text_finish. cbn [String.length].
  replace (Z.of_nat (S (S (String.length r))) =? 0) with false by (symmetry; apply Z.eqb_neq; lia).
  unfold ends_with_newline in Hend.
  destruct (last_byte (String c (String d r))) as [e|] eqn:El; [|exfalso; clear -El; revert c d El; induction r as [|x r IHr]; intros c d El; [discriminate|exact (IHr d x El)]].
  rewrite Hend, but_last_cons, Hq. reflexivity.
Qed.

Lemma plain_tree_is_listed_witness :
  nil_free (mkGraph (VString "a") [Some (mkGraph (VString "b") [Some (Ref.str "c")]);
                                    Some (Ref.str "d")]) = true /\
  @plain_tree Ref.helpers
    (mkGraph (VString "a") [Some (mkGraph (VString "b") [Some (Ref.str "c")]);
                            Some (Ref.str "d")]) = true /\
  @Show Ref.helpers
    (Some (mkGraph (VString "a") [Some (mkGraph (VString "b") [Some (Ref.str "c")]);
                                  Some (Ref.str "d")])) =
  Ok (String "a" (String LF
       (String " " (String " " (String "b" (String LF
       (String " " (String " " (String " " (String " " (String "c" (String LF
       (String " " (String " " (String "d" EmptyString))))))))))))))).
Proof.
  split; [reflexivity|]. split; [reflexivity|].
  exact (proj2 (@plain_tree_is_listed Ref.helpers
                  (mkGraph (VString "a") [Some (mkGraph (VString "b") [Some (Ref.str "c")]);
                                          Some (Ref.str "d")])
                  true eq_refl eq_refl)).
Defined.

(** * addEqualNodes with recursion *)

Section GatherFacts.

Context {H : Helpers}.

Lemma addEqualNodes_gathered key g2 :
  nil_free g2 = true ->
  forall acc, addEqualNodes g2 key true acc = Ok (acc ++ gathered key g2).
Proof.
  induction g2 as [t out IH] using Graph_children_ind. intros Hnf.
  cbn [nil_free] in Hnf. cbn [addEqualNodes gathered].
  induction out as [|s out IHout]; intros acc.
  - cbn. rewrite app_nil_r. reflexivity.
  - inversion IH as [|? ? Hs Hrest]; subst.
    cbn [forallb] in Hnf. apply andb_true_iff in Hnf as [Hn Hnf].
    destruct s as [n|]; [|discriminate].
    cbn [flat_map]. rewrite (Hs n eq_refl Hn). cbn [bindO].
    rewrite (IHout Hrest Hnf).
    destruct (String.eqb key (_string (This n))); cbn [AddNodes Out This];
      rewrite <- ?app_assoc; reflexivity.
Qed.

Lemma gathered_members key g2 x :
  In x (gathered key g2) <->
  exists d, below g2 d /\ _string (This d) = key /\ In x (Out d).
Proof.
  induction g2 as [t out IH] using Graph_children_ind. cbn [gathered]. split.
  - intros Hin. apply in_flat_map in Hin as (s & Hs & Hx).
    destruct s as [n|]; [|destruct Hx].
    apply in_app_or in Hx as [Hx|Hx].
    + destruct (String.eqb key (_string (This n))) eqn:E; [|destruct Hx].
      apply String.eqb_eq in E. exists n. split; [apply below_child; exact Hs|].
      split; [symmetry; exact E|exact Hx].
    + rewrite Stdlib.Lists.List.Forall_forall in IH. apply (IH _ Hs n eq_refl) in Hx as (d & Hd & Hk & Hx).
      exists d. split; [eapply below_deeper; [exact Hs|exact Hd]|]. split; assumption.
  - intros (d & Hd & Hk & Hx). apply in_flat_map.
    rewrite Stdlib.Lists.List.Forall_forall in IH.
    inversion Hd as [g d' Hc|g c d' Hc Hb]; subst; cbn [Out] in Hc.
    + exists (Some d). split; [exact Hc|]. apply in_or_app. left.
      rewrite String.eqb_refl. exact Hx.
    + exists (Some c). split; [exact Hc|]. apply in_or_app. right.
      apply (IH _ Hc c eq_refl). exists d. split; [exact Hb|]. split; [reflexivity|exact Hx].
Qed.

End GatherFacts.

(** X18. With recursion, [addEqualNodes] keeps what the receiver holds
    and appends exactly the children of the nodes below [g2] whose text
    is the key: on a graph without nil slots it returns, and a slot is
    among the appended ones if and only if it is a child of such a
    node. *)
Theorem addEqualNodes_gathers_matches {H : Helpers} g2 key acc :
  nil_free g2 = true ->
  exists added,
    addEqualNodes g2 key true acc = Ok (acc ++ added) /\
    forall x, In x added <->
              exists d, below g2 d /\ _string (This d) = key /\ In x (Out d).
Proof.
  intros Hnf. exists (gathered key g2). split.
  - apply addEqualNodes_gathered. exact Hnf.
  - intros x. apply gathered_members.
Qed.

Lemma addEqualNodes_gathers_matches_witness :
  nil_free (Ref.root [Ref.named "k" [Ref.str "a"; Ref.named "k" [Ref.str "b"]]]) = true /\
  exists added,
    @addEqualNodes Ref.helpers
      (Ref.root [Ref.named "k" [Ref.str "a"; Ref.named "k" [Ref.str "b"]]])
      "k" true [Some (Ref.str "z")] = Ok ([Some (Ref.str "z")] ++ added) /\
    forall x, In x added <->
              exists d,
                below (Ref.root [Ref.named "k" [Ref.str "a"; Ref.named "k" [Ref.str "b"]]]) d /\
                @_string Ref.helpers (This d) = "k"%string /\ In x (Out d).
Proof.
  split; [reflexivity|].
  exact (@addEqualNodes_gathers_matches Ref.helpers
           (Ref.root [Ref.named "k" [Ref.str "a"; Ref.named "k" [Ref.str "b"]]])
           "k" [Some (Ref.str "z")] eq_refl).
Defined.
